(** * BLINK DB: storage engine, RESP-2 codec and command framing

    A shallow embedding of the parts of BLINK DB that its specification
    makes claims about:

    - [HashTable]       (HashTable.h): chained hash table with resizing;
    - [MemoryManager]   (MemoryManager.h): the LRU queue;
    - [StorageEngine]   (StorageEngine.cpp): set / get / del, the memory
      budget loop and the TTL reaper pass;
    - [RespProtocol]    (resp.cpp): encoder and incremental parser;
    - [Server] handlers (server.cpp): SET / GET / DEL and the dispatcher;
    - [Connection::process_commands] (connection.cpp): command framing.

    A [std::string] is a list of bytes ([ascii]); positions and sizes of
    strings are [nat]; the C++ [int], [int64_t] and [size_t] values that the
    code computes with are [Z], with range checks and wrap-around written
    where the source has them. *)

From Stdlib Require Import Ascii String ZArith Lia.
From stdpp Require Import base numbers list.

Local Open Scope Z_scope.
Local Open Scope list_scope.

(** ** Strings *)

(** [std::string]: a sequence of bytes. *)
Abbreviation std_string := (list ascii).

(** A string literal of the source. *)
Definition str (s : string) : std_string := list_ascii_of_string s.

Definition CR : ascii := ascii_of_nat 13.
Definition LF : ascii := ascii_of_nat 10.

(** [const std::string CRLF = "\r\n"] (resp.cpp:16). *)
Definition CRLF : std_string := [CR; LF].

Definition ascii_eqb (a b : ascii) : bool := Ascii.eqb a b.

#[global] Instance ascii_eq_decision : EqDecision ascii := ascii_dec.

(** [s.size()] as a [size_t] value. *)
Definition string_size (s : std_string) : Z := Z.of_nat (length s).

(** [s.empty()]. *)
Definition string_empty (s : std_string) : bool :=
  match s with [] => true | _ :: _ => false end.

(** [s[pos] == c], for [pos < s.size()]. *)
Definition char_at_is (s : std_string) (pos : nat) (c : ascii) : bool :=
  match s !! pos with Some c' => ascii_eqb c' c | None => false end.

(** [::toupper] in the C locale, and [std::transform] with it over a string. *)
Definition toupper (c : ascii) : ascii :=
  if (97 <=? nat_of_ascii c)%nat && (nat_of_ascii c <=? 122)%nat
  then ascii_of_nat (nat_of_ascii c - 32) else c.

Definition to_upper (s : std_string) : std_string := map toupper s.

(** Unsigned 64-bit wrap-around of [size_t] arithmetic. *)
Definition wrap64 (x : Z) : Z := x mod 2 ^ 64.

(** Two's-complement wrap-around of [int64_t] arithmetic: the value in
    [-2^63, 2^63) that differs from [x] by a multiple of 2^64. *)
Definition wrap_int64 (x : Z) : Z := (x + 2 ^ 63) mod 2 ^ 64 - 2 ^ 63.

(** [s.substr(pos, n)], for [pos <= s.size()]. *)
Definition substr (s : std_string) (pos n : nat) : std_string :=
  take n (drop pos s).

(** ** Library functions: [std::to_string], [std::stoi], [std::stoll] *)

Definition digit_char (d : Z) : ascii := ascii_of_nat (48 + Z.to_nat d).

Definition is_digit (c : ascii) : bool :=
  (48 <=? nat_of_ascii c)%nat && (nat_of_ascii c <=? 57)%nat.

Definition digit_val (c : ascii) : Z := Z.of_nat (nat_of_ascii c) - 48.

(** [isspace] in the C locale: space, \t, \n, \v, \f, \r. *)
Definition is_space (c : ascii) : bool :=
  (nat_of_ascii c =? 32)%nat ||
  ((9 <=? nat_of_ascii c)%nat && (nat_of_ascii c <=? 13)%nat).

(** Decimal digits of a non-negative number, most significant first. *)
Fixpoint to_digits (fuel : nat) (n : Z) : std_string :=
  match fuel with
  | O => []
  | S f =>
      if n <? 10 then [digit_char n]
      else to_digits f (n / 10) ++ [digit_char (n mod 10)]
  end.

Definition to_string_nonneg (n : Z) : std_string :=
  to_digits (S (Z.to_nat (Z.log2 n))) n.

(** [std::to_string] on an integer argument. *)
Definition to_string (n : Z) : std_string :=
  if n <? 0 then "-"%char :: to_string_nonneg (- n) else to_string_nonneg n.

(** Value of the longest prefix of digits, starting from [acc]. *)
Fixpoint digits_value (acc : Z) (s : std_string) : Z :=
  match s with
  | c :: r => if is_digit c then digits_value (acc * 10 + digit_val c) r else acc
  | [] => acc
  end.

Fixpoint skip_spaces (s : std_string) : std_string :=
  match s with
  | c :: r => if is_space c then skip_spaces r else s
  | [] => []
  end.

(** [strtol]-style conversion as [std::stoi] / [std::stoll] perform it in base
    ten: leading white space is skipped, one optional sign is read, then the
    longest run of digits; what follows the digits is ignored.  [None] stands
    for the exception ([std::invalid_argument] when there is no digit,
    [std::out_of_range] when the value does not fit the result type). *)
Definition sto (lo hi : Z) (s : std_string) : option Z :=
  let s1 := skip_spaces s in
  let '(neg, s2) :=
    match s1 with
    | c :: r =>
        if ascii_eqb c "-"%char then (true, r)
        else if ascii_eqb c "+"%char then (false, r)
        else (false, s1)
    | [] => (false, s1)
    end in
  match s2 with
  | c :: _ =>
      if is_digit c then
        let v := digits_value 0 s2 in
        let r := if neg then - v else v in
        if (lo <=? r) && (r <=? hi) then Some r else None
      else None
  | [] => None
  end.

Definition INT_MIN : Z := - 2 ^ 31.
Definition INT_MAX : Z := 2 ^ 31 - 1.
Definition INT64_MIN : Z := - 2 ^ 63.
Definition INT64_MAX : Z := 2 ^ 63 - 1.

Definition stoi : std_string -> option Z := sto INT_MIN INT_MAX.
Definition stoll : std_string -> option Z := sto INT64_MIN INT64_MAX.

(** First position of a CRLF pair in [data]. *)
Fixpoint find_crlf (data : std_string) : option nat :=
  match data with
  | c1 :: tl =>
      match tl with
      | c2 :: _ =>
          if ascii_eqb c1 CR && ascii_eqb c2 LF then Some O
          else S <$> find_crlf tl
      | [] => None
      end
  | [] => None
  end.

(** [data.find("\r\n", pos)]: the first position at or after [pos] where
    CRLF occurs; [None] is [std::string::npos]. *)
Definition string_find_crlf (data : std_string) (pos : nat) : option nat :=
  (λ i, (pos + i)%nat) <$> find_crlf (drop pos data).

(** ** RespProtocol (resp.h, resp.cpp) *)

Set Warnings "-register-all".

Module RespProtocol.

(** [RespProtocol::RespValue].  The class has a private constructor; its
    values are made by the seven factory functions ([createSimpleString],
    [createError], [createInteger], [createBulkString],
    [createNullBulkString], [createArray], [createNullArray]), one
    constructor each. *)
Inductive RespValue : Type :=
| SimpleString (value : std_string)
| Error (value : std_string)
| Integer (value : Z)
| BulkString (value : std_string)
| NullBulkString
| Array (values : list RespValue)
| NullArray.

Definition encodeSimpleString (value : std_string) : std_string :=
  str "+" ++ value ++ CRLF.

Definition encodeError (value : std_string) : std_string :=
  str "-" ++ value ++ CRLF.

Definition encodeInteger (value : Z) : std_string :=
  str ":" ++ to_string value ++ CRLF.

Definition encodeBulkString (value : std_string) : std_string :=
  str "$" ++ to_string (string_size value) ++ CRLF ++ value ++ CRLF.

Definition encodeNullBulkString : std_string := str "$-1" ++ CRLF.

Definition encodeNullArray : std_string := str "*-1" ++ CRLF.

(** [encodeArray], with the encoder of the elements as an argument: in the
    source [encode] and [encodeArray] call each other. *)
Definition encodeArray_with (enc : RespValue -> std_string)
    (values : list RespValue) : std_string :=
  str "*" ++ to_string (Z.of_nat (length values)) ++ CRLF ++ flat_map enc values.

Fixpoint encode (value : RespValue) : std_string :=
  match value with
  | SimpleString s => encodeSimpleString s
  | Error s => encodeError s
  | Integer n => encodeInteger n
  | BulkString s => encodeBulkString s
  | NullBulkString => encodeNullBulkString
  | Array vs => encodeArray_with encode vs
  | NullArray => encodeNullArray
  end.

Definition encodeArray : list RespValue -> std_string := encodeArray_with encode.

(** [encodeCommand]: the command and its arguments as an array of bulk
    strings. *)
Definition encodeCommand (command : std_string) (args : list std_string) : std_string :=
  encodeArray (BulkString command :: map BulkString args).

(** What a parser call does: [std::nullopt] (more bytes are needed), a
    thrown [std::runtime_error], or a value with the number of bytes it
    took. *)
Inductive parse_result : Type :=
| NeedMore
| ParseError
| Parsed (value : RespValue) (bytes_consumed : nat).

Definition findCRLF (data : std_string) (start : nat) : option nat :=
  if (length data <=? start)%nat then None
  else (λ i, (start + i)%nat) <$> find_crlf (drop start data).

Definition parseSimpleString (data : std_string) : parse_result :=
  match findCRLF data 1 with
  | None => NeedMore
  | Some crlf_pos => Parsed (SimpleString (substr data 1 (crlf_pos - 1))) (crlf_pos + 2)
  end.

Definition parseError (data : std_string) : parse_result :=
  match findCRLF data 1 with
  | None => NeedMore
  | Some crlf_pos => Parsed (Error (substr data 1 (crlf_pos - 1))) (crlf_pos + 2)
  end.

Definition parseInteger (data : std_string) : parse_result :=
  match findCRLF data 1 with
  | None => NeedMore
  | Some crlf_pos =>
      match stoll (substr data 1 (crlf_pos - 1)) with
      | Some value => Parsed (Integer value) (crlf_pos + 2)
      | None => ParseError
      end
  end.

Definition parseBulkString (data : std_string) : parse_result :=
  match findCRLF data 1 with
  | None => NeedMore
  | Some crlf_pos =>
      match stoi (substr data 1 (crlf_pos - 1)) with
      | None => ParseError
      | Some len =>
          if len =? -1 then Parsed NullBulkString (crlf_pos + 2)
          else if len <? 0 then ParseError
          else if string_size data <? Z.of_nat crlf_pos + 2 + len + 2 then NeedMore
          else Parsed (BulkString (substr data (crlf_pos + 2) (Z.to_nat len)))
                      (crlf_pos + 2 + Z.to_nat len + 2)
      end
  end.

(** The element loop of [parseArray]: [n] elements are still to be read,
    [current_pos] is where the next one starts. *)
Fixpoint parse_elements (parse_rec : std_string -> parse_result)
    (data : std_string) (n : nat) (current_pos : nat)
    (elements : list RespValue) : parse_result :=
  match n with
  | O => Parsed (Array elements) current_pos
  | S n' =>
      if (length data <=? current_pos)%nat then NeedMore
      else
        match parse_rec (drop current_pos data) with
        | NeedMore => NeedMore
        | ParseError => ParseError
        | Parsed element element_bytes =>
            parse_elements parse_rec data n' (current_pos + element_bytes)
              (elements ++ [element])
        end
  end.

Definition parseArray (parse_rec : std_string -> parse_result)
    (data : std_string) : parse_result :=
  match findCRLF data 1 with
  | None => NeedMore
  | Some crlf_pos =>
      match stoi (substr data 1 (crlf_pos - 1)) with
      | None => ParseError
      | Some len =>
          if len =? -1 then Parsed NullArray (crlf_pos + 2)
          else if len <? 0 then ParseError
          else parse_elements parse_rec data (Z.to_nat len) (crlf_pos + 2) []
      end
  end.

(** [RespProtocol::parse].  The recursion of the source goes through
    [parseArray], on a proper suffix of [data]; [n] bounds the length of
    [data], so that at [n = 0] the data is empty and the source returns
    [std::nullopt].  [parse_n_length] below shows that the bound does not
    matter once it is at least the length of the data. *)
Fixpoint parse_n (n : nat) (data : std_string) : parse_result :=
  match n with
  | O => NeedMore
  | S n' =>
      match data with
      | [] => NeedMore
      | c :: _ =>
          if ascii_eqb c "+" then parseSimpleString data
          else if ascii_eqb c "-" then parseError data
          else if ascii_eqb c ":" then parseInteger data
          else if ascii_eqb c "$" then parseBulkString data
          else if ascii_eqb c "*" then parseArray (parse_n n') data
          else ParseError
      end
  end.

Definition parse (data : std_string) : parse_result :=
  parse_n (length data) data.

(** The values that the wire format can carry: the text of a simple string
    or of an error holds no CRLF (resp.h: simple strings cannot contain CR
    or LF), an integer is an [int64_t], and the length of a bulk string and
    the number of elements of an array fit the [int] in which the parser
    reads them. *)
Fixpoint well_formed (v : RespValue) : bool :=
  match v with
  | SimpleString s | Error s => bool_decide (find_crlf s = None)
  | Integer n => (INT64_MIN <=? n) && (n <=? INT64_MAX)
  | BulkString s => string_size s <=? INT_MAX
  | NullBulkString | NullArray => true
  | Array vs => (Z.of_nat (length vs) <=? INT_MAX) && forallb well_formed vs
  end.

End RespProtocol.

(** ** HashTable (HashTable.h) *)

Module HashTable.
Section HashTable.

Context {K V : Type} `{EqDecision K}.

(** [std::hash<K>{}(key)]: the standard library's hash, which the
    language leaves to the implementation. *)
Variable std_hash : K -> nat.

(** A bucket holds a chain of nodes, the head of the chain first. *)
Abbreviation chain := (list (K * V)).

(** [capacity] and [size] are [size_t] in the source; the bucket array is
    allocated with [capacity] elements and every node is allocated, so both
    stay far below 2^64 and are natural numbers here. *)
Record t : Type := mk {
  table : list chain;
  capacity : nat;
  size : nat
}.

(** The constructor, for [initial_capacity >= 1] (it throws otherwise). *)
Definition create (initial_capacity : nat) : t :=
  {| table := replicate initial_capacity []; capacity := initial_capacity;
     size := O |}.

Definition hash (h : t) (key : K) : nat := (std_hash key mod capacity h)%nat.

Definition bucket (h : t) (index : nat) : chain := default [] (table h !! index).

(** One step of the rehash loop: the node goes to the head of its new
    chain. *)
Definition rehash_node (new_capacity : nat) (new_table : list chain)
    (node : K * V) : list chain :=
  alter (cons node) (std_hash node.1 mod new_capacity)%nat new_table.

Definition resize (new_capacity : nat) (h : t) : t :=
  {| table := foldl (λ new_table current, foldl (rehash_node new_capacity) new_table current)
                    (replicate new_capacity []) (table h);
     capacity := new_capacity;
     size := size h |}.

(** The scan of a chain in [insert]: the chain with the value of [key]
    overwritten, or [None] when the key is not in the chain. *)
Fixpoint chain_update (key : K) (value : V) (c : chain) : option chain :=
  match c with
  | [] => None
  | (k, v) :: next =>
      if decide (k = key) then Some ((k, value) :: next)
      else cons (k, v) <$> chain_update key value next
  end.

(** The scan of a chain in [get]. *)
Fixpoint chain_get (key : K) (c : chain) : option V :=
  match c with
  | [] => None
  | (k, v) :: next => if decide (k = key) then Some v else chain_get key next
  end.

(** The scan of a chain in [remove]: the chain with the first node of [key]
    unlinked, or [None] when the key is not in the chain. *)
Fixpoint chain_remove (key : K) (c : chain) : option chain :=
  match c with
  | [] => None
  | (k, v) :: next =>
      if decide (k = key) then Some next
      else cons (k, v) <$> chain_remove key next
  end.

(** [size >= LOAD_FACTOR * capacity], with [LOAD_FACTOR = 0.7].  The source
    compares in [double].  The double [0.7] is 7/10 less 4.4e-17 and the
    product is rounded once, so for a capacity below 2^50 the product is
    within 1e-3 of [7 * capacity / 10], and not above it when that is an
    integer.  [7 * capacity / 10] is an integer or at least 1/10 away from
    one, so the integer [size] compares with the product as it does with the
    exact value, and the test is written on integers. *)
Definition load_exceeded (h : t) : bool := (7 * capacity h <=? 10 * size h)%nat.

(** [size < 0.2 * capacity], likewise: the double [0.2] is 2/10 plus
    1.1e-17, and the product rounds to [capacity / 5] when that is an
    integer. *)
Definition load_low (h : t) : bool := (5 * size h <? capacity h)%nat.

Definition insert (key : K) (value : V) (h : t) : t :=
  let h := if load_exceeded h then resize (2 * capacity h) h else h in
  let index := hash h key in
  match chain_update key value (bucket h index) with
  | Some c => {| table := <[index := c]> (table h); capacity := capacity h;
                 size := size h |}
  | None => {| table := <[index := (key, value) :: bucket h index]> (table h);
               capacity := capacity h; size := S (size h) |}
  end.

Definition get (key : K) (h : t) : option V :=
  chain_get key (bucket h (hash h key)).

Definition remove (key : K) (h : t) : bool * t :=
  let index := hash h key in
  match chain_remove key (bucket h index) with
  | Some c =>
      let h := {| table := <[index := c]> (table h); capacity := capacity h;
                  size := (size h - 1)%nat |} in
      (true, if (8 <? capacity h)%nat && load_low h
             then resize (capacity h / 2) h else h)
  | None => (false, h)
  end.

Definition clear (h : t) : t :=
  {| table := replicate (capacity h) []; capacity := capacity h; size := O |}.

(** All nodes, bucket by bucket and each chain from its head: the order
    in which [evict_expired] walks the table. *)
Definition nodes (h : t) : list (K * V) := concat (table h).

(** The shape of a table that the operations keep: [capacity] buckets,
    every node in the bucket of its hash, no key twice in a chain. *)
Record wf (h : t) : Prop := mk_wf {
  wf_length : length (table h) = capacity h;
  wf_capacity : (0 < capacity h)%nat;
  wf_place : forall i c node, table h !! i = Some c -> node ∈ c ->
             (std_hash node.1 mod capacity h)%nat = i;
  wf_nodup : forall i c, table h !! i = Some c -> NoDup (c.*1)
}.

(** The same for a bucket array of [nc] buckets alone. *)
Definition placed (nc : nat) (nt : list chain) : Prop :=
  forall i c node, nt !! i = Some c -> node ∈ c -> (std_hash node.1 mod nc)%nat = i.

Definition chains_nodup (nt : list chain) : Prop :=
  forall i c, nt !! i = Some c -> NoDup (c.*1).

(** [size] counts the nodes. *)
Definition counted (h : t) : Prop := size h = length (nodes h).

(** The tables that [insert] and [remove] make of a table constructed with
    the default capacity. *)
Inductive reachable : t -> Prop :=
| reachable_create : reachable (create 8)
| reachable_insert h key value :
    reachable h -> reachable (insert key value h)
| reachable_remove h key :
    reachable h -> reachable (remove key h).2.

(** The capacity is 8 doubled some number of times; the size is below
    [0.7 * capacity + 1]; the size is at least [0.2 * capacity] unless the
    capacity is 8. *)
Definition load_bounds (h : t) : Prop :=
  (exists j : nat, capacity h = 8 * 2 ^ j)%nat /\
  (10 * size h < 7 * capacity h + 10)%nat /\
  (capacity h = 8 \/ capacity h <= 5 * size h)%nat.

End HashTable.
Global Arguments t : clear implicits.
End HashTable.

(** ** MemoryManager (MemoryManager.h) *)

Module MemoryManager.

(** [lru_queue]: the front of the list is the most recently used key. *)
Record t : Type := mk { lru_queue : list std_string }.

(** [std::list::remove]: every element equal to [key] goes. *)
Definition list_remove (key : std_string) (q : list std_string) : list std_string :=
  filter (λ k, k ≠ key) q.

Definition update_lru (key : std_string) (m : t) : t :=
  {| lru_queue := key :: list_remove key (lru_queue m) |}.

(** [evict_lru()]: the key at the back, popped; the empty string when the
    queue is empty. *)
Definition evict_lru (m : t) : std_string * t :=
  match lru_queue m with
  | _ :: _ => (List.last (lru_queue m) [], {| lru_queue := removelast (lru_queue m) |})
  | [] => ([], m)
  end.

(** [evict_lru(key)]. *)
Definition evict_lru_key (key : std_string) (m : t) : t :=
  {| lru_queue := list_remove key (lru_queue m) |}.

End MemoryManager.

(** ** StorageEngine (StorageEngine.h, StorageEngine.cpp) *)

Module StorageEngine.

(** [std::chrono::seconds::max()], the TTL of an entry that never
    expires. *)
Definition seconds_max : Z := INT64_MAX.

(** Ticks of [std::chrono::system_clock] in a second.  A time point is
    its number of ticks since the epoch. *)
Definition ticks_per_second : Z := 1000000000.

Record Entry : Type := mkEntry {
  value : std_string;
  ttl : Z;
  last_accessed : Z
}.

(** [(now - last_accessed) > ttl], a duration in ticks against one in
    seconds, both with an [int64_t] count.  The difference of the time
    points is formed in [int64_t], and the comparison converts the seconds
    to ticks by a multiplication in [int64_t].  The product is the plain
    one for a TTL of at most 9223372036 seconds in absolute value (every
    TTL that the command handlers read is within that); beyond it the
    product leaves the range and the compiled code goes on with the wrapped
    value, as the model does. *)
Definition older_than (now : Z) (e : Entry) : bool :=
  wrap_int64 (ttl e * ticks_per_second) <? wrap_int64 (now - last_accessed e).

(** The test of [get] and [evict_expired]. *)
Definition expired (now : Z) (e : Entry) : bool :=
  negb (ttl e =? seconds_max) && older_than now e.

Section StorageEngine.

(** [std::hash<std::string>]. *)
Variable std_hash : std_string -> nat.

Record t : Type := mk {
  store : HashTable.t std_string Entry;
  mem_manager : MemoryManager.t;
  current_memory : Z;
  max_memory : Z
}.

(** The constructor; the table has its default capacity, 8. *)
Definition create (max_memory : Z) : t :=
  {| store := HashTable.create 8; mem_manager := MemoryManager.mk [];
     current_memory := 0; max_memory := max_memory |}.

Definition entry_bytes (key : std_string) (e : Entry) : Z :=
  string_size key + string_size (value e).

(** The loop of [enforce_memory_limits]; every turn that goes on pops a
    key of the queue, so [fuel] above the length of the queue is never
    used up ([enforce_loop_fuel] below). *)
Fixpoint enforce_loop (fuel : nat) (s : t) : t :=
  match fuel with
  | O => s
  | S fuel' =>
      if max_memory s <? current_memory s then
        let '(key, mm) := MemoryManager.evict_lru (mem_manager s) in
        if string_empty key then
          {| store := store s; mem_manager := mm;
             current_memory := current_memory s; max_memory := max_memory s |}
        else
          match HashTable.get std_hash key (store s) with
          | Some entry =>
              enforce_loop fuel'
                {| store := (HashTable.remove std_hash key (store s)).2;
                   mem_manager := mm;
                   current_memory := wrap64 (current_memory s - entry_bytes key entry);
                   max_memory := max_memory s |}
          | None =>
              enforce_loop fuel'
                {| store := store s; mem_manager := mm;
                   current_memory := current_memory s; max_memory := max_memory s |}
          end
      else s
  end.

Definition enforce_memory_limits (s : t) : t :=
  enforce_loop (S (length (MemoryManager.lru_queue (mem_manager s)))) s.

(** [set]; [now] is the reading of the clock. *)
Definition set (key value : std_string) (ttl : Z) (now : Z) (s : t) : t :=
  let new_entry := {| value := value; ttl := ttl; last_accessed := now |} in
  let current_memory :=
    match HashTable.get std_hash key (store s) with
    | Some old_entry => wrap64 (current_memory s - entry_bytes key old_entry)
    | None => current_memory s
    end in
  enforce_memory_limits
    {| store := HashTable.insert std_hash key new_entry (store s);
       mem_manager := MemoryManager.update_lru key (mem_manager s);
       current_memory := wrap64 (current_memory + (string_size key + string_size value));
       max_memory := max_memory s |}.

(** [get]; the source reads the clock twice, [now1] for the new
    [last_accessed] and [now2] in the expiry test. *)
Definition get (key : std_string) (now1 now2 : Z) (s : t) : std_string * t :=
  match HashTable.get std_hash key (store s) with
  | None => ([], s)
  | Some entry =>
      let entry := {| value := value entry; ttl := ttl entry; last_accessed := now1 |} in
      let st := HashTable.insert std_hash key entry (store s) in
      if expired now2 entry then
        ([], {| store := (HashTable.remove std_hash key st).2;
                mem_manager := mem_manager s;
                current_memory := current_memory s; max_memory := max_memory s |})
      else
        (value entry,
         {| store := st; mem_manager := MemoryManager.update_lru key (mem_manager s);
            current_memory := current_memory s; max_memory := max_memory s |})
  end.

Definition del (key : std_string) (s : t) : bool * t :=
  match HashTable.get std_hash key (store s) with
  | None => (false, s)
  | Some entry =>
      (true,
       {| store := (HashTable.remove std_hash key (store s)).2;
          mem_manager := MemoryManager.evict_lru_key key (mem_manager s);
          current_memory := wrap64 (current_memory s - entry_bytes key entry);
          max_memory := max_memory s |})
  end.

(** The keys that the scan of [evict_expired] collects. *)
Definition keys_to_remove (now : Z) (s : t) : list std_string :=
  map fst (List.filter (λ node : std_string * Entry, expired now node.2)
                       (HashTable.nodes (store s))).

Definition evict_expired (now : Z) (s : t) : t :=
  foldl (λ s key,
           {| store := (HashTable.remove std_hash key (store s)).2;
              mem_manager := MemoryManager.evict_lru_key key (mem_manager s);
              current_memory := current_memory s; max_memory := max_memory s |})
        s (keys_to_remove now s).

(** The bytes of the live entries: the sum of [len(key) + len(value)] over
    the nodes of the table. *)
Definition live_bytes (s : t) : Z :=
  foldr (λ (node : std_string * Entry) acc, entry_bytes node.1 node.2 + acc) 0
        (HashTable.nodes (store s)).

(** The engines that the public operations and the reaper pass make of a new
    engine, at any readings of the clock, each call run to its end before the
    next one starts.  [set], [get] and [del] hold the mutex of the engine;
    the reaper pass of the daemon thread does not take it, and a pass that
    overlaps a call is outside this model. *)
Inductive reachable : t -> Prop :=
| reach_create max :
    0 <= max < 2 ^ 64 -> reachable (create max)
| reach_set s key value ttl now :
    reachable s -> reachable (set key value ttl now s)
| reach_get s key now1 now2 :
    reachable s -> reachable (get key now1 now2 s).2
| reach_del s key :
    reachable s -> reachable (del key s).2
| reach_evict_expired s now :
    reachable s -> reachable (evict_expired now s).

(** What the operations keep of an engine: the table is one that [insert]
    and [remove] make of a new table, no key is twice in the LRU queue, every
    key of the table other than the empty string is in the queue, and the
    counter is a [size_t]. *)
Definition consistent (s : t) : Prop :=
  HashTable.reachable std_hash (store s) /\
  NoDup (MemoryManager.lru_queue (mem_manager s)) /\
  (forall k, k <> [] -> is_Some (HashTable.get std_hash k (store s)) ->
             k ∈ MemoryManager.lru_queue (mem_manager s)) /\
  0 <= current_memory s < 2 ^ 64.

(** The bytes of the entries that the test of [evict_expired] finds expired
    at [now]. *)
Definition expired_bytes (now : Z) (s : t) : Z :=
  foldr (λ (node : std_string * Entry) acc, entry_bytes node.1 node.2 + acc) 0
        (List.filter (λ node : std_string * Entry, expired now node.2)
                     (HashTable.nodes (store s))).

End StorageEngine.
End StorageEngine.

(** ** Server: the command handlers and the dispatcher (server.cpp) *)

Module Server.
Section Server.

Variable std_hash : std_string -> nat.

Abbreviation engine := StorageEngine.t.

Definition ERR_SET_ARITY : std_string :=
  str "-ERR wrong number of arguments for 'set' command" ++ CRLF.
Definition ERR_SET_EXPIRE : std_string :=
  str "-ERR invalid expire time in 'set' command" ++ CRLF.
Definition ERR_GET_ARITY : std_string :=
  str "-ERR wrong number of arguments for 'get' command" ++ CRLF.
Definition ERR_DEL_ARITY : std_string :=
  str "-ERR wrong number of arguments for 'del' command" ++ CRLF.
Definition OK : std_string := str "+OK" ++ CRLF.
Definition NULL_BULK : std_string := str "$-1" ++ CRLF.

(** The handler registered for SET in [Server::init]; [now] is the clock
    reading of [StorageEngine::set]. *)
Definition set_handler (args : list std_string) (now : Z) (se : engine)
    : std_string * engine :=
  if (length args <? 2)%nat then (ERR_SET_ARITY, se)
  else
    let ttl :=
      if (4 <=? length args)%nat && bool_decide (args !! 2%nat = Some (str "EX"))
      then stoi (default [] (args !! 3%nat))
      else Some StorageEngine.seconds_max in
    match ttl with
    | None => (ERR_SET_EXPIRE, se)
    | Some ttl =>
        (OK, StorageEngine.set std_hash (default [] (args !! 0%nat))
               (default [] (args !! 1%nat)) ttl now se)
    end.

(** The handler registered for GET. *)
Definition get_handler (args : list std_string) (now1 now2 : Z) (se : engine)
    : std_string * engine :=
  if negb (length args =? 1)%nat then (ERR_GET_ARITY, se)
  else
    let '(value, se) :=
      StorageEngine.get std_hash (default [] (args !! 0%nat)) now1 now2 se in
    if string_empty value then (NULL_BULK, se)
    else (str "$" ++ to_string (string_size value) ++ CRLF ++ value ++ CRLF, se).

(** The handler registered for DEL. *)
Definition del_handler (args : list std_string) (se : engine)
    : std_string * engine :=
  if negb (length args =? 1)%nat then (ERR_DEL_ARITY, se)
  else
    let '(success, se) :=
      StorageEngine.del std_hash (default [] (args !! 0%nat)) se in
    (str ":" ++ to_string (if success then 1 else 0) ++ CRLF, se).

(** [execute_command] over the three handlers that [init] registers.  The
    handlers throw nothing, so the [catch] branch has no counterpart.
    [now1] and [now2] are the clock readings that the handler may take. *)
Definition execute_command (command : std_string) (args : list std_string)
    (now1 now2 : Z) (se : engine) : std_string * engine :=
  if bool_decide (command = str "SET") then set_handler args now1 se
  else if bool_decide (command = str "GET") then get_handler args now1 now2 se
  else if bool_decide (command = str "DEL") then del_handler args se
  else (str "-ERR unknown command '" ++ command ++ str "'" ++ CRLF, se).

End Server.
End Server.

(** ** Connection: command framing (connection.cpp) *)

Module Connection.

Inductive State : Type := CONNECTED | CLOSING | CLOSED.

Record t : Type := mk {
  state_ : State;
  input_buffer_ : std_string;
  output_queue_ : list std_string
}.

Definition add_response (response : std_string) (c : t) : t :=
  match state_ c with
  | CONNECTED =>
      {| state_ := state_ c; input_buffer_ := input_buffer_ c;
         output_queue_ := output_queue_ c ++ [response] |}
  | _ => c
  end.

(** What reading the elements of one array gives: not all bytes are there
    yet ([complete = false]), a length field that [std::stoi] rejects, or
    the arguments with the position after the last one. *)
Inductive frame_result : Type :=
| Incomplete
| BadLength
| Frame (args : list std_string) (current_pos : nat).

(** The [for] loop over the [array_size] elements. *)
Fixpoint read_elements (buf : std_string) (n : nat) (current_pos : nat)
    (args : list std_string) : frame_result :=
  match n with
  | O => Frame args current_pos
  | S n' =>
      if (length buf <=? current_pos)%nat || negb (char_at_is buf current_pos "$")
      then Incomplete
      else
        match string_find_crlf buf current_pos with
        | None => Incomplete
        | Some len_end =>
            match stoi (substr buf (current_pos + 1) (len_end - current_pos - 1)) with
            | None => BadLength
            | Some bulk_len =>
                if bulk_len <? 0 then
                  read_elements buf n' (len_end + 2) (args ++ [[]])
                else
                  let data_start := (len_end + 2)%nat in
                  let data_end := (data_start + Z.to_nat bulk_len)%nat in
                  if (length buf <? data_end + 2)%nat then Incomplete
                  else
                    read_elements buf n' (data_end + 2)
                      (args ++ [substr buf data_start (Z.to_nat bulk_len)])
            end
        end
  end.

Section ProcessCommands.

(** The server behind the connection: its state, and
    [server_->execute_command]. *)
Context {ServerState : Type}.
Variable execute_command :
  std_string -> list std_string -> ServerState -> std_string * ServerState.

(** The [while] loop of [process_commands], from position [pos].  A turn
    either moves [pos] one byte on or erases a non-empty prefix of the
    buffer, so the loop ends; [None] is a run that [fuel] turns do not
    finish. *)
Fixpoint process_loop (fuel : nat) (pos : nat) (c : t) (srv : ServerState)
    : option (bool * t * ServerState) :=
  match fuel with
  | O => None
  | S fuel' =>
      let buf := input_buffer_ c in
      if (pos <? length buf)%nat then
        if char_at_is buf pos "*" then
          match string_find_crlf buf pos with
          | None => Some (true, c, srv)
          | Some end_pos =>
              match stoi (substr buf (pos + 1) (end_pos - pos - 1)) with
              | None => Some (false, c, srv)
              | Some array_size =>
                  if array_size <=? 0 then Some (false, c, srv)
                  else
                    match read_elements buf (Z.to_nat array_size) (end_pos + 2) [] with
                    | BadLength => Some (false, c, srv)
                    | Incomplete => Some (true, c, srv)
                    | Frame args current_pos =>
                        let '(c, srv) :=
                          match args with
                          | [] => (c, srv)
                          | command :: command_args =>
                              let '(response, srv) :=
                                execute_command (to_upper command) command_args srv in
                              (add_response response c, srv)
                          end in
                        process_loop fuel' O
                          {| state_ := state_ c;
                             input_buffer_ := drop current_pos (input_buffer_ c);
                             output_queue_ := output_queue_ c |}
                          srv
                    end
              end
          end
        else process_loop fuel' (S pos) c srv
      else Some (true, c, srv)
  end.

(** [process_commands]: the loop from position 0, with fuel for every turn
    it can take ([process_commands_returns] below). *)
Definition process_commands (c : t) (srv : ServerState)
    : option (bool * t * ServerState) :=
  process_loop (2 * length (input_buffer_ c) + 1) O c srv.

(** The commands of a list given to the server one after the other, each
    with its name in upper case as [process_commands] passes it: the
    responses in the order of the commands, and the server afterwards. *)
Fixpoint run_commands (cmds : list (std_string * list std_string))
    (srv : ServerState) : list std_string * ServerState :=
  match cmds with
  | [] => ([], srv)
  | (command, args) :: rest =>
      let '(response, srv) := execute_command (to_upper command) args srv in
      let '(responses, srv) := run_commands rest srv in
      (response :: responses, srv)
  end.

End ProcessCommands.

(** A command whose lengths fit the [int] in which the framing reads
    them: the length of the name and of every argument, and the number of
    elements of the array. *)
Definition sized (cmd : std_string * list std_string) : Prop :=
  string_size cmd.1 <= INT_MAX /\
  Forall (λ s, string_size s <= INT_MAX) cmd.2 /\
  Z.of_nat (length cmd.2) + 1 <= INT_MAX.

Definition no_star (junk : std_string) : Prop :=
  Forall (λ ch, ascii_eqb ch "*" = false) junk.

(** The bytes of one element of an array as the element loop takes them,
    with the argument that it makes of them: a ['$'], a length field that
    ends at the next CRLF and that [std::stoi] reads, and then, for a length
    that is not negative, as many bytes of data as the length says and two
    more bytes, which the loop steps over without looking at them; for a
    negative length nothing more, and the argument is the empty string. *)
Inductive element : std_string -> std_string -> Prop :=
| element_data field data b1 b2 :
    find_crlf field = None -> stoi field = Some (string_size data) ->
    element ("$"%char :: field ++ CRLF ++ data ++ [b1; b2]) data
| element_null field len :
    find_crlf field = None -> stoi field = Some len -> len < 0 ->
    element ("$"%char :: field ++ CRLF) [].

(** Elements one after the other, with their arguments in order. *)
Inductive elements : std_string -> list std_string -> Prop :=
| elements_nil : elements [] []
| elements_cons bytes arg rest args :
    element bytes arg -> elements rest args ->
    elements (bytes ++ rest) (arg :: args).

(** The bytes of a complete command as [process_commands] takes them, with
    the name and the arguments that it gives to the server: a ['*'], a
    count field that ends at the next CRLF and that [std::stoi] reads as the
    number of elements, and that many elements, the first of them the name
    of the command. *)
Inductive command_frame : std_string -> std_string * list std_string -> Prop :=
| command_frame_intro count body command args :
    find_crlf count = None ->
    stoi count = Some (Z.of_nat (length (command :: args))) ->
    elements body (command :: args) ->
    command_frame ("*"%char :: count ++ CRLF ++ body) (command, args).

(** Complete commands one after the other, each after any bytes that are
    not ['*'], with the commands in order. *)
Inductive framed : std_string -> list (std_string * list std_string) -> Prop :=
| framed_nil : framed [] []
| framed_cons junk bytes cmd rest cmds :
    no_star junk -> command_frame bytes cmd -> framed rest cmds ->
    framed (junk ++ bytes ++ rest) (cmd :: cmds).

(** What [process_commands] meets in a buffer, or behind the complete
    commands of a buffer, that it does not frame, with what it returns: only
    bytes that are not ['*']; after such bytes, a ['*'] whose count field,
    ended by CRLF, is rejected by [std::stoi] or is not positive; after such
    bytes, a ['*'] with a positive count, fewer elements than the count, and
    then a ['$'] whose length field, ended by CRLF, is rejected by
    [std::stoi]. *)
Inductive unframed : std_string -> bool -> Prop :=
| unframed_no_star buf :
    no_star buf -> unframed buf true
| unframed_bad_count junk field rest :
    no_star junk -> find_crlf field = None ->
    match stoi field with None => True | Some n => n <= 0 end ->
    unframed (junk ++ "*"%char :: field ++ CRLF ++ rest) false
| unframed_bad_length junk count n body args field rest :
    no_star junk -> find_crlf count = None -> stoi count = Some n ->
    Z.of_nat (length args) < n ->
    elements body args ->
    find_crlf field = None -> stoi field = None ->
    unframed (junk ++ "*"%char :: count ++ CRLF ++ body ++
              "$"%char :: field ++ CRLF ++ rest)
             false.

(** The output queue after [add_response] of each of [responses] in
    order: a connection that is not connected queues nothing. *)
Definition queue_after (c : t) (responses : list std_string) : list std_string :=
  match state_ c with
  | CONNECTED => output_queue_ c ++ responses
  | _ => output_queue_ c
  end.

(** [MAX_READ_SIZE] and [MAX_INPUT_BUFFER_SIZE] (connection.cpp:21, 24). *)
Definition MAX_READ_SIZE : Z := 65536.
Definition MAX_INPUT_BUFFER_SIZE : Z := 1024 * 1024 * 10.

(** A connection with the one field of the class that [t] leaves out and the
    read and write paths set: [last_activity_], a reading of the steady
    clock. *)
Record timed : Type := mk_timed {
  conn : t;
  last_activity_ : Z
}.

(** What [recv] gave: the bytes read (none when the peer has closed), or -1
    with [EAGAIN] / [EWOULDBLOCK], or -1 with another [errno]. *)
Inductive recv_result : Type :=
| Received (data : std_string)
| RecvWouldBlock
| RecvError.

(** What [send] gave: the number of bytes taken, or -1 with [EAGAIN] /
    [EWOULDBLOCK], or -1 with another [errno]. *)
Inductive send_result : Type :=
| Sent (bytes_sent : nat)
| SendWouldBlock
| SendError.

(** [handle_write]; [sent] is the answer of [send] for the message at the
    front of the queue (which takes at most the bytes of the message) and
    [now] the reading of the clock in [update_last_activity]. *)
Definition handle_write (sent : send_result) (now : Z) (c : timed) : bool * timed :=
  match state_ (conn c), output_queue_ (conn c) with
  | CONNECTED, message :: rest =>
      match sent with
      | Sent (S n) =>
          let bytes_sent := S n in
          (true,
           {| conn :=
                {| state_ := state_ (conn c);
                   input_buffer_ := input_buffer_ (conn c);
                   output_queue_ :=
                     if (bytes_sent =? length message)%nat then rest
                     else drop bytes_sent message :: rest |};
              last_activity_ := now |})
      | Sent O => (false, c)
      | SendWouldBlock => (true, c)
      | SendError => (false, c)
      end
  | _, _ => (true, c)
  end.

(** [has_pending_writes]. *)
Definition has_pending_writes (c : t) : bool :=
  match output_queue_ c with [] => false | _ :: _ => true end.

Section HandleRead.

Context {ServerState : Type}.
Variable execute_command :
  std_string -> list std_string -> ServerState -> std_string * ServerState.

(** [handle_read]; [received] is the answer of [recv] and [now] the reading
    of the clock in [update_last_activity]. *)
Definition handle_read (received : recv_result) (now : Z) (c : timed)
    (srv : ServerState) : option (bool * timed * ServerState) :=
  match state_ (conn c) with
  | CONNECTED =>
      match received with
      | Received (b :: data') =>
          let data := b :: data' in
          if MAX_INPUT_BUFFER_SIZE <? string_size (input_buffer_ (conn c)) + string_size data
          then Some (false, {| conn := conn c; last_activity_ := now |}, srv)
          else
            match process_commands execute_command
                    {| state_ := state_ (conn c);
                       input_buffer_ := input_buffer_ (conn c) ++ data;
                       output_queue_ := output_queue_ (conn c) |} srv with
            | Some (ok, c', srv') =>
                Some (ok, {| conn := c'; last_activity_ := now |}, srv')
            | None => None
            end
      | Received [] =>
          Some (false,
                {| conn := {| state_ := CLOSING;
                              input_buffer_ := input_buffer_ (conn c);
                              output_queue_ := output_queue_ (conn c) |};
                   last_activity_ := last_activity_ c |}, srv)
      | RecvWouldBlock => Some (true, c, srv)
      | RecvError => Some (false, c, srv)
      end
  | _ => Some (false, c, srv)
  end.

End HandleRead.

End Connection.

(** ** Client (client.cpp) *)

Module Client.

(** [Client::encode_command].  [args.size() + 1] does not wrap: a vector
    holds far fewer than 2^64 strings. *)
Definition encode_command (command : std_string) (args : list std_string)
    : std_string :=
  foldl (λ resp arg,
           resp ++ str "$" ++ to_string (string_size arg) ++ CRLF ++ arg ++ CRLF)
        ((str "*" ++ to_string (Z.of_nat (length args) + 1) ++ CRLF) ++
         str "$" ++ to_string (string_size command) ++ CRLF ++ command ++ CRLF)
        args.

(** [Client::decode_response]; [None] is an exception of [std::stoi], which
    the function does not catch.  A negative length other than -1 becomes a
    [size_t] beyond every string, and [substr] then gives all that is left. *)
Definition decode_response (resp_data : std_string) : option std_string :=
  match resp_data with
  | [] => Some (str "Error: Empty response")
  | type :: data =>
      match string_find_crlf data 0 with
      | None => Some (str "Error: Invalid RESP format")
      | Some line_end =>
          let first_line := substr data 0 line_end in
          if ascii_eqb type "+" then Some first_line
          else if ascii_eqb type "-" then Some (str "Error: " ++ first_line)
          else if ascii_eqb type ":" then Some first_line
          else if ascii_eqb type "$" then
            match stoi first_line with
            | None => None
            | Some len =>
                if len =? -1 then Some (str "NULL")
                else if len <? 0 then Some (drop (line_end + 2) data)
                else Some (substr data (line_end + 2) (Z.to_nat len))
            end
          else if ascii_eqb type "*" then
            match stoi first_line with
            | None => None
            | Some count =>
                if count =? -1 then Some (str "NULL")
                else Some (str "(Array with " ++ to_string count ++ str " elements)")
            end
          else Some (str "Error: Unknown RESP type: " ++ [type])
      end
  end.

(** What [decode_response] shows for a value. *)
Definition shown (v : RespProtocol.RespValue) : std_string :=
  match v with
  | RespProtocol.SimpleString s => s
  | RespProtocol.Error s => str "Error: " ++ s
  | RespProtocol.Integer n => to_string n
  | RespProtocol.BulkString s => s
  | RespProtocol.NullBulkString => str "NULL"
  | RespProtocol.Array vs =>
      str "(Array with " ++ to_string (Z.of_nat (length vs)) ++ str " elements)"
  | RespProtocol.NullArray => str "NULL"
  end.

(** The characters that [operator>>] takes for a word: up to the next white
    space or the end. *)
Fixpoint span_word (s : std_string) : std_string * std_string :=
  match s with
  | c :: r =>
      if is_space c then ([], s)
      else let '(w, rest) := span_word r in (c :: w, rest)
  | [] => ([], [])
  end.

(** [iss >> word]: leading white space is skipped, then the word is read;
    the word is empty when the extraction fails. *)
Definition read_word (s : std_string) : std_string * std_string :=
  span_word (skip_spaces s).

(** The double quote character. *)
Definition DQUOTE : ascii := ascii_of_nat 34.

(** The quotes around an argument are taken off. *)
Definition unquote (arg : std_string) : std_string :=
  if (2 <=? length arg)%nat && char_at_is arg 0 DQUOTE
     && char_at_is arg (length arg - 1) DQUOTE
  then substr arg 1 (length arg - 2) else arg.

(** The loop [while (iss >> arg)]; every turn takes at least one character
    of the rest of the line, so [fuel] from the length of the line is
    enough. *)
Fixpoint read_args (fuel : nat) (s : std_string) : list std_string :=
  match fuel with
  | O => []
  | S fuel' =>
      let '(arg, rest) := read_word s in
      if string_empty arg then []
      else unquote arg :: read_args fuel' rest
  end.

(** [Client::parse_command_line]; [None] is the result [false].  The
    string that the caller passes for [command] is empty, as it is at the
    one call of the function, in [run_interactive]. *)
Definition parse_command_line (command_line : std_string)
    : option (std_string * list std_string) :=
  let '(command, rest) := read_word command_line in
  if string_empty command then None
  else Some (to_upper command, read_args (length rest) rest).

End Client.


(** ** Concrete instances for the examples *)

(** [std::hash<std::string>] is left to the implementation and the
    development is parametric in it; where an example needs a concrete hash,
    it takes this one. *)
Definition sample_hash (s : std_string) : nat :=
  foldl (λ h c, (31 * h + nat_of_ascii c)%nat) O s.

(** [Server::execute_command] with the clock stopped at 0, as the server
    behind a connection in the examples. *)
Definition sample_execute (command : std_string) (args : list std_string)
    (se : StorageEngine.t) : std_string * StorageEngine.t :=
  Server.execute_command sample_hash command args 0 0 se.

Definition sample_value : RespProtocol.RespValue :=
  RespProtocol.Array
    [RespProtocol.BulkString (str "SET"); RespProtocol.BulkString (str "k" ++ CRLF);
     RespProtocol.Integer (-42); RespProtocol.SimpleString (str "OK");
     RespProtocol.Error (str "ERR x"); RespProtocol.NullBulkString;
     RespProtocol.Array []; RespProtocol.NullArray].

(** Two entries, ["b"] stored first and ["a"] second. *)
Definition sample_store : StorageEngine.t :=
  StorageEngine.set sample_hash (str "a") (str "1") StorageEngine.seconds_max 0
    (StorageEngine.set sample_hash (str "b") (str "22") StorageEngine.seconds_max 0
       (StorageEngine.create 100)).

(** * Properties *)

(** ** Decimal conversion *)

Lemma is_digit_facts (c : ascii) :
  is_digit c = true ->
  is_space c = false /\ ascii_eqb c "-" = false /\ ascii_eqb c "+" = false /\
  ascii_eqb c CR = false /\ 0 <= digit_val c < 10.
Proof.
  destruct c as [[] [] [] [] [] [] [] []]; vm_compute; intuition congruence.
Qed.

Lemma digit_char_is_digit (d : Z) :
  0 <= d < 10 -> is_digit (digit_char d) = true /\ digit_val (digit_char d) = d.
Proof.
  intros Hd.
  assert (Hc : d = 0 \/ d = 1 \/ d = 2 \/ d = 3 \/ d = 4 \/ d = 5 \/ d = 6 \/
               d = 7 \/ d = 8 \/ d = 9) by lia.
  repeat destruct Hc as [-> | Hc]; try subst d; by vm_compute.
Qed.

Lemma to_digits_all_digits (fuel : nat) (n : Z) :
  0 <= n -> Forall (λ c, is_digit c = true) (to_digits fuel n).
Proof.
  revert n. induction fuel as [|f IH]; intros n Hn; simpl; [constructor|].
  destruct (Z.ltb_spec n 10).
  - repeat constructor. apply digit_char_is_digit. lia.
  - apply Forall_app. split.
    + apply IH. apply Z.div_pos; lia.
    + repeat constructor. apply digit_char_is_digit.
      apply Z.mod_pos_bound. lia.
Qed.

Lemma to_digits_nonempty (fuel : nat) (n : Z) :
  (0 < fuel)%nat -> to_digits fuel n <> [].
Proof.
  destruct fuel as [|f]; [lia|]. intros _. simpl.
  destruct (n <? 10); [done|]. by destruct (to_digits f (n / 10)).
Qed.

Lemma digits_value_app (ds rest : std_string) (acc : Z) :
  Forall (λ c, is_digit c = true) ds ->
  digits_value acc (ds ++ rest) = digits_value (digits_value acc ds) rest.
Proof.
  intros Hds. revert acc. induction Hds as [|c ds Hc _ IH]; intros acc; simpl; [done|].
  rewrite Hc. apply IH.
Qed.

Lemma digits_value_to_digits (fuel : nat) (n acc : Z) :
  0 <= n < 2 ^ Z.of_nat fuel -> (0 < fuel)%nat ->
  exists k : Z, 0 <= k /\ digits_value acc (to_digits fuel n) = acc * 10 ^ k + n.
Proof.
  revert n acc. induction fuel as [|f IH]; intros n acc Hn Hf; [lia|].
  simpl. destruct (Z.ltb_spec n 10) as [Hlt|Hge].
  - exists 1. split; [lia|]. cbn [digits_value].
    destruct (digit_char_is_digit n) as [-> ->]; lia.
  - assert (Hf' : (0 < f)%nat).
    { destruct f; [|lia]. change (2 ^ Z.of_nat 1) with 2 in Hn. lia. }
    assert (Hdiv : 0 <= n / 10 < 2 ^ Z.of_nat f).
    { split; [apply Z.div_pos; lia|].
      apply Z.div_lt_upper_bound; [lia|].
      rewrite Nat2Z.inj_succ, Z.pow_succ_r in Hn by lia. lia. }
    destruct (IH (n / 10) acc Hdiv Hf') as (k & Hk & Heq).
    exists (k + 1). split; [lia|].
    rewrite digits_value_app by (apply to_digits_all_digits; lia).
    rewrite Heq. cbn [digits_value].
    destruct (digit_char_is_digit (n mod 10)) as [-> ->];
      [apply Z.mod_pos_bound; lia|].
    rewrite Z.pow_add_r by lia.
    pose proof (Z.div_mod n 10 ltac:(lia)). lia.
Qed.

Lemma to_string_nonneg_value (n : Z) :
  0 <= n -> digits_value 0 (to_string_nonneg n) = n.
Proof.
  intros Hn. unfold to_string_nonneg.
  destruct (digits_value_to_digits (S (Z.to_nat (Z.log2 n))) n 0) as (k & _ & ->);
    [|lia|lia].
  split; [done|].
  rewrite Nat2Z.inj_succ, Z2Nat.id by apply Z.log2_nonneg.
  destruct (Z.eq_dec n 0) as [->|Hnz]; [by vm_compute|].
  apply Z.log2_spec. lia.
Qed.

Lemma to_string_nonneg_digits (n : Z) :
  0 <= n ->
  exists c ds, to_string_nonneg n = c :: ds /\ is_digit c = true /\
               Forall (λ c, is_digit c = true) ds.
Proof.
  intros Hn. unfold to_string_nonneg.
  pose proof (to_digits_all_digits (S (Z.to_nat (Z.log2 n))) n Hn) as Hall.
  pose proof (to_digits_nonempty (S (Z.to_nat (Z.log2 n))) n ltac:(lia)) as Hne.
  destruct (to_digits _ n) as [|c ds]; [done|].
  inversion_clear Hall. eauto.
Qed.

Lemma skip_spaces_digit (c : ascii) (s : std_string) :
  is_space c = false -> skip_spaces (c :: s) = c :: s.
Proof. intros H. cbn [skip_spaces]. by rewrite H. Qed.

(** [std::stoi] and [std::stoll] read back what [std::to_string] wrote. *)
Lemma sto_to_string (lo hi n : Z) :
  lo <= n <= hi -> sto lo hi (to_string n) = Some n.
Proof.
  intros Hn. unfold sto, to_string.
  destruct (Z.ltb_spec n 0) as [Hneg|Hpos].
  - destruct (to_string_nonneg_digits (- n)) as (c & ds & Heq & Hc & Hds); [lia|].
    change (skip_spaces ("-"%char :: to_string_nonneg (- n)))
      with ("-"%char :: to_string_nonneg (- n)).
    cbv iota beta. change (ascii_eqb "-" "-") with true. cbv iota beta.
    pose proof (to_string_nonneg_value (- n) ltac:(lia)) as Hv.
    rewrite Heq in *. rewrite Hc, Hv.
    replace (- - n) with n by lia.
    destruct (Z.leb_spec lo n), (Z.leb_spec n hi); simpl; done || lia.
  - destruct (to_string_nonneg_digits n) as (c & ds & Heq & Hc & Hds); [lia|].
    pose proof (to_string_nonneg_value n ltac:(lia)) as Hv.
    rewrite Heq in *.
    destruct (is_digit_facts c Hc) as (Hsp & Hm & Hp & _).
    rewrite skip_spaces_digit by done. rewrite Hm, Hp, Hc, Hv.
    destruct (Z.leb_spec lo n), (Z.leb_spec n hi); simpl; done || lia.
Qed.

(** ** Finding CRLF *)

Lemma find_crlf_cons (c1 c2 : ascii) (tl : std_string) :
  find_crlf (c1 :: c2 :: tl) =
  if ascii_eqb c1 CR && ascii_eqb c2 LF then Some O else S <$> find_crlf (c2 :: tl).
Proof. reflexivity. Qed.

Lemma find_crlf_cons_None (c1 c2 : ascii) (tl : std_string) :
  find_crlf (c1 :: c2 :: tl) = None ->
  ascii_eqb c1 CR && ascii_eqb c2 LF = false /\ find_crlf (c2 :: tl) = None.
Proof.
  rewrite find_crlf_cons. destruct (ascii_eqb c1 CR && ascii_eqb c2 LF); [done|].
  by destruct (find_crlf (c2 :: tl)).
Qed.

Lemma find_crlf_app_crlf (s rest : std_string) :
  find_crlf s = None -> find_crlf (s ++ CRLF ++ rest) = Some (length s).
Proof.
  induction s as [|c1 [|c2 tl] IH]; intros Hs.
  - done.
  - cbn. destruct (ascii_eqb c1 CR); by cbn.
  - apply find_crlf_cons_None in Hs as [E Hs].
    change ((c1 :: c2 :: tl) ++ CRLF ++ rest) with (c1 :: c2 :: (tl ++ CRLF ++ rest)).
    rewrite find_crlf_cons, E.
    change (c2 :: tl ++ CRLF ++ rest) with ((c2 :: tl) ++ CRLF ++ rest).
    by rewrite IH.
Qed.

Lemma find_crlf_take (s : std_string) (i : nat) :
  find_crlf s = None -> find_crlf (take i s) = None.
Proof.
  revert i. induction s as [|c1 [|c2 tl] IH]; intros i Hs.
  - by destruct i.
  - by destruct i as [|[|i]].
  - apply find_crlf_cons_None in Hs as [E Hs].
    destruct i as [|[|i]]; [done|done|].
    specialize (IH (S i) Hs).
    change (take (S (S i)) (c1 :: c2 :: tl)) with (c1 :: c2 :: take i tl).
    change (take (S i) (c2 :: tl)) with (c2 :: take i tl) in IH.
    by rewrite find_crlf_cons, E, IH.
Qed.

Lemma find_crlf_snoc_CR (s : std_string) :
  find_crlf s = None -> find_crlf (s ++ [CR]) = None.
Proof.
  induction s as [|c1 [|c2 tl] IH]; intros Hs.
  - done.
  - cbn. by rewrite andb_false_r.
  - apply find_crlf_cons_None in Hs as [E Hs].
    change ((c1 :: c2 :: tl) ++ [CR]) with (c1 :: c2 :: (tl ++ [CR])).
    rewrite find_crlf_cons, E.
    change (c2 :: tl ++ [CR]) with ((c2 :: tl) ++ [CR]).
    by rewrite IH.
Qed.

(** A proper prefix of a CRLF-free text followed by CRLF holds no CRLF. *)
Lemma find_crlf_prefix (s rest : std_string) (i : nat) :
  find_crlf s = None -> (i < length s + 2)%nat ->
  find_crlf (take i (s ++ CRLF ++ rest)) = None.
Proof.
  intros Hs Hi.
  destruct (decide (i <= length s)%nat) as [Hle|Hgt].
  - rewrite take_app_le by done. by apply find_crlf_take.
  - assert (i = S (length s)) as -> by lia.
    rewrite take_app_ge by lia.
    replace (S (length s) - length s)%nat with 1%nat by lia.
    by apply find_crlf_snoc_CR.
Qed.

Lemma find_crlf_digits (s : std_string) :
  Forall (λ c, is_digit c = true) s -> find_crlf s = None.
Proof.
  induction s as [|c1 [|c2 tl] IH]; intros Hs; [done|done|].
  inversion_clear Hs as [|? ? H1 H2].
  rewrite find_crlf_cons.
  destruct (is_digit_facts c1 H1) as (_ & _ & _ & -> & _).
  cbn [andb]. by rewrite IH.
Qed.

Lemma find_crlf_to_string (n : Z) : find_crlf (to_string n) = None.
Proof.
  unfold to_string. destruct (Z.ltb_spec n 0).
  - destruct (to_string_nonneg_digits (- n)) as (c & ds & Heq & Hc & Hds); [lia|].
    rewrite Heq, find_crlf_cons.
    change (ascii_eqb "-" CR) with false. cbn [andb].
    rewrite find_crlf_digits; [done|by constructor].
  - destruct (to_string_nonneg_digits n) as (c & ds & Heq & Hc & Hds); [lia|].
    rewrite Heq. apply find_crlf_digits. by constructor.
Qed.

(** [findCRLF] from position 1 on a tag byte, a CRLF-free text and CRLF. *)
Lemma findCRLF_header (tag : ascii) (s rest : std_string) :
  find_crlf s = None ->
  RespProtocol.findCRLF (tag :: s ++ CRLF ++ rest) 1 = Some (S (length s)).
Proof.
  intros Hs. unfold RespProtocol.findCRLF.
  replace (length (tag :: s ++ CRLF ++ rest) <=? 1)%nat with false.
  2:{ symmetry. apply Nat.leb_gt. rewrite length_cons, length_app. cbn. lia. }
  change (drop 1 (tag :: s ++ CRLF ++ rest)) with (s ++ CRLF ++ rest).
  by rewrite find_crlf_app_crlf.
Qed.

Lemma findCRLF_header_prefix (tag : ascii) (s rest : std_string) (i : nat) :
  find_crlf s = None -> (i < length s + 3)%nat ->
  RespProtocol.findCRLF (take i (tag :: s ++ CRLF ++ rest)) 1 = None.
Proof.
  intros Hs Hi. unfold RespProtocol.findCRLF.
  destruct (Nat.leb_spec (length (take i (tag :: s ++ CRLF ++ rest))) 1); [done|].
  destruct i as [|i]; [done|].
  change (drop 1 (take (S i) (tag :: s ++ CRLF ++ rest)))
    with (take i (s ++ CRLF ++ rest)).
  rewrite find_crlf_prefix; [done|done|lia].
Qed.

Lemma substr_header (tag : ascii) (s rest : std_string) :
  substr (tag :: s ++ rest) 1 (S (length s) - 1) = s.
Proof.
  unfold substr. change (drop 1 (tag :: s ++ rest)) with (s ++ rest).
  replace (S (length s) - 1)%nat with (length s) by lia.
  by rewrite take_app_length.
Qed.

(** ** RespProtocol: encoding, then parsing *)

Section RespProofs.
Import RespProtocol.

(** Induction on a value, with the property for the elements of an array. *)
Lemma RespValue_nested_ind (P : RespValue -> Prop) :
  (forall s, P (SimpleString s)) ->
  (forall s, P (Error s)) ->
  (forall n, P (Integer n)) ->
  (forall s, P (BulkString s)) ->
  P NullBulkString ->
  (forall vs, Forall P vs -> P (Array vs)) ->
  P NullArray ->
  forall v, P v.
Proof.
  intros HS HE HI HB HNB HA HNA.
  fix IH 1.
  intros [s|s|n|s| |vs| ];
    [apply HS|apply HE|apply HI|apply HB|apply HNB| |apply HNA].
  apply HA. induction vs as [|v vs IHvs]; constructor; [apply IH|apply IHvs].
Qed.

Lemma substr_middle (pre s rest : std_string) :
  substr (pre ++ s ++ rest) (length pre) (length s) = s.
Proof.
  unfold substr. rewrite drop_app_length. by rewrite take_app_length.
Qed.

Lemma encode_length_pos (v : RespValue) : (0 < length (encode v))%nat.
Proof. destruct v; cbn; lia. Qed.

Lemma parse_n_encode_line (n : nat) (tag : ascii) (s rest : std_string)
    (f : std_string -> parse_result) :
  (parse_n (S n) (tag :: s ++ CRLF ++ rest) =
     if ascii_eqb tag "+" then parseSimpleString (tag :: s ++ CRLF ++ rest)
     else if ascii_eqb tag "-" then parseError (tag :: s ++ CRLF ++ rest)
     else if ascii_eqb tag ":" then parseInteger (tag :: s ++ CRLF ++ rest)
     else if ascii_eqb tag "$" then parseBulkString (tag :: s ++ CRLF ++ rest)
     else if ascii_eqb tag "*" then parseArray (parse_n n) (tag :: s ++ CRLF ++ rest)
     else ParseError).
Proof. reflexivity. Qed.

(** The element loop on the encodings of [vs], when [parse_rec] reads each
    of them back. *)
Lemma parse_elements_encode (parse_rec : std_string -> parse_result)
    (vs : list RespValue) :
  forall (pre rest : std_string) (acc : list RespValue),
  (forall v rest', v ∈ vs ->
     (length (encode v ++ rest') <= length (flat_map encode vs ++ rest))%nat ->
     parse_rec (encode v ++ rest') = Parsed v (length (encode v))) ->
  parse_elements parse_rec (pre ++ flat_map encode vs ++ rest) (length vs)
    (length pre) acc =
  Parsed (Array (acc ++ vs)) (length pre + length (flat_map encode vs)).
Proof.
  induction vs as [|v vs IH]; intros pre rest acc Hrec.
  - cbn. rewrite app_nil_r. f_equal. lia.
  - cbn [length parse_elements flat_map].
    pose proof (encode_length_pos v) as Hpos.
    replace (length (pre ++ (encode v ++ flat_map encode vs) ++ rest) <=? length pre)%nat
      with false.
    2:{ symmetry. apply Nat.leb_gt. rewrite !length_app. lia. }
    rewrite drop_app_length, <- (assoc_L (++)).
    rewrite Hrec; [|by left|cbn [flat_map]; by rewrite <- (assoc_L (++))].
    replace (pre ++ encode v ++ flat_map encode vs ++ rest)
      with ((pre ++ encode v) ++ flat_map encode vs ++ rest)
      by by rewrite <- (assoc_L (++)).
    rewrite <- length_app, IH.
    + rewrite <- (assoc_L (++)). cbn. f_equal. rewrite !length_app. lia.
    + intros v' rest' Hin Hlen. apply Hrec; [by right|].
      cbn [flat_map]. rewrite <- (assoc_L (++)), (length_app (encode v)). lia.
Qed.

Lemma parse_n_encode (v : RespValue) :
  well_formed v = true ->
  forall (n : nat) (rest : std_string),
  (length (encode v ++ rest) <= n)%nat ->
  parse_n n (encode v ++ rest) = Parsed v (length (encode v)).
Proof.
  induction v as [s|s|z|s| |vs IH| ] using RespValue_nested_ind;
    intros Hwf n rest Hn; cbn [well_formed] in Hwf.
  - (* simple string *)
    apply bool_decide_eq_true in Hwf.
    destruct n as [|n]; [cbn in Hn; lia|].
    change (encode (SimpleString s) ++ rest) with ("+"%char :: (s ++ CRLF) ++ rest).
    rewrite <- (assoc_L (++)). rewrite (parse_n_encode_line n "+" s rest (parse_n n)).
    cbn [ascii_eqb Ascii.eqb Bool.eqb]. unfold parseSimpleString.
    rewrite findCRLF_header, substr_header by done.
    f_equal. cbn. rewrite length_app. cbn. lia.
  - (* error *)
    apply bool_decide_eq_true in Hwf.
    destruct n as [|n]; [cbn in Hn; lia|].
    change (encode (Error s) ++ rest) with ("-"%char :: (s ++ CRLF) ++ rest).
    rewrite <- (assoc_L (++)). rewrite (parse_n_encode_line n "-" s rest (parse_n n)).
    cbn [ascii_eqb Ascii.eqb Bool.eqb]. unfold parseError.
    rewrite findCRLF_header, substr_header by done.
    f_equal. cbn. rewrite length_app. cbn. lia.
  - (* integer *)
    apply andb_true_iff in Hwf as [Hlo Hhi].
    apply Z.leb_le in Hlo, Hhi.
    destruct n as [|n]; [cbn in Hn; lia|].
    change (encode (Integer z) ++ rest) with (":"%char :: (to_string z ++ CRLF) ++ rest).
    rewrite <- (assoc_L (++)). rewrite (parse_n_encode_line n ":" _ rest (parse_n n)).
    cbn [ascii_eqb Ascii.eqb Bool.eqb]. unfold parseInteger.
    rewrite findCRLF_header, substr_header by apply find_crlf_to_string.
    unfold stoll. rewrite sto_to_string by done.
    f_equal. cbn. rewrite length_app. cbn. lia.
  - (* bulk string *)
    apply Z.leb_le in Hwf.
    destruct n as [|n]; [cbn in Hn; lia|].
    change (encode (BulkString s) ++ rest)
      with ("$"%char :: (to_string (string_size s) ++ CRLF ++ s ++ CRLF) ++ rest).
    rewrite <- !(assoc_L (++)).
    rewrite (parse_n_encode_line n "$" _ _ (parse_n n)).
    cbn [ascii_eqb Ascii.eqb Bool.eqb]. unfold parseBulkString.
    rewrite findCRLF_header, substr_header by apply find_crlf_to_string.
    unfold stoi. rewrite sto_to_string by (unfold string_size, INT_MIN, INT_MAX in *; lia).
    set (ds := to_string (string_size s)).
    destruct (Z.eqb_spec (string_size s) (-1)); [unfold string_size in *; lia|].
    destruct (Z.ltb_spec (string_size s) 0); [unfold string_size in *; lia|].
    assert (Hlen : string_size ("$"%char :: ds ++ CRLF ++ s ++ CRLF ++ rest) =
                   Z.of_nat (S (length ds)) + 2 + string_size s + 2 +
                   Z.of_nat (length rest)).
    { unfold string_size. rewrite length_cons, !length_app. cbn [length CRLF]. lia. }
    destruct (Z.ltb_spec (string_size ("$"%char :: ds ++ CRLF ++ s ++ CRLF ++ rest))
                (Z.of_nat (S (length ds)) + 2 + string_size s + 2)); [lia|].
    unfold string_size at 1 2. rewrite Nat2Z.id.
    replace ("$"%char :: ds ++ CRLF ++ s ++ CRLF ++ rest)
      with (("$"%char :: ds ++ CRLF) ++ s ++ CRLF ++ rest)
      by (cbn; by rewrite <- (assoc_L (++))).
    replace (S (length ds) + 2)%nat with (length ("$"%char :: ds ++ CRLF))
      by (rewrite length_cons, length_app; cbn; lia).
    rewrite substr_middle. f_equal.
    cbn. rewrite !length_app. cbn. rewrite !length_app. cbn. subst ds. lia.
  - (* null bulk string *)
    destruct n as [|n]; [cbn in Hn; lia|]. reflexivity.
  - (* array *)
    apply andb_true_iff in Hwf as [Hlen Hall].
    apply Z.leb_le in Hlen.
    destruct n as [|n]; [cbn in Hn; lia|].
    change (encode (Array vs) ++ rest)
      with ("*"%char :: (to_string (Z.of_nat (length vs)) ++ CRLF ++ flat_map encode vs)
              ++ rest) in *.
    rewrite <- !(assoc_L (++)) in *.
    rewrite (parse_n_encode_line n "*" _ _ (parse_n n)).
    cbn [ascii_eqb Ascii.eqb Bool.eqb]. unfold parseArray.
    rewrite findCRLF_header, substr_header by apply find_crlf_to_string.
    unfold stoi. rewrite sto_to_string by (unfold INT_MIN, INT_MAX in *; lia).
    set (ds := to_string (Z.of_nat (length vs))) in *.
    destruct (Z.eqb_spec (Z.of_nat (length vs)) (-1)); [lia|].
    destruct (Z.ltb_spec (Z.of_nat (length vs)) 0); [lia|].
    rewrite Nat2Z.id.
    replace ("*"%char :: ds ++ CRLF ++ flat_map encode vs ++ rest)
      with (("*"%char :: ds ++ CRLF) ++ flat_map encode vs ++ rest)
      by (cbn; by rewrite <- (assoc_L (++))).
    replace (S (length ds) + 2)%nat with (length ("*"%char :: ds ++ CRLF))
      by (rewrite length_cons, length_app; cbn; lia).
    rewrite parse_elements_encode.
    + f_equal.
      change (encode (Array vs)) with ("*"%char :: ds ++ CRLF ++ flat_map encode vs).
      rewrite !length_cons, !length_app. lia.
    + intros v rest' Hin Hle.
      rewrite Forall_forall in IH. apply IH; [done| |].
      * rewrite forallb_forall in Hall. apply Hall. by apply list_elem_of_In.
      * rewrite length_cons, !length_app in Hn.
        rewrite !length_app in Hle. rewrite length_app. lia.
  - (* null array *)
    destruct n as [|n]; [cbn in Hn; lia|]. reflexivity.
Qed.

End RespProofs.

Section RespProofs2.
Import RespProtocol.

(** *** The bound of [parse_n] *)

Lemma parse_elements_ext (f g : std_string -> parse_result) (data : std_string) :
  (forall d, (length d < length data)%nat -> f d = g d) ->
  forall (k cp : nat) (acc : list RespValue), (1 <= cp)%nat ->
  parse_elements f data k cp acc = parse_elements g data k cp acc.
Proof.
  intros Hfg. induction k as [|k IH]; intros cp acc Hcp; [done|].
  cbn [parse_elements].
  destruct (Nat.leb_spec (length data) cp); [done|].
  rewrite Hfg by (rewrite length_drop; lia).
  destruct (g (drop cp data)); try done. apply IH. lia.
Qed.

Lemma parse_n_bound (n : nat) :
  forall (m : nat) (data : std_string),
  (length data <= n)%nat -> (length data <= m)%nat ->
  parse_n n data = parse_n m data.
Proof.
  induction n as [|n IH]; intros m data Hn Hm.
  - destruct data; [|cbn in Hn; lia]. by destruct m.
  - destruct data as [|c data]; [by destruct m|].
    destruct m as [|m]; [cbn in Hm; lia|].
    cbn [parse_n]. repeat (destruct (ascii_eqb c _); [done|]).
    destruct (ascii_eqb c "*"); [|done].
    unfold parseArray.
    destruct (findCRLF (c :: data) 1); [|done].
    destruct (stoi _); [|done].
    destruct (_ =? -1); [done|]. destruct (_ <? 0); [done|].
    apply parse_elements_ext; [|lia].
    intros d Hd. cbn [length] in *. apply IH; lia.
Qed.

(** Any bound that is at least the length of the data gives what [parse]
    gives. *)
Lemma parse_n_length (n : nat) (data : std_string) :
  (length data <= n)%nat -> parse_n n data = parse data.
Proof. intros Hn. unfold parse. by apply parse_n_bound. Qed.

(** *** Proper prefixes *)

Lemma parse_elements_prefix (parse_rec : std_string -> parse_result)
    (vs : list RespValue) :
  forall (pre : std_string) (acc : list RespValue) (k : nat),
  (k < length (flat_map encode vs))%nat ->
  (forall v rest', v ∈ vs -> (length (encode v ++ rest') <= k)%nat ->
     parse_rec (encode v ++ rest') = Parsed v (length (encode v))) ->
  (forall v j, v ∈ vs -> (j < length (encode v))%nat -> (j <= k)%nat ->
     parse_rec (take j (encode v)) = NeedMore) ->
  parse_elements parse_rec (pre ++ take k (flat_map encode vs)) (length vs)
    (length pre) acc = NeedMore.
Proof.
  induction vs as [|v vs IH]; intros pre acc k Hk HP HQ.
  - cbn in Hk. lia.
  - cbn [length parse_elements flat_map] in *.
    pose proof (encode_length_pos v) as Hpos.
    destruct (decide (k < length (encode v))%nat) as [Hlt|Hge].
    + rewrite take_app_le by lia.
      destruct (Nat.leb_spec (length (pre ++ take k (encode v))) (length pre)) as [|Hl];
        [done|].
      rewrite drop_app_length. rewrite HQ; [done|by left|done|lia].
    + rewrite take_app_ge by lia.
      rewrite length_app in Hk.
      replace (length (pre ++ encode v ++ take (k - length (encode v)) (flat_map encode vs))
                 <=? length pre)%nat with false.
      2:{ symmetry. apply Nat.leb_gt. rewrite !length_app. lia. }
      rewrite drop_app_length.
      rewrite HP; [|by left|].
      2:{ rewrite length_app, length_take. lia. }
      rewrite (assoc_L (++)), <- length_app.
      apply IH; [lia| |].
      * intros v' rest' Hin Hlen. apply HP; [by right|lia].
      * intros v' j Hin Hj Hjk. apply HQ; [by right|lia|lia].
Qed.

Lemma parse_n_prefix (v : RespValue) :
  well_formed v = true ->
  forall (n i : nat), (i < length (encode v))%nat -> (i <= n)%nat ->
  parse_n n (take i (encode v)) = NeedMore.
Proof.
  assert (Hline : forall (tag : ascii) (s : std_string) (n i : nat),
             find_crlf s = None -> (i < length s + 3)%nat -> (i <= n)%nat ->
             ascii_eqb tag "+" || ascii_eqb tag "-" || ascii_eqb tag ":" ||
               ascii_eqb tag "$" = true ->
             parse_n n (take i (tag :: s ++ CRLF ++ [])) = NeedMore).
  { intros tag s n i Hs Hi Hn Htag.
    destruct i as [|i]; [by destruct n|].
    destruct n as [|n]; [lia|].
    pose proof (findCRLF_header_prefix tag s [] (S i) Hs Hi) as Hf.
    cbn [take] in *. cbn [parse_n].
    unfold parseSimpleString, parseError, parseInteger, parseBulkString.
    rewrite Hf.
    destruct (ascii_eqb tag "+"); [done|]. destruct (ascii_eqb tag "-"); [done|].
    destruct (ascii_eqb tag ":"); [done|]. by destruct (ascii_eqb tag "$"). }
  induction v as [s|s|z|s| |vs IH| ] using RespValue_nested_ind;
    intros Hwf n i Hi Hn; cbn [well_formed] in Hwf.
  - apply bool_decide_eq_true in Hwf.
    change (encode (SimpleString s)) with ("+"%char :: s ++ CRLF ++ []) in *.
    apply Hline; try done. rewrite length_cons, length_app in Hi. cbn in Hi. lia.
  - apply bool_decide_eq_true in Hwf.
    change (encode (Error s)) with ("-"%char :: s ++ CRLF ++ []) in *.
    apply Hline; try done. rewrite length_cons, length_app in Hi. cbn in Hi. lia.
  - change (encode (Integer z)) with (":"%char :: to_string z ++ CRLF ++ []) in *.
    apply Hline; try done; [apply find_crlf_to_string|].
    rewrite length_cons, length_app in Hi. cbn in Hi. lia.
  - (* bulk string *)
    apply Z.leb_le in Hwf.
    change (encode (BulkString s))
      with ("$"%char :: to_string (string_size s) ++ CRLF ++ s ++ CRLF) in *.
    set (ds := to_string (string_size s)) in *.
    destruct (decide (i < length ds + 3)%nat) as [Hhd|Hbody].
    + destruct i as [|i]; [by destruct n|].
      destruct n as [|n]; [lia|].
      pose proof (findCRLF_header_prefix "$" ds (s ++ CRLF) (S i)
                    (find_crlf_to_string _) Hhd) as Hf.
      cbn [take] in *. cbn [parse_n ascii_eqb Ascii.eqb Bool.eqb].
      unfold parseBulkString. by rewrite Hf.
    + destruct n as [|n]; [lia|].
      rewrite length_cons, !length_app in Hi. cbn [length CRLF] in Hi.
      replace (take i ("$"%char :: ds ++ CRLF ++ s ++ CRLF))
        with ("$"%char :: ds ++ CRLF ++ take (i - (length ds + 3)) (s ++ CRLF)).
      2:{ destruct i as [|i]; [lia|]. cbn [take]. f_equal.
          rewrite (take_app_ge ds) by lia. f_equal.
          change (CRLF ++ s ++ CRLF) with ([CR; LF] ++ (s ++ CRLF)).
          rewrite (take_app_ge [CR; LF]) by (cbn; lia). cbn [length app].
          change (CRLF ++ ?x) with (CR :: LF :: x). do 3 f_equal. lia. }
      rewrite (parse_n_encode_line n "$" _ _ (parse_n n)).
      cbn [ascii_eqb Ascii.eqb Bool.eqb]. unfold parseBulkString.
      rewrite findCRLF_header, substr_header by apply find_crlf_to_string.
      unfold stoi. fold ds.
      unfold ds at 1. rewrite sto_to_string
        by (unfold string_size, INT_MIN, INT_MAX in *; lia).
      destruct (Z.eqb_spec (string_size s) (-1)); [unfold string_size in *; lia|].
      destruct (Z.ltb_spec (string_size s) 0); [unfold string_size in *; lia|].
      match goal with |- (if ?b then _ else _) = _ => replace b with true end; [done|].
      symmetry. apply Z.ltb_lt. unfold string_size.
      rewrite length_cons, !length_app, length_take, length_app.
      cbn [length CRLF]. lia.
  - (* null bulk string *)
    change (encode NullBulkString) with ("$"%char :: str "-1" ++ CRLF ++ []) in *.
    apply Hline; try done.
  - (* array *)
    apply andb_true_iff in Hwf as [Hlen Hall].
    apply Z.leb_le in Hlen.
    change (encode (Array vs))
      with ("*"%char :: to_string (Z.of_nat (length vs)) ++ CRLF ++ flat_map encode vs) in *.
    set (ds := to_string (Z.of_nat (length vs))) in *.
    destruct (decide (i < length ds + 3)%nat) as [Hhd|Hbody].
    + destruct i as [|i]; [by destruct n|].
      destruct n as [|n]; [lia|].
      pose proof (findCRLF_header_prefix "*" ds (flat_map encode vs) (S i)
                    (find_crlf_to_string _) Hhd) as Hf.
      cbn [take] in *. cbn [parse_n ascii_eqb Ascii.eqb Bool.eqb].
      unfold parseArray. by rewrite Hf.
    + destruct n as [|n]; [lia|].
      rewrite length_cons, !length_app in Hi. cbn [length CRLF] in Hi.
      replace (take i ("*"%char :: ds ++ CRLF ++ flat_map encode vs))
        with ("*"%char :: ds ++ CRLF ++ take (i - (length ds + 3)) (flat_map encode vs)).
      2:{ destruct i as [|i]; [lia|]. cbn [take]. f_equal.
          rewrite (take_app_ge ds) by lia. f_equal.
          change (CRLF ++ flat_map encode vs) with ([CR; LF] ++ flat_map encode vs).
          rewrite (take_app_ge [CR; LF]) by (cbn; lia). cbn [length app].
          change (CRLF ++ ?x) with (CR :: LF :: x). do 3 f_equal. lia. }
      rewrite (parse_n_encode_line n "*" _ _ (parse_n n)).
      cbn [ascii_eqb Ascii.eqb Bool.eqb]. unfold parseArray.
      rewrite findCRLF_header, substr_header by apply find_crlf_to_string.
      unfold stoi. fold ds.
      unfold ds at 1. rewrite sto_to_string by (unfold INT_MIN, INT_MAX in *; lia).
      destruct (Z.eqb_spec (Z.of_nat (length vs)) (-1)); [lia|].
      destruct (Z.ltb_spec (Z.of_nat (length vs)) 0); [lia|].
      rewrite Nat2Z.id.
      replace ("*"%char :: ds ++ CRLF ++ take (i - (length ds + 3)) (flat_map encode vs))
        with (("*"%char :: ds ++ CRLF) ++ take (i - (length ds + 3)) (flat_map encode vs))
        by (cbn; by rewrite <- (assoc_L (++))).
      replace (S (length ds) + 2)%nat with (length ("*"%char :: ds ++ CRLF))
        by (rewrite length_cons, length_app; cbn; lia).
      rewrite Forall_forall in IH. rewrite forallb_forall in Hall.
      apply parse_elements_prefix; [lia| |].
      * intros v rest' Hin Hle. apply list_elem_of_In in Hin.
        apply parse_n_encode; [by apply Hall|lia].
      * intros v j Hin Hj Hjk.
        apply IH; [done|by apply Hall, list_elem_of_In|done|lia].
  - (* null array *)
    change (encode NullArray) with ("*"%char :: str "-1" ++ CRLF ++ []) in *.
    destruct i as [|i]; [by destruct n|].
    destruct n as [|n]; [lia|].
    pose proof (findCRLF_header_prefix "*" (str "-1") [] (S i) eq_refl) as Hf.
    cbn [take] in *. cbn [parse_n ascii_eqb Ascii.eqb Bool.eqb].
    unfold parseArray. rewrite Hf; [done|]. cbn in Hi. cbn. lia.
Qed.

End RespProofs2.

Local Close Scope Z_scope.

(** ** HashTable: lookups after insert, remove and resize *)

Section HashTableProofs.
Import HashTable.

Context {K V : Type} `{EqDecision K}.
Variable std_hash : K -> nat.

Implicit Types (h : HashTable.t K V) (c : list (K * V)) (key k : K) (v value : V).

Abbreviation wf := (HashTable.wf std_hash).
Abbreviation wf_length := (HashTable.wf_length std_hash).
Abbreviation wf_capacity := (HashTable.wf_capacity std_hash).
Abbreviation wf_place := (HashTable.wf_place std_hash).
Abbreviation wf_nodup := (HashTable.wf_nodup std_hash).
Abbreviation placed := (HashTable.placed std_hash).

(** *** Chains *)

Lemma chain_get_Some c key v :
  NoDup (c.*1) -> chain_get key c = Some v <-> (key, v) ∈ c.
Proof.
  induction c as [|[k' v'] c IH]; intros Hnd; cbn.
  - split; [done|]. by intros ?%elem_of_nil.
  - apply NoDup_cons in Hnd as [Hk Hnd]. destruct (decide (k' = key)) as [->|Hne].
    + split.
      * intros [= ->]. by left.
      * intros [[= ->]|Hin]%elem_of_cons; [done|].
        exfalso. apply Hk. apply list_elem_of_fmap. by exists (key, v).
    + rewrite IH by done. split; [by right|].
      intros [[= ? ?]|Hin]%elem_of_cons; [by subst|done].
Qed.

Lemma chain_get_None c key : chain_get key c = None <-> key ∉ c.*1.
Proof.
  induction c as [|[k' v'] c IH]; cbn.
  - split; [|done]. intros _ ?%elem_of_nil. done.
  - destruct (decide (k' = key)) as [->|Hne].
    + split; [done|]. intros Hn. exfalso. apply Hn. by left.
    + rewrite IH, not_elem_of_cons.
      split; [intros ?; split; [congruence|done]|by intros [_ ?]].
Qed.

Lemma chain_update_None c key value :
  chain_update key value c = None <-> chain_get key c = None.
Proof.
  induction c as [|[k' v'] c IH]; cbn; [done|].
  destruct (decide (k' = key)); [done|].
  rewrite <- IH. by destruct (chain_update key value c).
Qed.

Lemma chain_update_Some c c' key value :
  chain_update key value c = Some c' ->
  c'.*1 = c.*1 /\
  forall k, chain_get k c' = if decide (key = k) then Some value else chain_get k c.
Proof.
  revert c'. induction c as [|[k' v'] c IH]; intros c'; cbn; [done|].
  destruct (decide (k' = key)) as [->|Hne].
  - intros [= <-]. split; [done|]. intros k. cbn.
    by destruct (decide (key = k)).
  - destruct (chain_update key value c) as [c''|]; [|done].
    intros [= <-]. destruct (IH c'' eq_refl) as [Hk Hg].
    split; [cbn; by f_equal|]. intros k. cbn. rewrite Hg.
    destruct (decide (k' = k)) as [->|]; [|done].
    by destruct (decide (key = k)); [subst|].
Qed.

Lemma chain_remove_None c key :
  chain_remove key c = None <-> chain_get key c = None.
Proof.
  induction c as [|[k' v'] c IH]; cbn; [done|].
  destruct (decide (k' = key)); [done|].
  rewrite <- IH. by destruct (chain_remove key c).
Qed.

Lemma chain_remove_Some c c' key :
  NoDup (c.*1) ->
  chain_remove key c = Some c' ->
  NoDup (c'.*1) /\ (forall node, node ∈ c' -> node ∈ c) /\
  forall k, chain_get k c' = if decide (key = k) then None else chain_get k c.
Proof.
  revert c'. induction c as [|[k' v'] c IH]; intros c' Hnd; cbn; [done|].
  apply NoDup_cons in Hnd as [Hk Hnd].
  destruct (decide (k' = key)) as [->|Hne].
  - intros [= <-]. split; [done|]. split; [intros node Hn; by right|]. intros k.
    destruct (decide (key = k)) as [<-|]; [|done].
    by apply chain_get_None.
  - destruct (chain_remove key c) as [c''|]; [|done].
    intros [= <-]. destruct (IH c'' Hnd eq_refl) as (Hnd' & Hsub & Hg).
    split; [|split].
    + cbn. apply NoDup_cons. split; [|done].
      intros Hin. apply Hk. apply list_elem_of_fmap in Hin as (x & -> & Hx).
      apply list_elem_of_fmap. exists x. split; [done|]. by apply Hsub.
    + intros node [->|Hn]%elem_of_cons; [by left|right; by apply Hsub].
    + intros k. cbn. rewrite Hg.
      destruct (decide (k' = k)) as [->|]; [|done].
      by destruct (decide (key = k)); [subst|].
Qed.

(** *** Buckets *)

Lemma hash_lt h key : wf h -> (hash std_hash h key < length (table h))%nat.
Proof.
  intros Hwf. unfold hash. rewrite (wf_length h Hwf).
  apply Nat.mod_upper_bound. pose proof (wf_capacity h Hwf). lia.
Qed.

Lemma bucket_lookup h i :
  (i < length (table h))%nat -> table h !! i = Some (bucket h i).
Proof.
  intros Hi. unfold bucket.
  destruct (table h !! i) eqn:E; [done|]. apply lookup_ge_None in E. lia.
Qed.

Lemma bucket_nodup h i : wf h -> NoDup ((bucket h i).*1).
Proof.
  intros Hwf. unfold bucket. destruct (table h !! i) as [c|] eqn:E; cbn.
  - by eapply wf_nodup.
  - constructor.
Qed.

Lemma elem_of_concat {A} (x : A) (ls : list (list A)) :
  x ∈ concat ls <-> exists l, x ∈ l /\ l ∈ ls.
Proof.
  induction ls as [|l ls IH]; cbn.
  - split; [by intros ?%elem_of_nil|]. by intros (l & _ & ?%elem_of_nil).
  - rewrite elem_of_app, IH. split.
    + intros [Hx|(l' & Hx & Hl')]; [exists l; split; [done|by left]|].
      exists l'. split; [done|by right].
    + intros (l' & Hx & [->|Hl']%elem_of_cons); [by left|right; eauto].
Qed.

Lemma elem_of_nodes h node :
  node ∈ nodes h <-> exists i c, table h !! i = Some c /\ node ∈ c.
Proof.
  unfold nodes. rewrite elem_of_concat. split.
  - intros (c & Hn & Hc). apply list_elem_of_lookup in Hc as [i Hi]. eauto.
  - intros (i & c & Hi & Hn). exists c. split; [done|].
    apply list_elem_of_lookup. eauto.
Qed.

(** [get] finds exactly the nodes of the table. *)
Lemma get_Some h key v :
  wf h -> get std_hash key h = Some v <-> (key, v) ∈ nodes h.
Proof.
  intros Hwf. unfold get. rewrite chain_get_Some by by apply bucket_nodup.
  rewrite elem_of_nodes. split.
  - intros Hin. exists (hash std_hash h key), (bucket h (hash std_hash h key)).
    split; [|done]. apply bucket_lookup. by apply hash_lt.
  - intros (i & c & Hi & Hin).
    pose proof (wf_place h Hwf i c _ Hi Hin) as Hp. cbn in Hp.
    unfold hash, bucket. by rewrite Hp, Hi.
Qed.

Lemma get_ext h h' key :
  wf h -> wf h' -> (forall node, node ∈ nodes h' <-> node ∈ nodes h) ->
  get std_hash key h' = get std_hash key h.
Proof.
  intros Hwf Hwf' Hn. apply option_eq. intros v.
  rewrite !get_Some by done. apply Hn.
Qed.

(** *** Replacing one bucket *)

Lemma replace_bucket h index c sz :
  wf h -> (index < capacity h)%nat -> NoDup (c.*1) ->
  (forall node, node ∈ c -> (std_hash node.1 mod capacity h)%nat = index) ->
  let h' := {| table := <[index := c]> (table h); capacity := capacity h; size := sz |} in
  wf h' /\
  forall k, get std_hash k h' =
            if decide (hash std_hash h k = index) then chain_get k c
            else get std_hash k h.
Proof.
  intros Hwf Hidx Hnd Hpl h'. pose proof (wf_length h Hwf) as Hlen. split.
  - split; cbn.
    + by rewrite length_insert.
    + by apply wf_capacity.
    + intros i c' node Hi Hin. destruct (decide (i = index)) as [->|Hne].
      * rewrite list_lookup_insert_eq in Hi by lia. injection Hi as <-. by apply Hpl.
      * rewrite list_lookup_insert_ne in Hi by done. by eapply wf_place.
    + intros i c' Hi. destruct (decide (i = index)) as [->|Hne].
      * rewrite list_lookup_insert_eq in Hi by lia. by injection Hi as <-.
      * rewrite list_lookup_insert_ne in Hi by done. by eapply wf_nodup.
  - intros k. unfold get, bucket, hash. cbn.
    destruct (decide ((std_hash k mod capacity h)%nat = index)) as [->|Hne].
    + by rewrite list_lookup_insert_eq by lia.
    + by rewrite list_lookup_insert_ne.
Qed.

(** *** Resize *)

Lemma foldl_concat {A B} (f : B -> A -> B) (ls : list (list A)) (b : B) :
  foldl (λ acc l, foldl f acc l) b ls = foldl f b (concat ls).
Proof.
  revert b. induction ls as [|l ls IH]; intros b; cbn; [done|].
  by rewrite foldl_app, IH.
Qed.

Lemma elem_of_concat_alter_cons (nt : list (list (K * V))) (j : nat) (node x : K * V) :
  (j < length nt)%nat ->
  x ∈ concat (alter (cons node) j nt) <-> x = node \/ x ∈ concat nt.
Proof.
  revert j. induction nt as [|c nt IH]; intros j Hj; cbn in *; [lia|].
  destruct j as [|j]; cbn.
  - rewrite elem_of_cons, !elem_of_app. tauto.
  - rewrite !elem_of_app, IH by lia. tauto.
Qed.

Lemma rehash_node_spec (nc : nat) (nt : list (list (K * V))) (node : K * V) :
  length nt = nc -> (0 < nc)%nat -> placed nc nt -> chains_nodup nt ->
  node.1 ∉ (concat nt).*1 ->
  length (rehash_node std_hash nc nt node) = nc /\
  placed nc (rehash_node std_hash nc nt node) /\
  chains_nodup (rehash_node std_hash nc nt node) /\
  forall x, x ∈ concat (rehash_node std_hash nc nt node) <-> x = node \/ x ∈ concat nt.
Proof.
  intros Hlen Hnc Hpl Hnd Hfresh. unfold rehash_node.
  set (j := (std_hash node.1 mod nc)%nat).
  assert (Hj : (j < length nt)%nat) by (rewrite Hlen; by apply Nat.mod_upper_bound; lia).
  split; [by rewrite length_alter|]. split; [|split].
  - intros i c x Hi Hx. destruct (decide (i = j)) as [->|Hne].
    + rewrite list_lookup_alter_eq in Hi.
      destruct (nt !! j) as [c0|] eqn:E; [|done]. injection Hi as <-.
      apply elem_of_cons in Hx as [->|Hx]; [done|]. by eapply Hpl.
    + rewrite list_lookup_alter_ne in Hi by done. by eapply Hpl.
  - intros i c Hi. destruct (decide (i = j)) as [->|Hne].
    + rewrite list_lookup_alter_eq in Hi.
      destruct (nt !! j) as [c0|] eqn:E; [|done]. injection Hi as <-.
      cbn. apply NoDup_cons. split; [|by eapply Hnd].
      intros Hin. apply Hfresh.
      apply list_elem_of_fmap in Hin as (x & Hx1 & Hx).
      apply list_elem_of_fmap. exists x. split; [done|].
      apply elem_of_concat. exists c0. split; [done|].
      apply list_elem_of_lookup. eauto.
    + rewrite list_lookup_alter_ne in Hi by done. by eapply Hnd.
  - intros x. by apply elem_of_concat_alter_cons.
Qed.

Lemma rehash_spec (nc : nat) (l : list (K * V)) :
  forall nt : list (list (K * V)),
  length nt = nc -> (0 < nc)%nat -> placed nc nt -> chains_nodup nt ->
  NoDup (l.*1) -> (forall x, x ∈ l -> x.1 ∉ (concat nt).*1) ->
  length (foldl (rehash_node std_hash nc) nt l) = nc /\
  placed nc (foldl (rehash_node std_hash nc) nt l) /\
  chains_nodup (foldl (rehash_node std_hash nc) nt l) /\
  forall x, x ∈ concat (foldl (rehash_node std_hash nc) nt l) <-> x ∈ l \/ x ∈ concat nt.
Proof.
  induction l as [|node l IH]; intros nt Hlen Hnc Hpl Hnd Hl Hfresh; cbn.
  - repeat split; try done; [by right|]. by intros [?%elem_of_nil|?].
  - cbn in Hl. apply NoDup_cons in Hl as [Hnode Hl].
    destruct (rehash_node_spec nc nt node Hlen Hnc Hpl Hnd) as (Hlen' & Hpl' & Hnd' & Hel).
    { apply Hfresh. by left. }
    destruct (IH (rehash_node std_hash nc nt node) Hlen' Hnc Hpl' Hnd' Hl)
      as (Hlen'' & Hpl'' & Hnd'' & Hel'').
    { intros x Hx Hin. apply list_elem_of_fmap in Hin as (y & Hy1 & Hy).
      apply Hel in Hy as [->|Hy].
      - apply Hnode. rewrite <- Hy1. apply list_elem_of_fmap. eauto.
      - apply (Hfresh x); [by right|]. apply list_elem_of_fmap. eauto. }
    repeat split; try done.
    + intros Hx. apply Hel'' in Hx as [Hx|Hx]; [left; by right|].
      apply Hel in Hx as [->|Hx]; [left; by left|by right].
    + intros [[->|Hx]%elem_of_cons|Hx]; apply Hel''.
      * right. apply Hel. by left.
      * by left.
      * right. apply Hel. by right.
Qed.

(** No key occurs twice in a well-formed table. *)
Lemma nodup_concat (nc : nat) (nt : list (list (K * V))) :
  placed nc nt -> chains_nodup nt -> NoDup ((concat nt).*1).
Proof.
  induction nt as [|c nt IH] using rev_ind; intros Hpl Hnd; [constructor|].
  rewrite concat_app, fmap_app. cbn. rewrite app_nil_r.
  apply NoDup_app. split; [|split].
  - apply IH.
    + intros i c' node Hi Hin. eapply Hpl; [|done]. by apply lookup_app_l_Some.
    + intros i c' Hi. eapply Hnd. by apply lookup_app_l_Some.
  - intros k Hk Hk'.
    apply list_elem_of_fmap in Hk as (x & -> & Hx).
    apply list_elem_of_fmap in Hk' as (y & Hxy & Hy).
    apply elem_of_concat in Hx as (c' & Hx & Hc').
    apply list_elem_of_lookup in Hc' as [i Hi].
    pose proof (lookup_lt_Some _ _ _ Hi) as Hlt.
    pose proof (Hpl i c' x (lookup_app_l_Some _ _ _ _ Hi) Hx) as H1.
    pose proof (Hpl (length nt) c y) as H2.
    rewrite list_lookup_middle in H2 by done. specialize (H2 eq_refl Hy).
    rewrite Hxy in H1. lia.
  - eapply (Hnd (length nt)). by rewrite list_lookup_middle.
Qed.

Lemma resize_wf h (nc : nat) :
  wf h -> (0 < nc)%nat ->
  wf (resize std_hash nc h) /\
  forall node, node ∈ nodes (resize std_hash nc h) <-> node ∈ nodes h.
Proof.
  intros Hwf Hnc. unfold resize, nodes. cbn. rewrite foldl_concat.
  destruct (rehash_spec nc (concat (table h)) (replicate nc []))
    as (Hlen & Hpl & Hnd & Hel).
  - by rewrite length_replicate.
  - done.
  - intros i c node Hi Hin. apply lookup_replicate in Hi as [-> _].
    by apply elem_of_nil in Hin.
  - intros i c Hi. apply lookup_replicate in Hi as [-> _]. constructor.
  - apply (nodup_concat (capacity h)).
    + intros i c node. apply wf_place. done.
    + intros i c. by apply wf_nodup.
  - intros x _ Hin. apply list_elem_of_fmap in Hin as (y & _ & Hy).
    apply elem_of_concat in Hy as (c & Hy & Hc).
    apply elem_of_replicate in Hc as [-> _]. by apply elem_of_nil in Hy.
  - split; [split; cbn; done|].
    intros node. rewrite Hel. split; [|by left].
    intros [?|Hin]; [done|].
    apply elem_of_concat in Hin as (c & Hy & Hc).
    apply elem_of_replicate in Hc as [-> _]. by apply elem_of_nil in Hy.
Qed.

Lemma resize_get h (nc : nat) key :
  wf h -> (0 < nc)%nat -> get std_hash key (resize std_hash nc h) = get std_hash key h.
Proof.
  intros Hwf Hnc. destruct (resize_wf h nc Hwf Hnc) as [Hwf' Hn].
  by apply get_ext.
Qed.

(** *** insert, remove *)

Lemma create_wf (initial_capacity : nat) :
  (0 < initial_capacity)%nat -> wf (create initial_capacity : HashTable.t K V).
Proof.
  intros Hc. split; cbn.
  - by rewrite length_replicate.
  - done.
  - intros i c node Hi Hin. apply lookup_replicate in Hi as [-> _].
    by apply elem_of_nil in Hin.
  - intros i c Hi. apply lookup_replicate in Hi as [-> _]. constructor.
Qed.

Lemma create_get (initial_capacity : nat) key :
  get std_hash key (create initial_capacity : HashTable.t K V) = None.
Proof.
  unfold get, bucket, create. cbn.
  destruct (replicate initial_capacity [] !! _) as [c|] eqn:E; [|done].
  by apply lookup_replicate in E as [-> _].
Qed.

Lemma insert_spec h key value :
  wf h ->
  wf (insert std_hash key value h) /\
  forall k, get std_hash k (insert std_hash key value h) =
            if decide (key = k) then Some value else get std_hash k h.
Proof.
  intros Hwf. unfold insert.
  set (h1 := if load_exceeded h then resize std_hash (2 * capacity h) h else h).
  assert (Hwf1 : wf h1 /\ forall k, get std_hash k h1 = get std_hash k h).
  { subst h1. pose proof (wf_capacity h Hwf).
    destruct (load_exceeded h); [|done].
    split; [apply resize_wf; [done|lia]|]. intros k. apply resize_get; [done|lia]. }
  destruct Hwf1 as [Hwf1 Hget1]. clearbody h1.
  set (index := hash std_hash h1 key).
  assert (Hidx : (index < capacity h1)%nat).
  { rewrite <- (wf_length h1 Hwf1). by apply hash_lt. }
  assert (Hb : table h1 !! index = Some (bucket h1 index)).
  { apply bucket_lookup. by rewrite (wf_length h1 Hwf1). }
  pose proof (bucket_nodup h1 index Hwf1) as Hnd.
  assert (Hother : forall k, hash std_hash h1 k <> index -> key <> k).
  { intros k Hk ->. by apply Hk. }
  destruct (chain_update key value (bucket h1 index)) as [c|] eqn:E.
  - destruct (chain_update_Some _ _ _ _ E) as [Hkeys Hg].
    destruct (replace_bucket h1 index c (size h1) Hwf1 Hidx) as [Hwf2 Hget2].
    + by rewrite Hkeys.
    + intros node Hin.
      assert (Hk : node.1 ∈ (bucket h1 index).*1).
      { rewrite <- Hkeys. apply list_elem_of_fmap. eauto. }
      apply list_elem_of_fmap in Hk as (node' & -> & Hin').
      by eapply wf_place.
    + split; [done|]. intros k. rewrite Hget2, <- Hget1.
      destruct (decide (hash std_hash h1 k = index)) as [Hk|Hk].
      * rewrite Hg. unfold get. by rewrite Hk.
      * destruct (decide (key = k)); [|done]. by exfalso; eapply Hother.
  - apply chain_update_None in E.
    destruct (replace_bucket h1 index ((key, value) :: bucket h1 index) (S (size h1))
                Hwf1 Hidx) as [Hwf2 Hget2].
    + cbn. apply NoDup_cons. split; [by apply chain_get_None|done].
    + intros node [->|Hin]%elem_of_cons; [done|]. by eapply wf_place.
    + split; [done|]. intros k. rewrite Hget2, <- Hget1.
      destruct (decide (hash std_hash h1 k = index)) as [Hk|Hk].
      * cbn. unfold get. by rewrite Hk.
      * destruct (decide (key = k)); [|done]. by exfalso; eapply Hother.
Qed.

Lemma remove_absent h key :
  get std_hash key h = None -> remove std_hash key h = (false, h).
Proof.
  unfold get, remove. intros Hg. apply chain_remove_None in Hg. by rewrite Hg.
Qed.

Lemma remove_spec h key :
  wf h ->
  wf (remove std_hash key h).2 /\
  (remove std_hash key h).1 = bool_decide (is_Some (get std_hash key h)) /\
  forall k, get std_hash k (remove std_hash key h).2 =
            if decide (key = k) then None else get std_hash k h.
Proof.
  intros Hwf. destruct (get std_hash key h) as [v|] eqn:Hg.
  2:{ rewrite remove_absent by done. cbn. split; [done|]. split; [done|].
      intros k. destruct (decide (key = k)) as [<-|]; done. }
  unfold remove. set (index := hash std_hash h key).
  assert (Hidx : (index < capacity h)%nat).
  { rewrite <- (wf_length h Hwf). by apply hash_lt. }
  pose proof (bucket_nodup h index Hwf) as Hnd.
  assert (Hb : table h !! index = Some (bucket h index)).
  { apply bucket_lookup. by rewrite (wf_length h Hwf). }
  destruct (chain_remove key (bucket h index)) as [c|] eqn:E.
  2:{ apply chain_remove_None in E. unfold get in Hg. fold index in Hg. congruence. }
  destruct (chain_remove_Some _ _ _ Hnd E) as (Hnd' & Hsub & Hgc).
  destruct (replace_bucket h index c (size h - 1) Hwf Hidx Hnd') as [Hwf2 Hget2].
  { intros node Hin. eapply wf_place; [done|done|]. by apply Hsub. }
  set (h2 := {| table := <[index := c]> (table h); capacity := capacity h;
                size := (size h - 1)%nat |}) in *.
  assert (Hget3 : forall k, get std_hash k h2 =
                            if decide (key = k) then None else get std_hash k h).
  { intros k. rewrite Hget2.
    destruct (decide (hash std_hash h k = index)) as [Hk|Hk].
    - rewrite Hgc. unfold get. by rewrite Hk.
    - destruct (decide (key = k)) as [<-|]; [|done]. done. }
  cbn [fst snd]. split; [|split; [done|]].
  - destruct (Nat.ltb_spec 8 (capacity h2)) as [Hc|Hc]; [|done].
    destruct (load_low h2); [|done]. apply resize_wf; [done|].
    apply Nat.div_str_pos. lia.
  - intros k. destruct (Nat.ltb_spec 8 (capacity h2)) as [Hc|Hc]; [|done].
    destruct (load_low h2); [|done]. cbn [andb]. rewrite resize_get; [done|done|].
    apply Nat.div_str_pos. lia.
Qed.

End HashTableProofs.

(** ** HashTable: the load factor *)

Section LoadFactor.
Import HashTable.

Context {K V : Type} `{EqDecision K}.
Variable std_hash : K -> nat.

Abbreviation reachable := (HashTable.reachable std_hash).

Lemma insert_size_capacity (h : HashTable.t K V) key value :
  let h1 := if load_exceeded h then resize std_hash (2 * capacity h) h else h in
  capacity (insert std_hash key value h) = capacity h1 /\
  (size (insert std_hash key value h) = size h1 \/
   size (insert std_hash key value h) = S (size h1)).
Proof.
  unfold insert. cbn zeta.
  destruct (chain_update _ _ _); cbn; auto.
Qed.

Lemma insert_load_bounds (h : HashTable.t K V) key value :
  load_bounds h -> load_bounds (insert std_hash key value h).
Proof.
  intros ([j Hj] & Hup & Hlow).
  assert (Hcap : 8 <= capacity h).
  { pose proof (Nat.pow_nonzero 2 j). lia. }
  pose proof (insert_size_capacity h key value) as Hs. cbn zeta in Hs.
  destruct Hs as [Hc Hs]. unfold load_bounds. rewrite Hc. clear Hc.
  unfold load_exceeded in *.
  destruct (Nat.leb_spec (7 * capacity h) (10 * size h)) as [Hex|Hnex]; cbn in *.
  - split; [exists (S j); rewrite Nat.pow_succ_r'; lia|].
    destruct Hs as [-> | ->]; lia.
  - split; [by exists j|]. destruct Hs as [-> | ->]; lia.
Qed.

Lemma remove_load_bounds (h : HashTable.t K V) key :
  load_bounds h -> load_bounds (remove std_hash key h).2.
Proof.
  intros ([j Hj] & Hup & Hlow). unfold remove.
  assert (Hcap : 8 <= capacity h).
  { pose proof (Nat.pow_nonzero 2 j). lia. }
  destruct (chain_remove _ _); cbn [snd]; [|by split; [exists j|]].
  unfold load_low. cbn [capacity size].
  destruct (Nat.ltb_spec 8 (capacity h)) as [H8|H8]; cbn [andb].
  - destruct (Nat.ltb_spec (5 * (size h - 1)) (capacity h)) as [Hlo|Hlo];
      unfold load_bounds, resize; cbn [capacity size].
    + destruct j as [|j]; [cbn in Hj; lia|].
      rewrite Nat.pow_succ_r' in Hj.
      assert (Hhalf : capacity h / 2 = 8 * 2 ^ j).
      { rewrite Hj. replace (8 * (2 * 2 ^ j)) with ((8 * 2 ^ j) * 2) by lia.
        by rewrite Nat.div_mul. }
      rewrite Hhalf. split; [by exists j|]. lia.
    + split; [by exists j|]. lia.
  - unfold load_bounds; cbn [capacity size]. split; [by exists j|]. lia.
Qed.

Lemma reachable_load_bounds (h : HashTable.t K V) :
  reachable h -> load_bounds h.
Proof.
  induction 1 as [|h key value _ IH|h key _ IH].
  - split; [by exists 0|]. cbn. lia.
  - by apply insert_load_bounds.
  - by apply remove_load_bounds.
Qed.

Lemma reachable_wf (h : HashTable.t K V) : reachable h -> HashTable.wf std_hash h.
Proof.
  induction 1 as [|h key value _ IH|h key _ IH].
  - apply create_wf. lia.
  - by apply insert_spec.
  - by apply remove_spec.
Qed.

End LoadFactor.

Local Open Scope Z_scope.

(** ** StorageEngine *)

Section StorageEngineProofs.
Import StorageEngine.

Variable std_hash : std_string -> nat.

Abbreviation ht_get := (HashTable.get std_hash).
Abbreviation ht_insert := (HashTable.insert std_hash).
Abbreviation ht_remove := (HashTable.remove std_hash).
Abbreviation ht_wf := (HashTable.wf std_hash).

Implicit Types (s : StorageEngine.t) (key k : std_string) (e : Entry).

Lemma get_insert (h : HashTable.t std_string Entry) key k e :
  ht_wf h -> ht_get k (ht_insert key e h) = if decide (key = k) then Some e else ht_get k h.
Proof. intros Hwf. by apply insert_spec. Qed.

Lemma insert_wf (h : HashTable.t std_string Entry) key e :
  ht_wf h -> ht_wf (ht_insert key e h).
Proof. intros Hwf. by apply insert_spec. Qed.

Lemma get_remove (h : HashTable.t std_string Entry) key k :
  ht_wf h -> ht_get k (ht_remove key h).2 = if decide (key = k) then None else ht_get k h.
Proof. intros Hwf. by apply remove_spec. Qed.

Lemma remove_wf (h : HashTable.t std_string Entry) key :
  ht_wf h -> ht_wf (ht_remove key h).2.
Proof. intros Hwf. by apply remove_spec. Qed.

(** *** The budget loop *)

Lemma evict_lru_length (m : MemoryManager.t) :
  MemoryManager.lru_queue m <> [] ->
  S (length (MemoryManager.lru_queue (MemoryManager.evict_lru m).2)) =
  length (MemoryManager.lru_queue m).
Proof.
  destruct m as [q]. unfold MemoryManager.evict_lru.
  cbn [MemoryManager.lru_queue]. intros Hq.
  destruct (exists_last Hq) as (q' & y & Heq).
  destruct q as [|x q0]; [done|]. cbn [snd MemoryManager.lru_queue].
  rewrite Heq, removelast_last, length_app. cbn. lia.
Qed.

Lemma evict_lru_empty (m : MemoryManager.t) :
  MemoryManager.lru_queue m = [] -> MemoryManager.evict_lru m = ([], m).
Proof. destruct m as [q]. cbn. by intros ->. Qed.

(** More fuel than the queue has keys is never used up. *)
Lemma enforce_loop_fuel (fuel1 : nat) :
  forall (fuel2 : nat) s,
  (length (MemoryManager.lru_queue (mem_manager s)) < fuel1)%nat ->
  (length (MemoryManager.lru_queue (mem_manager s)) < fuel2)%nat ->
  enforce_loop std_hash fuel1 s = enforce_loop std_hash fuel2 s.
Proof.
  induction fuel1 as [|fuel1 IH]; intros fuel2 s H1 H2; [lia|].
  destruct fuel2 as [|fuel2]; [lia|]. cbn [enforce_loop].
  destruct (max_memory s <? current_memory s); [|done].
  destruct (decide (MemoryManager.lru_queue (mem_manager s) = [])) as [Hq|Hq].
  - by rewrite evict_lru_empty.
  - pose proof (evict_lru_length _ Hq) as Hlen.
    destruct (MemoryManager.evict_lru (mem_manager s)) as [key mm]. cbn [snd] in Hlen.
    destruct (string_empty key); [done|].
    destruct (HashTable.get std_hash key (store s)); apply IH; cbn; lia.
Qed.

Lemma enforce_memory_limits_fuel (fuel : nat) s :
  (length (MemoryManager.lru_queue (mem_manager s)) < fuel)%nat ->
  enforce_loop std_hash fuel s = enforce_memory_limits std_hash s.
Proof. intros Hf. unfold enforce_memory_limits. apply enforce_loop_fuel; lia. Qed.

Lemma enforce_loop_spec (fuel : nat) :
  forall s, ht_wf (store s) ->
  ht_wf (store (enforce_loop std_hash fuel s)) /\
  max_memory (enforce_loop std_hash fuel s) = max_memory s /\
  forall k, ht_get k (store (enforce_loop std_hash fuel s)) = ht_get k (store s) \/
            ht_get k (store (enforce_loop std_hash fuel s)) = None.
Proof.
  induction fuel as [|fuel IH]; intros s Hwf; cbn [enforce_loop]; [by auto|].
  destruct (max_memory s <? current_memory s); [|by auto].
  destruct (MemoryManager.evict_lru (mem_manager s)) as [key mm].
  destruct (string_empty key); [by auto|].
  destruct (HashTable.get std_hash key (store s)) as [entry|].
  - match goal with |- context [enforce_loop _ _ ?s1] =>
      destruct (IH s1) as (Hwf' & Hmax & Hget) end.
    { cbn. by apply remove_wf. }
    split; [done|]. split; [done|]. intros k.
    destruct (Hget k) as [Hk|Hk]; [|by right]. rewrite Hk. cbn.
    rewrite get_remove by done. destruct (decide (key = k)); auto.
  - match goal with |- context [enforce_loop _ _ ?s1] =>
      destruct (IH s1) as (Hwf' & Hmax & Hget) end; done.
Qed.

(** *** Well-formedness of the table is kept *)

Lemma set_wf s key value ttl now :
  ht_wf (store s) -> ht_wf (store (set std_hash key value ttl now s)).
Proof.
  intros Hwf. unfold set, enforce_memory_limits.
  apply enforce_loop_spec. cbn. by apply insert_wf.
Qed.

Lemma get_wf s key now1 now2 :
  ht_wf (store s) -> ht_wf (store (get std_hash key now1 now2 s).2).
Proof.
  intros Hwf. unfold get. destruct (HashTable.get std_hash key (store s)); [|done].
  destruct (expired now2 _); cbn.
  - by apply remove_wf, insert_wf.
  - by apply insert_wf.
Qed.

Lemma del_wf s key : ht_wf (store s) -> ht_wf (store (del std_hash key s).2).
Proof.
  intros Hwf. unfold del. destruct (HashTable.get std_hash key (store s)); [|done].
  cbn. by apply remove_wf.
Qed.

Lemma evict_expired_wf s now :
  ht_wf (store s) -> ht_wf (store (evict_expired std_hash now s)).
Proof.
  unfold evict_expired. generalize (keys_to_remove now s). intros keys.
  revert s. induction keys as [|key keys IH]; intros s Hwf; cbn; [done|].
  apply IH. cbn. by apply remove_wf.
Qed.

End StorageEngineProofs.

Section StorageEngineClaims.
Import StorageEngine.

Variable std_hash : std_string -> nat.

Abbreviation ht_get := (HashTable.get std_hash).
Abbreviation ht_wf := (HashTable.wf std_hash).

Implicit Types (s : StorageEngine.t) (key k : std_string) (e : Entry).

Lemma wrap64_small (x : Z) : 0 <= x < 2 ^ 64 -> wrap64 x = x.
Proof. intros Hx. unfold wrap64. by apply Z.mod_small. Qed.

(** [set] of a key that the table does not hold, when the budget has room
    for it: the entry is stored and nothing is evicted. *)
Lemma set_fresh s key value ttl now :
  ht_get key (store s) = None ->
  0 <= current_memory s ->
  current_memory s + (string_size key + string_size value) <= max_memory s ->
  max_memory s < 2 ^ 64 ->
  set std_hash key value ttl now s =
  {| store := HashTable.insert std_hash key
                {| value := value; ttl := ttl; last_accessed := now |} (store s);
     mem_manager := MemoryManager.update_lru key (mem_manager s);
     current_memory := current_memory s + (string_size key + string_size value);
     max_memory := max_memory s |}.
Proof.
  intros Hget Hcm Hfit Hmax. unfold set, enforce_memory_limits. rewrite Hget.
  rewrite wrap64_small by (unfold string_size in *; lia).
  cbn [enforce_loop max_memory current_memory].
  by destruct (Z.ltb_spec (max_memory s)
                 (current_memory s + (string_size key + string_size value))); [lia|].
Qed.

(** [get] of a key that the table holds: the expiry test sees the entry
    with its access time already set to [now1]. *)
Lemma get_present s key e now1 now2 :
  ht_get key (store s) = Some e ->
  expired now2 {| value := value e; ttl := ttl e; last_accessed := now1 |} = false ->
  get std_hash key now1 now2 s =
  (value e,
   {| store := HashTable.insert std_hash key
                 {| value := value e; ttl := ttl e; last_accessed := now1 |} (store s);
      mem_manager := MemoryManager.update_lru key (mem_manager s);
      current_memory := current_memory s; max_memory := max_memory s |}).
Proof. intros Hget Hexp. unfold get. by rewrite Hget, Hexp. Qed.

Lemma wrap_int64_small (x : Z) : - 2 ^ 63 <= x < 2 ^ 63 -> wrap_int64 x = x.
Proof. intros Hx. unfold wrap_int64. rewrite Z.mod_small by lia. lia. Qed.

(** With both clock readings of [get] equal, no entry with a TTL from 0 to
    9223372036 seconds passes the expiry test of [get]. *)
Lemma expired_after_touch (value : std_string) (ttl now : Z) :
  0 <= ttl <= 9223372036 ->
  expired now {| value := value; ttl := ttl; last_accessed := now |} = false.
Proof.
  intros Httl. unfold expired, older_than, ticks_per_second. cbn.
  apply andb_false_iff. right. apply Z.ltb_ge.
  rewrite Z.sub_diag. rewrite !wrap_int64_small by lia. lia.
Qed.

End StorageEngineClaims.

Section NodesOfTable.
Import HashTable.
Context {K V : Type} `{EqDecision K}.
Variable std_hash : K -> nat.

Lemma nodes_nodup (h : HashTable.t K V) : wf std_hash h -> NoDup ((nodes h).*1).
Proof.
  intros Hwf. unfold nodes.
  apply (nodup_concat std_hash (capacity h) (table h)).
  - intros i c node. by apply (wf_place std_hash h).
  - intros i c. by apply (wf_nodup std_hash h).
Qed.

Lemma nodes_nil (h : HashTable.t K V) :
  wf std_hash h -> (forall k, get std_hash k h = None) -> nodes h = [].
Proof.
  intros Hwf Hnone. destruct (nodes h) as [|[k v] l] eqn:E; [done|].
  assert (Hin : (k, v) ∈ nodes h) by (rewrite E; by left).
  apply (get_Some std_hash) in Hin; [|done]. by rewrite Hnone in Hin.
Qed.

Lemma nodes_singleton (h : HashTable.t K V) (k : K) (v : V) :
  wf std_hash h -> get std_hash k h = Some v ->
  (forall k', k' <> k -> get std_hash k' h = None) ->
  nodes h = [(k, v)].
Proof.
  intros Hwf Hk Hother.
  assert (Hall : forall node, node ∈ nodes h -> node = (k, v)).
  { intros [k' v'] Hin. apply (get_Some std_hash) in Hin; [|done].
    destruct (decide (k' = k)) as [->|Hne]; [congruence|].
    by rewrite Hother in Hin. }
  pose proof (nodes_nodup h Hwf) as Hnd.
  apply (get_Some std_hash) in Hk; [|done].
  destruct (nodes h) as [|a [|b l]] eqn:E.
  - by apply elem_of_nil in Hk.
  - f_equal. apply Hall. by left.
  - exfalso.
    rewrite (Hall a) in Hnd by by left.
    rewrite (Hall b) in Hnd by (right; by left).
    cbn in Hnd. apply NoDup_cons in Hnd as [Hnd _]. apply Hnd. by left.
Qed.

End NodesOfTable.

Section StorageEngineTheorems.
Import StorageEngine.

Variable std_hash : std_string -> nat.

Abbreviation ht_get := (HashTable.get std_hash).
Abbreviation ht_wf := (HashTable.wf std_hash).

Implicit Types (s : StorageEngine.t) (key k : std_string) (e : Entry).

Lemma create_store_wf (max : Z) : ht_wf (store (create max)).
Proof. apply create_wf. lia. Qed.

(** The entry of [key] after one [set] on a new engine with room for it. *)
Lemma set_create (max : Z) key value ttl now :
  string_size key + string_size value <= max -> max < 2 ^ 64 ->
  set std_hash key value ttl now (create max) =
  {| store := HashTable.insert std_hash key
                {| value := value; ttl := ttl; last_accessed := now |}
                (HashTable.create 8);
     mem_manager := MemoryManager.mk [key];
     current_memory := string_size key + string_size value;
     max_memory := max |}.
Proof.
  intros Hfit Hmax. rewrite set_fresh; cbn; try done; try lia.
  apply create_get.
Qed.

(** C1, the code at a failing input.  An entry stored at time 0 with a TTL
    of one second is expired five seconds later, and [get] at that time
    returns its value and puts the key at the front of the LRU queue: the
    expiry test of [get] runs after [last_accessed] has been set to the time
    of the call. *)
Theorem get_returns_expired_entry :
  let k := str "k" in
  let now := 5 * ticks_per_second in
  let s := set std_hash k (str "v") 1 0 (create 100) in
  ht_get k (store s) = Some {| value := str "v"; ttl := 1; last_accessed := 0 |} /\
  expired now {| value := str "v"; ttl := 1; last_accessed := 0 |} = true /\
  (get std_hash k now now s).1 = str "v" /\
  MemoryManager.lru_queue (mem_manager (get std_hash k now now s).2) = [k] /\
  ht_get k (store (get std_hash k now now s).2) =
    Some {| value := str "v"; ttl := 1; last_accessed := now |}.
Proof.
  intros k now s. subst s. rewrite set_create by done.
  assert (Hget : ht_get k (HashTable.insert std_hash k
                    {| value := str "v"; ttl := 1; last_accessed := 0 |}
                    (HashTable.create 8)) =
                 Some {| value := str "v"; ttl := 1; last_accessed := 0 |}).
  { rewrite get_insert by (apply create_wf; lia). by rewrite decide_True. }
  split; [done|]. split; [done|].
  erewrite get_present; [|exact Hget|done].
  split; [done|]. split; [done|]. cbn [snd store].
  rewrite get_insert; [by rewrite decide_True|].
  apply insert_wf, create_wf. lia.
Qed.

Lemma evict_expired_current_memory s now :
  current_memory (evict_expired std_hash now s) = current_memory s.
Proof.
  unfold evict_expired. generalize (keys_to_remove now s). intros keys.
  revert s. induction keys as [|key keys IH]; intros s; cbn; [done|].
  by rewrite IH.
Qed.

(** C2, the code at a failing input.  After the reaper pass has removed the
    only entry, the table is empty and [current_memory] still counts the two
    bytes of the entry. *)
Theorem evict_expired_leaves_current_memory :
  let k := str "k" in
  let s := set std_hash k (str "v") 1 0 (create 100) in
  let s' := evict_expired std_hash (5 * ticks_per_second) s in
  current_memory s = live_bytes s /\
  HashTable.nodes (store s') = [] /\
  live_bytes s' = 0 /\
  current_memory s' = 2.
Proof.
  intros k s s'.
  set (e := {| value := str "v"; ttl := 1; last_accessed := 0 |}).
  assert (Hs : s = {| store := HashTable.insert std_hash k e (HashTable.create 8);
                      mem_manager := MemoryManager.mk [k];
                      current_memory := 2; max_memory := 100 |}).
  { subst s. by rewrite set_create. }
  assert (Hwf : ht_wf (store s)).
  { rewrite Hs. apply insert_wf, create_wf. lia. }
  assert (Hnodes : HashTable.nodes (store s) = [(k, e)]).
  { apply (nodes_singleton std_hash); [done| |]; rewrite Hs; cbn [store].
    - rewrite get_insert by (apply create_wf; lia). by rewrite decide_True.
    - intros k' Hk'. rewrite get_insert by (apply create_wf; lia).
      rewrite decide_False by done. apply create_get. }
  assert (Hs' : s' = {| store := (HashTable.remove std_hash k (store s)).2;
                        mem_manager := MemoryManager.evict_lru_key k (mem_manager s);
                        current_memory := current_memory s;
                        max_memory := max_memory s |}).
  { subst s'. unfold evict_expired, keys_to_remove. by rewrite Hnodes. }
  assert (Hempty : HashTable.nodes (store s') = []).
  { apply (nodes_nil std_hash); rewrite Hs'; cbn [store].
    - by apply remove_wf.
    - intros k'. rewrite get_remove by done.
      destruct (decide (k = k')) as [|Hk']; [done|].
      rewrite Hs. cbn [store]. rewrite get_insert by (apply create_wf; lia).
      rewrite decide_False by done. apply create_get. }
  split; [|split; [done|split]].
  - unfold live_bytes. rewrite Hnodes, Hs. done.
  - unfold live_bytes. by rewrite Hempty.
  - rewrite Hs', Hs. done.
Qed.

(** C5, the code at a failing input.  With a budget of 10 bytes, the empty
    key is stored first and a 21-byte entry second.  The loop of
    [enforce_memory_limits] pops the empty key from the back of the queue,
    takes it for the answer of an empty queue and stops: 22 bytes are
    counted against a budget of 10 and the queue still holds a key. *)
Theorem enforce_memory_limits_stops_at_empty_key :
  let big := str "01234567890123456789" in
  let s := set std_hash (str "b") big seconds_max 1
             (set std_hash [] (str "a") seconds_max 0 (create 10)) in
  current_memory s = 22 /\ max_memory s = 10 /\
  MemoryManager.lru_queue (mem_manager s) = [str "b"].
Proof.
  intros big s. subst s. rewrite set_create by done.
  unfold set. cbn [store].
  rewrite get_insert by (apply create_wf; lia).
  rewrite decide_False by done. rewrite create_get.
  unfold enforce_memory_limits. lazy. done.
Qed.

(** C9.  [del] of a key that the table holds returns [true], takes the key
    out of the table and out of the LRU queue, keeps the entry of every other
    key and the order of the other keys in the queue, and takes
    [len(key) + len(value)] from [current_memory] (in [size_t] arithmetic,
    which is the plain difference when the counter is at least that large);
    [del] of a key that the table does not hold returns [false] and changes
    nothing. *)
Theorem del_frame s key :
  ht_wf (store s) ->
  match ht_get key (store s) with
  | Some entry =>
      let s' := (del std_hash key s).2 in
      let bytes := string_size key + string_size (value entry) in
      (del std_hash key s).1 = true /\
      ht_get key (store s') = None /\
      (forall k, k <> key -> ht_get k (store s') = ht_get k (store s)) /\
      MemoryManager.lru_queue (mem_manager s') =
        filter (λ k, k ≠ key) (MemoryManager.lru_queue (mem_manager s)) /\
      (key ∉ MemoryManager.lru_queue (mem_manager s')) /\
      current_memory s' = wrap64 (current_memory s - bytes) /\
      (bytes <= current_memory s -> current_memory s < 2 ^ 64 ->
         current_memory s' = current_memory s - bytes) /\
      max_memory s' = max_memory s
  | None => del std_hash key s = (false, s)
  end.
Proof.
  intros Hwf. unfold del.
  destruct (HashTable.get std_hash key (store s)) as [entry|] eqn:Hget; [|done].
  cbn zeta. cbn [fst snd store mem_manager current_memory max_memory].
  unfold entry_bytes.
  split; [done|]. split; [|split; [|split; [done|split; [|split; [done|split; [|done]]]]]].
  - rewrite get_remove by done. by rewrite decide_True.
  - intros k Hk. rewrite get_remove by done. by rewrite decide_False.
  - unfold MemoryManager.evict_lru_key, MemoryManager.list_remove. cbn.
    intros Hin. by apply list_elem_of_filter in Hin as [Hne _].
  - intros Hb Hc. apply wrap64_small. unfold string_size in *. lia.
Qed.

(** C10.  After [set] of [k] to the empty string, without a TTL, [get(k)]
    returns the empty string and the GET handler answers with the null bulk
    string, as they do for a key that the table does not hold; when the key
    is in the table after the [set] (the budget loop did not evict it) its
    value is the empty string, and [del(k)] returns [true] and the DEL
    handler answers [":1\r\n"]. *)
Theorem empty_value_reads_as_missing s key now now1 now2 :
  ht_wf (store s) ->
  let s1 := set std_hash key [] seconds_max now s in
  (get std_hash key now1 now2 s1).1 = [] /\
  (Server.get_handler std_hash [key] now1 now2 s1).1 = str "$-1" ++ CRLF /\
  (forall e, ht_get key (store s1) = Some e ->
     value e = [] /\
     (del std_hash key s1).1 = true /\
     (Server.del_handler std_hash [key] s1).1 = str ":1" ++ CRLF) /\
  (forall s0, ht_get key (store s0) = None ->
     (get std_hash key now1 now2 s0).1 = [] /\
     (Server.get_handler std_hash [key] now1 now2 s0).1 = str "$-1" ++ CRLF).
Proof.
  intros Hwf s1.
  set (e0 := {| value := []; ttl := seconds_max; last_accessed := now |}).
  assert (Hs1 : ht_get key (store s1) = Some e0 \/ ht_get key (store s1) = None).
  { subst s1. unfold set, enforce_memory_limits.
    match goal with |- context [enforce_loop _ ?f ?s0] =>
      destruct (enforce_loop_spec std_hash f s0) as (_ & _ & Hg) end.
    { cbn. by apply insert_wf. }
    destruct (Hg key) as [Hk|Hk]; [left|by right].
    rewrite Hk. cbn. rewrite get_insert by done. by rewrite decide_True. }
  assert (Hget : (get std_hash key now1 now2 s1).1 = []).
  { unfold get. destruct Hs1 as [-> | ->]; [|done]. cbn. done. }
  assert (Hmiss : forall s0, ht_get key (store s0) = None ->
                             (get std_hash key now1 now2 s0).1 = []).
  { intros s0 H0. unfold get. by rewrite H0. }
  assert (Hhandler : forall s0, (get std_hash key now1 now2 s0).1 = [] ->
            (Server.get_handler std_hash [key] now1 now2 s0).1 = str "$-1" ++ CRLF).
  { intros s0 H0. unfold Server.get_handler.
    change (default [] ([key] !! 0%nat)) with key.
    cbn [length Nat.eqb negb].
    destruct (get std_hash key now1 now2 s0) as [v s0']. cbn in H0. by subst v. }
  split; [done|]. split; [by apply Hhandler|]. split.
  - intros e He. destruct Hs1 as [Hs1|Hs1]; [|congruence].
    assert (e = e0) as -> by congruence.
    split; [done|]. unfold Server.del_handler, del.
    change (default [] ([key] !! 0%nat)) with key.
    cbn [length Nat.eqb negb]. by rewrite He.
  - intros s0 H0. split; [by apply Hmiss|by apply Hhandler, Hmiss].
Qed.

End StorageEngineTheorems.

(** ** The claims on the codec *)

(** C7.  Encoding a value and parsing the result gives the value back, and
    the parser consumes exactly the bytes of the encoding. *)
Theorem parse_encode_roundtrip (v : RespProtocol.RespValue) :
  RespProtocol.well_formed v = true ->
  RespProtocol.parse (RespProtocol.encode v) =
  RespProtocol.Parsed v (length (RespProtocol.encode v)).
Proof.
  intros Hwf. unfold RespProtocol.parse.
  rewrite <- (app_nil_r (RespProtocol.encode v)) at 2.
  rewrite parse_n_encode; [done|done|]. by rewrite app_nil_r.
Qed.

Lemma parse_encode_roundtrip_witness :
  RespProtocol.well_formed sample_value = true /\
  RespProtocol.parse (RespProtocol.encode sample_value) =
  RespProtocol.Parsed sample_value (length (RespProtocol.encode sample_value)).
Proof.
  split; [reflexivity|]. apply (parse_encode_roundtrip sample_value). reflexivity.
Defined.

(** C8.  Every proper prefix of the encoding of a value makes the parser
    ask for more bytes, and the whole encoding parses to the value with all
    its bytes consumed. *)
Theorem parse_partial_input (v : RespProtocol.RespValue) (i : nat) :
  RespProtocol.well_formed v = true ->
  (i < length (RespProtocol.encode v))%nat ->
  RespProtocol.parse (take i (RespProtocol.encode v)) = RespProtocol.NeedMore /\
  RespProtocol.parse (RespProtocol.encode v) =
  RespProtocol.Parsed v (length (RespProtocol.encode v)).
Proof.
  intros Hwf Hi. unfold RespProtocol.parse. split.
  - apply parse_n_prefix; [done|done|]. rewrite length_take. lia.
  - rewrite <- (app_nil_r (RespProtocol.encode v)) at 2.
    rewrite parse_n_encode; [done|done|]. by rewrite app_nil_r.
Qed.

Lemma parse_partial_input_witness :
  RespProtocol.well_formed sample_value = true /\
  (31 < length (RespProtocol.encode sample_value))%nat /\
  RespProtocol.parse (take 31 (RespProtocol.encode sample_value)) = RespProtocol.NeedMore /\
  RespProtocol.parse (RespProtocol.encode sample_value) =
  RespProtocol.Parsed sample_value (length (RespProtocol.encode sample_value)).
Proof.
  split; [reflexivity|]. split; [vm_compute; lia|].
  apply (parse_partial_input sample_value 31); [reflexivity|vm_compute; lia].
Defined.

(** ** The claim on the load factor *)

(** C6 as stated fails: twelve inserts of distinct keys leave 12 nodes in
    16 buckets, a load factor of 0.75.  The keys are [int]s and the hash is
    the identity. *)
Lemma load_factor_above_limit :
  let h := foldl (λ h key, HashTable.insert id key tt h) (HashTable.create 8)
                 (seq 0 12) in
  HashTable.reachable id h /\
  HashTable.capacity h = 16%nat /\ HashTable.size h = 12%nat /\
  (7 * HashTable.capacity h < 10 * HashTable.size h)%nat.
Proof.
  cbn zeta. split; [|vm_compute; lia].
  cbn [seq foldl]. repeat apply HashTable.reachable_insert. apply HashTable.reachable_create.
Qed.

(** C6, amended.  For a table constructed with the default capacity, after
    every [insert] and [remove] the size is below [0.7 * capacity + 1], and
    it is at least [0.2 * capacity] unless the capacity is 8. *)
Theorem load_factor_bounds {K V : Type} `{EqDecision K} (std_hash : K -> nat)
    (h : HashTable.t K V) :
  HashTable.reachable std_hash h ->
  (10 * HashTable.size h < 7 * HashTable.capacity h + 10)%nat /\
  (HashTable.capacity h = 8%nat \/ HashTable.capacity h <= 5 * HashTable.size h)%nat.
Proof. intros Hr. by apply (reachable_load_bounds std_hash) in Hr as (_ & ? & ?). Qed.

Lemma load_factor_bounds_witness :
  let h := (HashTable.remove id 3%nat
              (foldl (λ h key, HashTable.insert id key tt h) (HashTable.create 8)
                     (seq 0 12))).2 in
  HashTable.reachable id h /\
  (10 * HashTable.size h < 7 * HashTable.capacity h + 10)%nat /\
  (HashTable.capacity h = 8%nat \/ HashTable.capacity h <= 5 * HashTable.size h)%nat.
Proof.
  cbn zeta. split.
  - cbn [seq foldl]. apply HashTable.reachable_remove. repeat apply HashTable.reachable_insert.
    apply HashTable.reachable_create.
  - apply (load_factor_bounds id). cbn [seq foldl]. apply HashTable.reachable_remove.
    repeat apply HashTable.reachable_insert. apply HashTable.reachable_create.
Defined.

(** ** The claim on the SET handler *)

(** C3 as stated fails: with the seconds missing the handler stores the entry
    without a TTL and answers [+OK]; with ["-5"] for the seconds it stores
    the entry with a TTL of -5 seconds and answers [+OK]. *)
Lemma set_handler_stores_without_valid_seconds :
  let se := StorageEngine.create 100 in
  let k := str "k" in
  let r1 := Server.set_handler sample_hash [k; str "v"; str "EX"] 0 se in
  let r2 := Server.set_handler sample_hash [k; str "v"; str "EX"; str "-5"] 0 se in
  r1.1 = str "+OK" ++ CRLF /\
  HashTable.get sample_hash k (StorageEngine.store r1.2) =
    Some (StorageEngine.mkEntry (str "v") StorageEngine.seconds_max 0) /\
  r2.1 = str "+OK" ++ CRLF /\
  HashTable.get sample_hash k (StorageEngine.store r2.2) =
    Some (StorageEngine.mkEntry (str "v") (-5) 0).
Proof. vm_compute. done. Qed.

(** C3, amended.  With ["EX"] as the third argument: when a fourth argument
    is there, the handler answers with the error and leaves the store as it
    is if [std::stoi] rejects the argument, and stores the entry with the
    number that [std::stoi] reads as its TTL and answers [+OK] otherwise;
    when no fourth argument is there, it stores the entry without a TTL and
    answers [+OK]. *)
Theorem set_handler_expire (std_hash : std_string -> nat)
    (key value : std_string) (rest : list std_string) (now : Z)
    (se : StorageEngine.t) :
  Server.set_handler std_hash (key :: value :: str "EX" :: rest) now se =
  match rest with
  | [] => (str "+OK" ++ CRLF,
           StorageEngine.set std_hash key value StorageEngine.seconds_max now se)
  | seconds :: _ =>
      match stoi seconds with
      | None => (str "-ERR invalid expire time in 'set' command" ++ CRLF, se)
      | Some ttl => (str "+OK" ++ CRLF, StorageEngine.set std_hash key value ttl now se)
      end
  end.
Proof.
  unfold Server.set_handler. destruct rest as [|seconds rest]; [done|].
  cbn [length Nat.ltb Nat.leb]. rewrite bool_decide_eq_true_2 by done.
  cbn [andb]. change (default [] ((key :: value :: str "EX" :: seconds :: rest) !! 3%nat))
    with seconds.
  by destruct (stoi seconds).
Qed.

(** ** Connection: command framing *)

Section ProcessCommandsProofs.
Import Connection.

Context {ServerState : Type}.
Variable execute_command :
  std_string -> list std_string -> ServerState -> std_string * ServerState.

Implicit Types (c : Connection.t) (srv : ServerState) (buf : std_string).

Lemma string_find_crlf_ge buf (pos end_pos : nat) :
  string_find_crlf buf pos = Some end_pos -> (pos <= end_pos)%nat.
Proof.
  unfold string_find_crlf. destruct (find_crlf (drop pos buf)); cbn; [|done].
  intros [= <-]. lia.
Qed.

Lemma read_elements_ge buf (n : nat) :
  forall (pos : nat) (args args' : list std_string) (pos' : nat),
  read_elements buf n pos args = Frame args' pos' -> (pos <= pos')%nat.
Proof.
  induction n as [|n IH]; intros pos args args' pos'; cbn [read_elements].
  - intros [= _ <-]. lia.
  - destruct (_ || _); [done|].
    destruct (string_find_crlf buf pos) as [len_end|] eqn:E; [|done].
    apply string_find_crlf_ge in E.
    destruct (stoi _) as [bulk_len|]; [|done].
    destruct (bulk_len <? 0).
    + intros Hr. apply IH in Hr. lia.
    + destruct (_ <? _)%nat; [done|]. intros Hr. apply IH in Hr. lia.
Qed.

(** [process_commands] returns: the fuel it starts with covers every run of
    the loop. *)
Lemma process_loop_returns (fuel : nat) :
  forall (pos : nat) c srv,
  (2 * length (input_buffer_ c) - pos < fuel)%nat ->
  (pos <= length (input_buffer_ c))%nat ->
  is_Some (process_loop execute_command fuel pos c srv).
Proof.
  induction fuel as [|fuel IH]; intros pos c srv Hfuel Hpos; [lia|].
  cbn [process_loop].
  destruct (Nat.ltb_spec pos (length (input_buffer_ c))) as [Hlt|Hge]; [|done].
  destruct (char_at_is (input_buffer_ c) pos "*").
  - destruct (string_find_crlf (input_buffer_ c) pos) as [end_pos|] eqn:E; [|done].
    apply string_find_crlf_ge in E.
    destruct (stoi _) as [array_size|]; [|done].
    destruct (array_size <=? 0); [done|].
    destruct (read_elements _ _ _ _) as [| |args current_pos] eqn:Er; [done|done|].
    apply read_elements_ge in Er.
    assert (Hdrop : forall c' srv',
              input_buffer_ c' = input_buffer_ c ->
              is_Some (process_loop execute_command fuel 0
                         {| state_ := state_ c';
                            input_buffer_ := drop current_pos (input_buffer_ c');
                            output_queue_ := output_queue_ c' |} srv')).
    { intros c' srv' Hb. apply IH; cbn; rewrite Hb, length_drop; lia. }
    destruct args as [|command command_args]; [by apply Hdrop|].
    destruct (execute_command _ _ _) as [response srv'].
    apply Hdrop. unfold add_response. by destruct (state_ c).
  - apply IH; lia.
Qed.

Lemma process_commands_returns c srv :
  is_Some (process_commands execute_command c srv).
Proof. unfold process_commands. apply process_loop_returns; lia. Qed.

(** The loop steps over bytes that are not ['*']. *)
Lemma process_loop_scan (k : nat) :
  forall (fuel pos : nat) c srv,
  (forall i, (pos <= i < pos + k)%nat ->
             (i < length (input_buffer_ c))%nat /\
             char_at_is (input_buffer_ c) i "*" = false) ->
  process_loop execute_command (k + fuel) pos c srv =
  process_loop execute_command fuel (pos + k) c srv.
Proof.
  induction k as [|k IH]; intros fuel pos c srv Hjunk.
  - by rewrite Nat.add_0_r.
  - cbn [Nat.add process_loop].
    destruct (Hjunk pos ltac:(lia)) as [Hlt Hch].
    destruct (Nat.ltb_spec pos (length (input_buffer_ c))); [|lia].
    rewrite Hch, IH; [f_equal; lia|].
    intros i Hi. apply Hjunk. lia.
Qed.

Lemma char_at_is_app_l (junk rest : std_string) (i : nat) (ch : ascii) :
  (i < length junk)%nat -> char_at_is (junk ++ rest) i ch = char_at_is junk i ch.
Proof. intros Hi. unfold char_at_is. by rewrite lookup_app_l. Qed.

Lemma char_at_is_no_star (junk : std_string) (i : nat) :
  no_star junk -> char_at_is junk i "*" = false.
Proof.
  intros Hj. unfold char_at_is. destruct (junk !! i) as [ch|] eqn:E; [|done].
  exact (Forall_lookup_1 _ _ _ _ Hj E).
Qed.

Lemma char_at_is_middle (junk rest : std_string) (ch : ascii) :
  char_at_is (junk ++ ch :: rest) (length junk) ch = true.
Proof.
  unfold char_at_is. rewrite list_lookup_middle by done.
  unfold ascii_eqb. apply Ascii.eqb_refl.
Qed.

(** After the junk, the loop is at the ['*'] with fuel left. *)
Lemma process_commands_skip (junk rest : std_string) c srv :
  no_star junk -> input_buffer_ c = junk ++ rest ->
  exists fuel : nat,
  process_commands execute_command c srv =
  process_loop execute_command (S fuel) (length junk) c srv.
Proof.
  intros Hj Hbuf. unfold process_commands.
  exists (2 * length (input_buffer_ c) - length junk)%nat.
  assert (Hlen : (length junk <= length (input_buffer_ c))%nat)
    by (rewrite Hbuf, length_app; lia).
  replace (2 * length (input_buffer_ c) + 1)%nat
    with (length junk + S (2 * length (input_buffer_ c) - length junk))%nat by lia.
  rewrite process_loop_scan; [done|].
  intros i Hi. split; [lia|].
  rewrite Hbuf, char_at_is_app_l by lia. by apply char_at_is_no_star.
Qed.

Lemma find_crlf_tag (tag : ascii) (s : std_string) :
  ascii_eqb tag CR = false -> find_crlf s = None -> find_crlf (tag :: s) = None.
Proof.
  intros Htag Hs. destruct s as [|c2 tl]; [done|].
  by rewrite find_crlf_cons, Htag, Hs.
Qed.

(** The field between a tag byte at [length junk] and the next CRLF. *)
Lemma field_at (junk field rest : std_string) (tag : ascii) :
  ascii_eqb tag CR = false -> find_crlf field = None ->
  let buf := junk ++ tag :: field ++ CRLF ++ rest in
  let end_pos := (length junk + S (length field))%nat in
  string_find_crlf buf (length junk) = Some end_pos /\
  substr buf (length junk + 1) (end_pos - length junk - 1) = field.
Proof.
  intros Htag Hf. cbn zeta. split.
  - unfold string_find_crlf. rewrite drop_app_length.
    change (tag :: field ++ CRLF ++ rest) with ((tag :: field) ++ CRLF ++ rest).
    rewrite find_crlf_app_crlf by by apply find_crlf_tag. done.
  - replace (junk ++ tag :: field ++ CRLF ++ rest)
      with ((junk ++ [tag]) ++ field ++ CRLF ++ rest)
      by by rewrite <- (assoc_L (++)).
    replace (length junk + 1)%nat with (length (junk ++ [tag]))
      by (rewrite length_app; cbn; lia).
    replace (length junk + S (length field) - length junk - 1)%nat
      with (length field) by lia.
    apply substr_middle.
Qed.

(** The element loop reads one bulk string that is all there. *)
Lemma read_elements_bulk (pre s rest : std_string) (n : nat) (args : list std_string) :
  string_size s <= INT_MAX ->
  read_elements (pre ++ RespProtocol.encodeBulkString s ++ rest) (S n) (length pre) args =
  read_elements (pre ++ RespProtocol.encodeBulkString s ++ rest) n
    (length pre + length (RespProtocol.encodeBulkString s)) (args ++ [s]).
Proof.
  intros Hs. cbn [read_elements].
  set (ds := to_string (string_size s)).
  assert (Henc : RespProtocol.encodeBulkString s ++ rest =
                 "$"%char :: ds ++ CRLF ++ (s ++ CRLF ++ rest)).
  { unfold RespProtocol.encodeBulkString. by rewrite <- !(assoc_L (++)). }
  assert (Hlenc : length (RespProtocol.encodeBulkString s) =
                  (S (length ds) + 2 + length s + 2)%nat).
  { unfold RespProtocol.encodeBulkString. rewrite !length_app. subst ds.
    cbn [length str list_ascii_of_string CRLF]. lia. }
  rewrite Henc, Hlenc.
  destruct (Nat.leb_spec (length (pre ++ "$"%char :: ds ++ CRLF ++ s ++ CRLF ++ rest))
              (length pre)) as [Hle|_].
  { rewrite length_app in Hle. cbn in Hle. lia. }
  rewrite char_at_is_middle. cbn [negb orb].
  destruct (field_at pre ds (s ++ CRLF ++ rest) "$" eq_refl (find_crlf_to_string _))
    as [-> ->].
  unfold stoi. subst ds. rewrite sto_to_string
    by (unfold string_size, INT_MIN, INT_MAX in *; lia).
  set (ds := to_string (string_size s)).
  destruct (Z.ltb_spec (string_size s) 0); [unfold string_size in *; lia|].
  replace (Z.to_nat (string_size s)) with (length s) by (unfold string_size; lia).
  destruct (Nat.ltb_spec (length (pre ++ "$"%char :: ds ++ CRLF ++ s ++ CRLF ++ rest))
              (length pre + S (length ds) + 2 + length s + 2)) as [Hlt|_].
  { rewrite length_app, length_cons, !length_app in Hlt. cbn in Hlt. lia. }
  replace (pre ++ "$"%char :: ds ++ CRLF ++ s ++ CRLF ++ rest)
    with ((pre ++ "$"%char :: ds ++ CRLF) ++ s ++ CRLF ++ rest).
  2:{ rewrite <- (assoc_L (++)). cbn. by rewrite <- (assoc_L (++)). }
  replace (length pre + S (length ds) + 2)%nat with (length (pre ++ "$"%char :: ds ++ CRLF))
    by (rewrite length_app, length_cons, length_app; cbn; lia).
  rewrite substr_middle. f_equal. rewrite !length_app, length_cons, !length_app. cbn. lia.
Qed.

Lemma read_elements_bulks (elements : list std_string) :
  forall (pre rest : std_string) (n : nat) (args : list std_string),
  Forall (λ s, string_size s <= INT_MAX) elements ->
  read_elements (pre ++ flat_map RespProtocol.encodeBulkString elements ++ rest)
    (length elements + n) (length pre) args =
  read_elements (pre ++ flat_map RespProtocol.encodeBulkString elements ++ rest) n
    (length pre + length (flat_map RespProtocol.encodeBulkString elements))
    (args ++ elements).
Proof.
  induction elements as [|s elements IH]; intros pre rest n args Hall.
  - cbn. by rewrite Nat.add_0_r, app_nil_r.
  - inversion_clear Hall as [|? ? Hs Hall'].
    cbn [length flat_map Nat.add]. rewrite <- (assoc_L (++)).
    rewrite read_elements_bulk by done.
    rewrite (assoc_L (++) pre), <- length_app, IH by done.
    f_equal; [rewrite !length_app; lia|by rewrite <- (assoc_L (++))].
Qed.

(** More fuel does not change what the loop returns. *)
Lemma process_loop_mono (fuel : nat) :
  forall (fuel' pos : nat) c srv r,
  (fuel <= fuel')%nat ->
  process_loop execute_command fuel pos c srv = Some r ->
  process_loop execute_command fuel' pos c srv = Some r.
Proof.
  induction fuel as [|fuel IH]; intros fuel' pos c srv r Hle; [done|].
  destruct fuel' as [|fuel']; [lia|]. cbn [process_loop].
  destruct (pos <? length (input_buffer_ c))%nat; [|done].
  destruct (char_at_is (input_buffer_ c) pos "*").
  - destruct (string_find_crlf _ _); [|done].
    destruct (stoi _) as [array_size|]; [|done].
    destruct (array_size <=? 0); [done|].
    destruct (read_elements _ _ _ _) as [| |args current_pos]; [done|done|].
    destruct args as [|command command_args]; [apply IH; lia|].
    destruct (execute_command _ _ _). apply IH. lia.
  - apply IH. lia.
Qed.

(** What some run of the loop returns is what [process_commands] returns. *)
Lemma process_commands_of_loop (fuel : nat) c srv r :
  process_loop execute_command fuel 0 c srv = Some r ->
  process_commands execute_command c srv = Some r.
Proof.
  intros Hloop. destruct (process_commands_returns c srv) as [r' Hr].
  unfold process_commands in *.
  destruct (Nat.le_ge_cases fuel (2 * length (input_buffer_ c) + 1)) as [Hle|Hge].
  - by apply (process_loop_mono _ _ _ _ _ _ Hle).
  - rewrite Hr. rewrite <- Hloop. symmetry.
    by apply (process_loop_mono _ _ _ _ _ _ Hge).
Qed.

(** The element loop takes one element that is all there. *)
Lemma read_elements_element (pre bytes arg rest : std_string) (n : nat)
    (acc : list std_string) :
  element bytes arg ->
  read_elements (pre ++ bytes ++ rest) (S n) (length pre) acc =
  read_elements (pre ++ bytes ++ rest) n (length pre + length bytes) (acc ++ [arg]).
Proof.
  intros He.
  destruct He as [field data b1 b2 Hf Hs|field len Hf Hs Hneg]; cbn [read_elements].
  - assert (Hbuf : pre ++ ("$"%char :: field ++ CRLF ++ data ++ [b1; b2]) ++ rest =
                   pre ++ "$"%char :: field ++ CRLF ++ (data ++ [b1; b2] ++ rest)).
    { cbn [app]. by rewrite <- !(assoc_L (++)). }
    assert (Hlen : length ("$"%char :: field ++ CRLF ++ data ++ [b1; b2]) =
                   (S (length field) + 2 + length data + 2)%nat).
    { cbn [length]. rewrite !length_app. cbn. lia. }
    rewrite Hbuf, Hlen.
    destruct (Nat.leb_spec
                (length (pre ++ "$"%char :: field ++ CRLF ++ data ++ [b1; b2] ++ rest))
                (length pre)) as [Hle|_].
    { rewrite length_app in Hle. cbn in Hle. lia. }
    rewrite char_at_is_middle. cbn [negb orb].
    destruct (field_at pre field (data ++ [b1; b2] ++ rest) "$"%char eq_refl Hf)
      as [-> ->].
    rewrite Hs.
    destruct (Z.ltb_spec (string_size data) 0); [unfold string_size in *; lia|].
    replace (Z.to_nat (string_size data)) with (length data)
      by (unfold string_size; lia).
    destruct (Nat.ltb_spec
                (length (pre ++ "$"%char :: field ++ CRLF ++ data ++ [b1; b2] ++ rest))
                (length pre + S (length field) + 2 + length data + 2)) as [Hlt|_].
    { rewrite length_app, length_cons, !length_app in Hlt. cbn in Hlt. lia. }
    replace (pre ++ "$"%char :: field ++ CRLF ++ data ++ [b1; b2] ++ rest)
      with ((pre ++ "$"%char :: field ++ CRLF) ++ data ++ [b1; b2] ++ rest).
    2:{ rewrite <- (assoc_L (++)). cbn. by rewrite <- (assoc_L (++)). }
    replace (length pre + S (length field) + 2)%nat
      with (length (pre ++ "$"%char :: field ++ CRLF))
      by (rewrite length_app, length_cons, length_app; cbn; lia).
    rewrite substr_middle. f_equal.
    rewrite !length_app, length_cons, !length_app. cbn. lia.
  - assert (Hbuf : pre ++ ("$"%char :: field ++ CRLF) ++ rest =
                   pre ++ "$"%char :: field ++ CRLF ++ rest).
    { cbn [app]. by rewrite <- !(assoc_L (++)). }
    rewrite Hbuf.
    destruct (Nat.leb_spec (length (pre ++ "$"%char :: field ++ CRLF ++ rest))
                (length pre)) as [Hle|_].
    { rewrite length_app in Hle. cbn in Hle. lia. }
    rewrite char_at_is_middle. cbn [negb orb].
    destruct (field_at pre field rest "$"%char eq_refl Hf) as [-> ->].
    rewrite Hs. destruct (Z.ltb_spec len 0); [|lia].
    f_equal. cbn [length]. rewrite length_app. cbn. lia.
Qed.

Lemma read_elements_elements (body : std_string) (args : list std_string) :
  elements body args ->
  forall (pre rest : std_string) (n : nat) (acc : list std_string),
  read_elements (pre ++ body ++ rest) (length args + n) (length pre) acc =
  read_elements (pre ++ body ++ rest) n (length pre + length body) (acc ++ args).
Proof.
  induction 1 as [|bytes arg body args He _ IH]; intros pre rest n acc.
  - cbn. by rewrite Nat.add_0_r, app_nil_r.
  - cbn [length Nat.add]. rewrite <- (assoc_L (++)).
    rewrite (read_elements_element pre bytes arg) by done.
    rewrite (assoc_L (++) pre), <- length_app, IH.
    f_equal; [rewrite !length_app; lia|by rewrite <- (assoc_L (++))].
Qed.

(** One turn of the loop at a complete command, after bytes that it has
    stepped over. *)
Lemma process_loop_command_frame (fuel : nat) c srv (junk bytes rest : std_string)
    (cmd : std_string * list std_string) :
  command_frame bytes cmd ->
  input_buffer_ c = junk ++ bytes ++ rest ->
  process_loop execute_command (S fuel) (length junk) c srv =
  process_loop execute_command fuel 0
    {| state_ := state_ c; input_buffer_ := rest;
       output_queue_ :=
         queue_after c [(execute_command (to_upper cmd.1) cmd.2 srv).1] |}
    (execute_command (to_upper cmd.1) cmd.2 srv).2.
Proof.
  intros Hframe Hbuf.
  destruct Hframe as [count body command args Hc Hn Hel]. cbn [fst snd].
  assert (Hbuf1 : input_buffer_ c = junk ++ "*"%char :: count ++ CRLF ++ (body ++ rest)).
  { rewrite Hbuf. cbn [app]. by rewrite <- !(assoc_L (++)). }
  cbn [process_loop].
  destruct (Nat.ltb_spec (length junk) (length (input_buffer_ c))) as [_|Hge].
  2:{ rewrite Hbuf1, length_app in Hge. cbn in Hge. lia. }
  rewrite Hbuf1 at 1. rewrite char_at_is_middle.
  destruct (field_at junk count (body ++ rest) "*"%char eq_refl Hc) as [Hfind Hfield].
  cbn zeta in Hfind, Hfield. rewrite <- Hbuf1 in Hfind, Hfield.
  rewrite Hfind, Hfield, Hn.
  destruct (Z.leb_spec (Z.of_nat (length (command :: args))) 0) as [Hle|_].
  { cbn [length] in Hle. lia. }
  set (pre := junk ++ "*"%char :: count ++ CRLF).
  assert (Hbuf2 : input_buffer_ c = pre ++ body ++ rest).
  { rewrite Hbuf1. subst pre. rewrite <- (assoc_L (++)). cbn [app].
    by rewrite <- !(assoc_L (++)). }
  assert (Hpre : (length junk + S (length count) + 2)%nat = length pre).
  { subst pre. rewrite length_app, length_cons, length_app. cbn. lia. }
  rewrite Hpre.
  replace (Z.to_nat (Z.of_nat (length (command :: args))))
    with (length (command :: args) + 0)%nat by lia.
  rewrite Hbuf2 at 1.
  rewrite (read_elements_elements body (command :: args) Hel pre rest 0 []).
  cbn [read_elements app].
  assert (Hdrop : forall c', input_buffer_ c' = input_buffer_ c ->
            drop (length pre + length body) (input_buffer_ c') = rest).
  { intros c' ->. rewrite Hbuf2, (assoc_L (++)), <- length_app.
    by rewrite drop_app_length. }
  destruct (execute_command (to_upper command) args srv) as [response srv'].
  cbn [fst snd].
  assert (Hib : input_buffer_ (add_response response c) = input_buffer_ c)
    by (clear; destruct c as [[] ? ?]; reflexivity).
  assert (Hsc : state_ (add_response response c) = state_ c)
    by (clear; destruct c as [[] ? ?]; reflexivity).
  assert (Hq : output_queue_ (add_response response c) = queue_after c [response])
    by (clear; destruct c as [[] ? ?]; reflexivity).
  by rewrite (Hdrop _ Hib), Hsc, Hq.
Qed.

(** The loop at position [pos] within bytes that are not ['*'] goes on to
    their end. *)
Lemma process_loop_skip_junk (fuel : nat) c srv (junk rest : std_string) :
  no_star junk -> input_buffer_ c = junk ++ rest ->
  process_loop execute_command (length junk + fuel) 0 c srv =
  process_loop execute_command fuel (length junk) c srv.
Proof.
  intros Hj Hbuf. rewrite process_loop_scan; [done|].
  intros i Hi. rewrite Hbuf, length_app. split; [lia|].
  rewrite char_at_is_app_l by lia. by apply char_at_is_no_star.
Qed.

Lemma queue_after_app c (rs1 rs2 : list std_string) (buf : std_string) :
  queue_after {| state_ := state_ c; input_buffer_ := buf;
                 output_queue_ := queue_after c rs1 |} rs2 =
  queue_after c (rs1 ++ rs2).
Proof.
  unfold queue_after. cbn. destruct (state_ c); [|done..].
  by rewrite <- (assoc_L (++)).
Qed.

(** Complete commands at the front of the buffer: the loop executes them in
    order and goes on with what follows them. *)
Lemma process_loop_framed (front : std_string)
    (cmds : list (std_string * list std_string)) :
  framed front cmds ->
  forall c srv (tail : std_string) (fuel : nat) r,
  input_buffer_ c = front ++ tail ->
  process_loop execute_command fuel 0
    {| state_ := state_ c; input_buffer_ := tail;
       output_queue_ := queue_after c (run_commands execute_command cmds srv).1 |}
    (run_commands execute_command cmds srv).2 = Some r ->
  exists fuel' : nat, process_loop execute_command fuel' 0 c srv = Some r.
Proof.
  induction 1 as [|junk bytes cmd rest cmds Hj Hframe _ IH];
    intros c srv tail fuel r Hbuf Hrun.
  - exists fuel. cbn [run_commands fst snd] in Hrun. cbn [app] in Hbuf.
    replace c with {| state_ := state_ c; input_buffer_ := tail;
                      output_queue_ := queue_after c [] |}; [done|].
    destruct c as [st ib oq]. cbn in *. subst ib. unfold queue_after. cbn.
    f_equal. destruct st; by rewrite ?app_nil_r.
  - rewrite <- !(assoc_L (++)) in Hbuf.
    cbn [run_commands] in Hrun. destruct cmd as [command args].
    destruct (execute_command (to_upper command) args srv) as [response srv1] eqn:Hex.
    destruct (run_commands execute_command cmds srv1) as [responses srv2] eqn:Hrest.
    cbn [fst snd] in Hrun.
    set (c1 := {| state_ := state_ c; input_buffer_ := rest ++ tail;
                  output_queue_ := queue_after c [response] |}).
    destruct (IH c1 srv1 tail fuel r) as [fuel1 Hloop1]; [done| |].
    { rewrite Hrest. cbn [fst snd]. subst c1. cbn [state_].
      rewrite queue_after_app. done. }
    exists (length junk + S fuel1)%nat.
    rewrite (process_loop_skip_junk _ c srv junk _ Hj Hbuf).
    rewrite (process_loop_command_frame fuel1 c srv junk bytes (rest ++ tail)
               (command, args) Hframe Hbuf).
    cbn [fst snd]. by rewrite Hex.
Qed.

End ProcessCommandsProofs.

(** ** The claim on command framing *)

(** C4 as stated fails: [process_commands] steps over bytes that are not
    ['*'] and returns [true].  On ["PING\r\n"] it leaves the buffer as it is
    and answers nothing; on ["HELLO"] followed by a PING command it drops
    ["HELLO"] with the command and answers the command. *)
Lemma process_commands_skips_unknown_bytes :
  let se := StorageEngine.create 100 in
  let c1 := Connection.mk Connection.CONNECTED (str "PING" ++ CRLF) [] in
  let c2 := Connection.mk Connection.CONNECTED
              (str "HELLO*1" ++ CRLF ++ str "$4" ++ CRLF ++ str "PING" ++ CRLF) [] in
  Connection.process_commands sample_execute c1 se = Some (true, c1, se) /\
  Connection.process_commands sample_execute c2 se =
    Some (true,
          Connection.mk Connection.CONNECTED []
            [str "-ERR unknown command 'PING'" ++ CRLF],
          se).
Proof. vm_compute. done. Qed.

(** Behind what it has stepped over, the loop meets a field that it does not
    read, or the end of the buffer: it returns and changes nothing. *)
Lemma process_commands_unframed_tail {ServerState : Type}
    (execute_command :
       std_string -> list std_string -> ServerState -> std_string * ServerState)
    (c : Connection.t) (srv : ServerState) (ok : bool) :
  Connection.unframed (Connection.input_buffer_ c) ok ->
  Connection.process_commands execute_command c srv = Some (ok, c, srv).
Proof.
  intros Hu. remember (Connection.input_buffer_ c) as buf eqn:Hbuf.
  destruct Hu as [buf Hns|junk field rest Hj Hf Hbad
                 |junk count n body args field rest Hj Hc Hn Hpos Hel Hf Hbad].
  - unfold Connection.process_commands.
    replace (2 * length (Connection.input_buffer_ c) + 1)%nat
      with (length (Connection.input_buffer_ c) + S (length (Connection.input_buffer_ c)))%nat
      by lia.
    rewrite process_loop_scan.
    + cbn [Connection.process_loop Nat.add].
      by destruct (Nat.ltb_spec (length (Connection.input_buffer_ c))
                     (length (Connection.input_buffer_ c))); [lia|].
    + intros i Hi. split; [lia|]. rewrite <- Hbuf. by apply char_at_is_no_star.
  - destruct (process_commands_skip execute_command junk _ c srv Hj (eq_sym Hbuf))
      as [fuel ->].
    cbn [Connection.process_loop]. rewrite <- Hbuf.
    destruct (Nat.ltb_spec (length junk)
                (length (junk ++ "*"%char :: field ++ CRLF ++ rest))) as [_|Hge].
    2:{ rewrite length_app in Hge. cbn in Hge. lia. }
    rewrite char_at_is_middle.
    destruct (field_at junk field rest "*" eq_refl Hf) as [-> ->].
    destruct (stoi field) as [m|]; [|done].
    by destruct (Z.leb_spec m 0); [|lia].
  - destruct (process_commands_skip execute_command junk _ c srv Hj (eq_sym Hbuf))
      as [fuel ->].
    cbn [Connection.process_loop]. rewrite <- Hbuf.
    set (bad := "$"%char :: field ++ CRLF ++ rest).
    destruct (Nat.ltb_spec (length junk)
                (length (junk ++ "*"%char :: count ++ CRLF ++ body ++ bad))) as [_|Hge].
    2:{ rewrite length_app in Hge. cbn in Hge. lia. }
    rewrite char_at_is_middle.
    destruct (field_at junk count (body ++ bad) "*" eq_refl Hc) as [-> ->].
    rewrite Hn. destruct (Z.leb_spec n 0); [lia|].
    replace (Z.to_nat n) with (length args + S (Z.to_nat n - length args - 1))%nat
      by lia.
    set (pre := junk ++ "*"%char :: count ++ CRLF).
    assert (Hpre : junk ++ "*"%char :: count ++ CRLF ++ body ++ bad = pre ++ body ++ bad).
    { subst pre. rewrite <- (assoc_L (++)). cbn. by rewrite <- (assoc_L (++)). }
    assert (Hlen : (length junk + S (length count) + 2)%nat = length pre).
    { subst pre. rewrite length_app, length_cons, length_app. cbn. lia. }
    rewrite Hpre, Hlen.
    rewrite (read_elements_elements body args Hel).
    cbn [Connection.read_elements].
    rewrite (assoc_L (++) pre), <- length_app. subst bad.
    destruct (Nat.leb_spec
                (length ((pre ++ body) ++ "$"%char :: field ++ CRLF ++ rest))
                (length (pre ++ body)))
      as [Hle|_].
    { rewrite (length_app (pre ++ _)) in Hle. cbn in Hle. lia. }
    rewrite char_at_is_middle. cbn [negb orb].
    destruct (field_at (pre ++ body) field rest "$" eq_refl Hf) as [-> ->].
    by rewrite Hbad.
Qed.

(** C4, amended.  Wherever [process_commands] meets them, at the head of
    the buffer or behind any number of complete commands, a count field or a
    length field that [std::stoi] rejects and a count that is not positive
    make it return [false] (the server then closes the connection); bytes
    that are not ['*'] are stepped over, and when only such bytes are left
    it returns [true].  The complete commands before that point have been
    given to the server in order and their responses queued, and the input
    buffer holds what follows the last of them; with no complete command
    before that point, the connection and the server are left as they
    were. *)
Theorem process_commands_unframed {ServerState : Type}
    (execute_command :
       std_string -> list std_string -> ServerState -> std_string * ServerState)
    (c : Connection.t) (srv : ServerState) (front tail : std_string)
    (cmds : list (std_string * list std_string)) (ok : bool) :
  Connection.framed front cmds ->
  Connection.unframed tail ok ->
  Connection.input_buffer_ c = front ++ tail ->
  let c' := {| Connection.state_ := Connection.state_ c;
               Connection.input_buffer_ := tail;
               Connection.output_queue_ :=
                 Connection.queue_after c
                   (Connection.run_commands execute_command cmds srv).1 |} in
  let srv' := (Connection.run_commands execute_command cmds srv).2 in
  Connection.process_commands execute_command c srv = Some (ok, c', srv') /\
  (cmds = [] -> c' = c /\ srv' = srv).
Proof.
  intros Hfront Htail Hbuf. cbn zeta. split.
  - match goal with |- _ = Some (_, ?c1, ?srv1) =>
      pose proof (process_commands_unframed_tail execute_command c1 srv1 ok Htail)
        as Hrun end.
    unfold Connection.process_commands in Hrun.
    destruct (process_loop_framed execute_command front cmds Hfront c srv tail _ _
                Hbuf Hrun) as [fuel Hloop].
    by apply (process_commands_of_loop execute_command fuel).
  - intros ->. inversion Hfront as [|? ? ? ? ? ? ? ? Hf Hc]; subst.
    cbn [Connection.run_commands fst snd app] in *. split; [|done].
    destruct c as [st ib oq]. cbn in *. subst ib. unfold Connection.queue_after. cbn.
    f_equal. destruct st; by rewrite ?app_nil_r.
Qed.

Lemma process_commands_unframed_witness :
  let front := str "HELLO*3" ++ CRLF ++ str "$3" ++ CRLF ++ str "set" ++ CRLF ++
               str "$1" ++ CRLF ++ str "k" ++ CRLF ++ str "$-1" ++ CRLF in
  let tail := str "xy*2" ++ CRLF ++ str "$03" ++ CRLF ++ str "GET" ++ CRLF ++
              str "$abc" ++ CRLF ++ str "k" ++ CRLF in
  let c := Connection.mk Connection.CONNECTED (front ++ tail) [] in
  let se := StorageEngine.create 100 in
  Connection.framed front [(str "set", [str "k"; []])] /\
  Connection.unframed tail false /\
  Connection.process_commands sample_execute c se =
  Some (false,
        Connection.mk Connection.CONNECTED tail [str "+OK" ++ CRLF],
        StorageEngine.set sample_hash (str "k") [] StorageEngine.seconds_max 0 se).
Proof.
  cbn zeta.
  assert (Hno : forall s : std_string,
            forallb (λ ch, negb (ascii_eqb ch "*")) s = true -> Connection.no_star s).
  { intros s Hs. apply Forall_forall. intros ch Hin.
    rewrite forallb_forall in Hs. apply list_elem_of_In, Hs in Hin.
    by destruct (ascii_eqb ch "*"). }
  assert (Hf : Connection.framed
                 (str "HELLO*3" ++ CRLF ++ str "$3" ++ CRLF ++ str "set" ++ CRLF ++
                  str "$1" ++ CRLF ++ str "k" ++ CRLF ++ str "$-1" ++ CRLF)
                 [(str "set", [str "k"; []])]).
  { apply (Connection.framed_cons (str "HELLO")
             (str "*3" ++ CRLF ++ str "$3" ++ CRLF ++ str "set" ++ CRLF ++
              str "$1" ++ CRLF ++ str "k" ++ CRLF ++ str "$-1" ++ CRLF)
             (str "set", [str "k"; []]) [] []);
      [apply Hno; reflexivity| |constructor].
    apply (Connection.command_frame_intro (str "3")
             (str "$3" ++ CRLF ++ str "set" ++ CRLF ++
              str "$1" ++ CRLF ++ str "k" ++ CRLF ++ str "$-1" ++ CRLF)
             (str "set") [str "k"; []]); [reflexivity|reflexivity|].
    apply (Connection.elements_cons (str "$3" ++ CRLF ++ str "set" ++ CRLF) (str "set")
             (str "$1" ++ CRLF ++ str "k" ++ CRLF ++ str "$-1" ++ CRLF) [str "k"; []]).
    { apply (Connection.element_data (str "3") (str "set") CR LF); reflexivity. }
    apply (Connection.elements_cons (str "$1" ++ CRLF ++ str "k" ++ CRLF) (str "k")
             (str "$-1" ++ CRLF) [[]]).
    { apply (Connection.element_data (str "1") (str "k") CR LF); reflexivity. }
    apply (Connection.elements_cons (str "$-1" ++ CRLF) [] [] []); [|constructor].
    apply (Connection.element_null (str "-1") (-1)); reflexivity. }
  assert (Hu : Connection.unframed
                 (str "xy*2" ++ CRLF ++ str "$03" ++ CRLF ++ str "GET" ++ CRLF ++
                  str "$abc" ++ CRLF ++ str "k" ++ CRLF) false).
  { apply (Connection.unframed_bad_length (str "xy") (str "2") 2
             (str "$03" ++ CRLF ++ str "GET" ++ CRLF) [str "GET"]
             (str "abc") (str "k" ++ CRLF)); try reflexivity.
    - apply Hno. reflexivity.
    - apply (Connection.elements_cons (str "$03" ++ CRLF ++ str "GET" ++ CRLF) (str "GET")
               [] []); [|constructor].
      apply (Connection.element_data (str "03") (str "GET") CR LF); reflexivity. }
  split; [exact Hf|]. split; [exact Hu|].
  exact (proj1 (process_commands_unframed sample_execute
                  (Connection.mk Connection.CONNECTED _ []) (StorageEngine.create 100)
                  _ _ _ false Hf Hu eq_refl)).
Defined.

(** ** The claims on the store, at concrete stores *)

Lemma sample_store_wf : HashTable.wf sample_hash (StorageEngine.store sample_store).
Proof. unfold sample_store. do 2 apply set_wf. apply create_store_wf. Qed.

Lemma del_frame_witness :
  HashTable.wf sample_hash (StorageEngine.store sample_store) /\
  (StorageEngine.del sample_hash (str "a") sample_store).1 = true /\
  HashTable.get sample_hash (str "a")
    (StorageEngine.store (StorageEngine.del sample_hash (str "a") sample_store).2) = None /\
  HashTable.get sample_hash (str "b")
    (StorageEngine.store (StorageEngine.del sample_hash (str "a") sample_store).2) =
  HashTable.get sample_hash (str "b") (StorageEngine.store sample_store) /\
  StorageEngine.current_memory (StorageEngine.del sample_hash (str "a") sample_store).2 = 3.
Proof.
  split; [exact sample_store_wf|].
  pose proof (del_frame sample_hash sample_store (str "a") sample_store_wf) as H.
  destruct (HashTable.get sample_hash (str "a") (StorageEngine.store sample_store))
    as [entry|] eqn:E; [|vm_compute in E; discriminate E].
  cbn zeta in H. destruct H as (H1 & H2 & H3 & _ & _ & H6 & _).
  split; [exact H1|]. split; [exact H2|]. split.
  - apply H3. intros Hk. discriminate Hk.
  - rewrite H6. vm_compute in E. injection E as <-. reflexivity.
Defined.

Lemma empty_value_reads_as_missing_witness :
  let s := StorageEngine.create 100 in
  let k := str "k" in
  let s1 := StorageEngine.set sample_hash k [] StorageEngine.seconds_max 0 s in
  HashTable.wf sample_hash (StorageEngine.store s) /\
  (StorageEngine.get sample_hash k 1 1 s1).1 = [] /\
  (Server.get_handler sample_hash [k] 1 1 s1).1 = str "$-1" ++ CRLF /\
  (StorageEngine.del sample_hash k s1).1 = true /\
  (Server.del_handler sample_hash [k] s1).1 = str ":1" ++ CRLF.
Proof.
  cbn zeta. split; [apply create_store_wf|].
  pose proof (empty_value_reads_as_missing sample_hash (StorageEngine.create 100)
                (str "k") 0 1 1 (create_store_wf sample_hash 100)) as H.
  cbn zeta in H. destruct H as (H1 & H2 & H3 & _).
  split; [exact H1|]. split; [exact H2|].
  apply (H3 (StorageEngine.mkEntry [] StorageEngine.seconds_max 0)).
  vm_compute. reflexivity.
Defined.

(** The hypothesis of C7 and C8 on the text of a simple string is needed:
    the parser ends a simple string at the first CRLF. *)
Remark simple_string_with_crlf :
  let v := RespProtocol.SimpleString (str "a" ++ CRLF ++ str "b") in
  RespProtocol.well_formed v = false /\
  RespProtocol.parse (RespProtocol.encode v) =
  RespProtocol.Parsed (RespProtocol.SimpleString (str "a")) 4.
Proof. by vm_compute. Qed.

Local Close Scope Z_scope.

(** ** HashTable: the nodes of a table, counted *)

Section HashTableNodes.
Import HashTable.

Context {K V : Type} `{EqDecision K}.
Variable std_hash : K -> nat.

Abbreviation wf := (HashTable.wf std_hash).

Implicit Types (h : HashTable.t K V) (c : list (K * V)) (key k : K) (v value : V).

Lemma chain_update_length c c' key value :
  chain_update key value c = Some c' -> length c' = length c.
Proof.
  intros Hu. destruct (chain_update_Some _ _ _ _ Hu) as [Hk _].
  by rewrite <- (length_fmap fst c'), Hk, length_fmap.
Qed.

Lemma chain_remove_length c c' key :
  chain_remove key c = Some c' -> S (length c') = length c.
Proof.
  revert c'. induction c as [|[k' v'] c IH]; intros c'; cbn; [done|].
  destruct (decide (k' = key)); [by intros [= <-]|].
  destruct (chain_remove key c) as [c''|]; [|done].
  intros [= <-]. cbn. f_equal. by apply IH.
Qed.

Lemma concat_insert_length {A} (ls : list (list A)) (i : nat) (b c : list A) :
  ls !! i = Some b ->
  (length (concat (<[i := c]> ls)) + length b = length (concat ls) + length c)%nat.
Proof.
  revert i. induction ls as [|l ls IH]; intros i Hi; [done|].
  destruct i as [|i].
  - cbn in Hi. injection Hi as ->. cbn. rewrite !length_app. lia.
  - specialize (IH i Hi).
    change (<[S i := c]> (l :: ls)) with (l :: <[i := c]> ls).
    cbn [concat]. rewrite !length_app. lia.
Qed.

Lemma concat_alter_cons_length {A} (ls : list (list A)) (j : nat) (x : A) :
  (j < length ls)%nat ->
  length (concat (alter (cons x) j ls)) = S (length (concat ls)).
Proof.
  revert j. induction ls as [|l ls IH]; intros j Hj; cbn in *; [lia|].
  destruct j as [|j]; cbn; [done|].
  rewrite !length_app, IH by lia. lia.
Qed.

Lemma concat_replicate_nil {A} (n : nat) : concat (replicate n ([] : list A)) = [].
Proof. induction n as [|n IH]; [done|]. cbn. done. Qed.

Lemma rehash_length (nc : nat) (l : list (K * V)) :
  forall nt : list (list (K * V)),
  length nt = nc -> (0 < nc)%nat ->
  length (foldl (rehash_node std_hash nc) nt l) = nc /\
  length (concat (foldl (rehash_node std_hash nc) nt l)) =
  (length l + length (concat nt))%nat.
Proof.
  induction l as [|node l IH]; intros nt Hlen Hnc; cbn; [done|].
  assert (Hj : (std_hash node.1 mod nc < length nt)%nat).
  { rewrite Hlen. apply Nat.mod_upper_bound. lia. }
  destruct (IH (rehash_node std_hash nc nt node)) as [H1 H2].
  { unfold rehash_node. by rewrite length_alter. }
  { done. }
  split; [done|]. rewrite H2. unfold rehash_node.
  rewrite concat_alter_cons_length by done. lia.
Qed.

Lemma resize_nodes_length h (nc : nat) :
  (0 < nc)%nat -> length (nodes (resize std_hash nc h)) = length (nodes h).
Proof.
  intros Hnc. unfold resize, nodes. cbn. rewrite foldl_concat.
  destruct (rehash_length nc (concat (table h)) (replicate nc [])) as [_ ->].
  - by rewrite length_replicate.
  - done.
  - rewrite concat_replicate_nil. cbn. lia.
Qed.

Lemma insert_counted h key value :
  wf h -> counted h -> counted (insert std_hash key value h).
Proof.
  intros Hwf Hc. unfold insert.
  set (h1 := if load_exceeded h then resize std_hash (2 * capacity h) h else h).
  assert (H1 : wf h1 /\ counted h1).
  { subst h1. pose proof (wf_capacity std_hash h Hwf).
    destruct (load_exceeded h); [|done].
    split; [apply resize_wf; [done|lia]|].
    unfold counted. rewrite resize_nodes_length by lia. done. }
  destruct H1 as [Hwf1 Hc1]. clearbody h1.
  assert (Hb : table h1 !! hash std_hash h1 key = Some (bucket h1 (hash std_hash h1 key))).
  { apply bucket_lookup. by apply hash_lt. }
  unfold counted, nodes in *.
  destruct (chain_update key value _) as [c|] eqn:E; cbn.
  - pose proof (concat_insert_length _ _ _ c Hb) as Hl.
    apply chain_update_length in E. lia.
  - pose proof (concat_insert_length _ _ _
                  ((key, value) :: bucket h1 (hash std_hash h1 key)) Hb) as Hl.
    cbn in Hl. lia.
Qed.

Lemma remove_counted h key :
  wf h -> counted h -> counted (remove std_hash key h).2.
Proof.
  intros Hwf Hc. unfold remove.
  assert (Hb : table h !! hash std_hash h key = Some (bucket h (hash std_hash h key))).
  { apply bucket_lookup. by apply hash_lt. }
  destruct (chain_remove key _) as [c|] eqn:E; cbn [snd]; [|done].
  pose proof (concat_insert_length _ _ _ c Hb) as Hl.
  apply chain_remove_length in E.
  set (h2 := {| table := <[hash std_hash h key := c]> (table h);
                capacity := capacity h; size := size h - 1 |}).
  assert (Hc2 : counted h2).
  { unfold counted, nodes in *. cbn. lia. }
  destruct (Nat.ltb_spec 8 (capacity h2)) as [H8|H8]; [|done].
  destruct (load_low h2); [|done]. cbn [andb].
  unfold counted. rewrite resize_nodes_length; [done|].
  apply Nat.div_str_pos. cbn in *. lia.
Qed.

Lemma reachable_counted h : reachable std_hash h -> counted h.
Proof.
  induction 1 as [|h key value Hr IH|h key Hr IH].
  - unfold counted, nodes, create. cbn [table size].
    by rewrite concat_replicate_nil.
  - apply insert_counted; [by apply (reachable_wf std_hash)|done].
  - apply remove_counted; [by apply (reachable_wf std_hash)|done].
Qed.

Lemma clear_wf h : wf h -> wf (clear h).
Proof.
  intros Hwf. split; cbn.
  - by rewrite length_replicate.
  - by apply (wf_capacity std_hash).
  - intros i c node Hi Hin. apply lookup_replicate in Hi as [-> _].
    by apply elem_of_nil in Hin.
  - intros i c Hi. apply lookup_replicate in Hi as [-> _]. constructor.
Qed.

Lemma clear_get h key : get std_hash key (clear h) = None.
Proof.
  unfold get, bucket, clear. cbn.
  destruct (replicate (capacity h) [] !! _) as [c|] eqn:E; [|done].
  by apply lookup_replicate in E as [-> _].
Qed.

Lemma nodes_nodup_pairs h : wf h -> NoDup (nodes h).
Proof. intros Hwf. eapply NoDup_fmap_1. by apply (nodes_nodup std_hash). Qed.

(** The nodes after [insert] and [remove], up to their order. *)
Lemma nodes_insert_perm h key value :
  wf h ->
  nodes (insert std_hash key value h) ≡ₚ
  (key, value) :: filter (λ node, node.1 ≠ key) (nodes h).
Proof.
  intros Hwf. destruct (insert_spec std_hash h key value Hwf) as [Hwf' Hget].
  apply NoDup_Permutation.
  - by apply nodes_nodup_pairs.
  - apply NoDup_cons. split.
    + intros [Hne _]%list_elem_of_filter. by apply Hne.
    + apply NoDup_filter. by apply nodes_nodup_pairs.
  - intros [k v]. rewrite <- (get_Some std_hash) by done. rewrite Hget.
    rewrite elem_of_cons, list_elem_of_filter. cbn.
    rewrite <- (get_Some std_hash) by done.
    destruct (decide (key = k)) as [->|Hne].
    + split; [intros [= ->]; by left|].
      intros [[= ->]|[Hk _]]; [done|by destruct Hk].
    + split; [intros Hg; right; split; [congruence|done]|].
      intros [[= ? ?]|[_ Hg]]; [by subst|done].
Qed.

Lemma nodes_remove_perm h key :
  wf h ->
  nodes (remove std_hash key h).2 ≡ₚ filter (λ node, node.1 ≠ key) (nodes h).
Proof.
  intros Hwf. destruct (remove_spec std_hash h key Hwf) as (Hwf' & _ & Hget).
  apply NoDup_Permutation.
  - by apply nodes_nodup_pairs.
  - apply NoDup_filter. by apply nodes_nodup_pairs.
  - intros [k v]. rewrite <- (get_Some std_hash) by done. rewrite Hget.
    rewrite list_elem_of_filter. cbn.
    rewrite <- (get_Some std_hash) by done.
    destruct (decide (key = k)) as [->|Hne].
    + split; [done|]. by intros [Hk _].
    + split; [intros Hg; split; [congruence|done]|by intros [_ Hg]].
Qed.

Lemma insert_size h key value :
  wf h ->
  size (insert std_hash key value h) =
  match get std_hash key h with Some _ => size h | None => S (size h) end.
Proof.
  intros Hwf. unfold insert.
  set (h1 := if load_exceeded h then resize std_hash (2 * capacity h) h else h).
  assert (H1 : get std_hash key h1 = get std_hash key h /\ size h1 = size h).
  { subst h1. pose proof (wf_capacity std_hash h Hwf).
    destruct (load_exceeded h); [|done].
    split; [apply resize_get; [done|lia]|done]. }
  destruct H1 as [Hg Hs]. clearbody h1. rewrite <- Hg, <- Hs. unfold get.
  destruct (chain_update key value _) as [c|] eqn:E; cbn [size].
  - destruct (chain_get key _) eqn:G; [done|].
    apply (chain_update_None _ key value) in G. congruence.
  - apply chain_update_None in E. by rewrite E.
Qed.

Lemma remove_size h key :
  size (remove std_hash key h).2 =
  match get std_hash key h with Some _ => (size h - 1)%nat | None => size h end.
Proof.
  unfold remove, get.
  destruct (chain_remove key _) as [c|] eqn:E; cbn [snd].
  - destruct (chain_get key _) eqn:G.
    + by destruct (_ && _).
    + apply chain_remove_None in G. congruence.
  - apply chain_remove_None in E. by rewrite E.
Qed.

End HashTableNodes.

(** ** HashTable: what the operations do to the lookups *)

(** X1.  [insert] on a table of the right shape: the key then reads as the
    new value, every other key reads as before, the size grows by one when
    the key is new and stays when it is overwritten, and the shape is kept,
    also across the resize that an insert may start with. *)
Theorem hashtable_insert_lookup {K V : Type} `{EqDecision K} (std_hash : K -> nat)
    (h : HashTable.t K V) (key : K) (value : V) :
  HashTable.wf std_hash h ->
  HashTable.wf std_hash (HashTable.insert std_hash key value h) /\
  (forall k, HashTable.get std_hash k (HashTable.insert std_hash key value h) =
             if decide (key = k) then Some value else HashTable.get std_hash k h) /\
  HashTable.size (HashTable.insert std_hash key value h) =
    match HashTable.get std_hash key h with
    | Some _ => HashTable.size h
    | None => S (HashTable.size h)
    end.
Proof.
  intros Hwf. destruct (insert_spec std_hash h key value Hwf) as [H1 H2].
  split; [done|]. split; [done|]. by apply insert_size.
Qed.

Lemma hashtable_insert_lookup_witness :
  let h := foldl (λ h key, HashTable.insert id key (key * key) h) (HashTable.create 8)
                 (seq 0 6) in
  HashTable.wf id h /\
  HashTable.get id 14 (HashTable.insert id 14 7 h) = Some 7 /\
  HashTable.get id 3 (HashTable.insert id 14 7 h) = Some 9 /\
  HashTable.capacity (HashTable.insert id 14 7 h) = 16 /\
  HashTable.size (HashTable.insert id 14 7 h) = 7.
Proof.
  cbn zeta.
  assert (Hwf : HashTable.wf id
            (foldl (λ h key, HashTable.insert id key (key * key) h) (HashTable.create 8)
                   (seq 0 6))).
  { apply (reachable_wf id). cbn [seq foldl].
    repeat apply HashTable.reachable_insert. apply HashTable.reachable_create. }
  split; [exact Hwf|].
  destruct (hashtable_insert_lookup id _ 14 7 Hwf) as (_ & Hget & Hsize).
  split; [rewrite Hget; vm_compute; reflexivity|].
  split; [rewrite Hget; vm_compute; reflexivity|].
  split; [vm_compute; reflexivity|]. rewrite Hsize. vm_compute. reflexivity.
Defined.

(** X2.  [remove] on a table of the right shape: it returns whether the key
    was there; afterwards the key reads as absent and every other key reads
    as before; the size drops by one when the key was there; the shape is
    kept, also across the resize that a removal may end with. *)
Theorem hashtable_remove_lookup {K V : Type} `{EqDecision K} (std_hash : K -> nat)
    (h : HashTable.t K V) (key : K) :
  HashTable.wf std_hash h ->
  HashTable.wf std_hash (HashTable.remove std_hash key h).2 /\
  (HashTable.remove std_hash key h).1 =
    bool_decide (is_Some (HashTable.get std_hash key h)) /\
  (forall k, HashTable.get std_hash k (HashTable.remove std_hash key h).2 =
             if decide (key = k) then None else HashTable.get std_hash k h) /\
  HashTable.size (HashTable.remove std_hash key h).2 =
    match HashTable.get std_hash key h with
    | Some _ => HashTable.size h - 1
    | None => HashTable.size h
    end.
Proof.
  intros Hwf. destruct (remove_spec std_hash h key Hwf) as (H1 & H2 & H3).
  split; [done|]. split; [done|]. split; [done|]. apply remove_size.
Qed.

Lemma hashtable_remove_lookup_witness :
  let h := foldl (λ h key, HashTable.insert id key (key * key) h) (HashTable.create 8)
                 (seq 0 12) in
  let h' := foldl (λ h key, (HashTable.remove id key h).2) h (seq 0 8) in
  HashTable.wf id h' /\
  HashTable.capacity h' = 16 /\
  (HashTable.remove id 8 h').1 = true /\
  HashTable.get id 8 (HashTable.remove id 8 h').2 = None /\
  HashTable.get id 10 (HashTable.remove id 8 h').2 = Some 100 /\
  HashTable.capacity (HashTable.remove id 8 h').2 = 8 /\
  HashTable.size (HashTable.remove id 8 h').2 = 3.
Proof.
  cbn zeta.
  assert (Hwf : HashTable.wf id
            (foldl (λ h key, (HashTable.remove id key h).2)
               (foldl (λ h key, HashTable.insert id key (key * key) h)
                  (HashTable.create 8) (seq 0 12)) (seq 0 8))).
  { apply (reachable_wf id). cbn [seq foldl].
    do 8 apply HashTable.reachable_remove.
    repeat apply HashTable.reachable_insert. apply HashTable.reachable_create. }
  split; [exact Hwf|]. split; [vm_compute; reflexivity|].
  destruct (hashtable_remove_lookup id _ 8 Hwf) as (_ & Hret & Hget & Hsize).
  split; [rewrite Hret; vm_compute; reflexivity|].
  split; [rewrite Hget; vm_compute; reflexivity|].
  split; [rewrite Hget; vm_compute; reflexivity|].
  split; [vm_compute; reflexivity|]. rewrite Hsize. vm_compute. reflexivity.
Defined.

(** X3.  [resize] to any positive capacity moves every node to the bucket
    of its hash under the new capacity: the shape holds for the new
    capacity, every key reads as before, and the size is kept. *)
Theorem hashtable_resize_lookup {K V : Type} `{EqDecision K} (std_hash : K -> nat)
    (h : HashTable.t K V) (new_capacity : nat) :
  HashTable.wf std_hash h -> 0 < new_capacity ->
  HashTable.wf std_hash (HashTable.resize std_hash new_capacity h) /\
  HashTable.capacity (HashTable.resize std_hash new_capacity h) = new_capacity /\
  HashTable.size (HashTable.resize std_hash new_capacity h) = HashTable.size h /\
  length (HashTable.nodes (HashTable.resize std_hash new_capacity h)) =
    length (HashTable.nodes h) /\
  forall k, HashTable.get std_hash k (HashTable.resize std_hash new_capacity h) =
            HashTable.get std_hash k h.
Proof.
  intros Hwf Hnc. split; [by apply resize_wf|]. split; [done|]. split; [done|].
  split; [by apply resize_nodes_length|]. intros k. by apply resize_get.
Qed.

Lemma hashtable_resize_lookup_witness :
  let h := foldl (λ h key, HashTable.insert id key (key * key) h) (HashTable.create 8)
                 (seq 0 5) in
  HashTable.wf id h /\ 0 < 3 /\
  HashTable.wf id (HashTable.resize id 3 h) /\
  HashTable.get id 4 (HashTable.resize id 3 h) = Some 16 /\
  HashTable.bucket (HashTable.resize id 3 h) 1 = [(4, 16); (1, 1)].
Proof.
  cbn zeta.
  assert (Hwf : HashTable.wf id
            (foldl (λ h key, HashTable.insert id key (key * key) h) (HashTable.create 8)
                   (seq 0 5))).
  { apply (reachable_wf id). cbn [seq foldl].
    repeat apply HashTable.reachable_insert. apply HashTable.reachable_create. }
  split; [exact Hwf|]. split; [lia|].
  destruct (hashtable_resize_lookup id _ 3 Hwf ltac:(lia)) as (Hwf' & _ & _ & _ & Hget).
  split; [exact Hwf'|]. split; [rewrite Hget; vm_compute; reflexivity|vm_compute; reflexivity].
Defined.

(** X4.  In every table that [insert] and [remove] make of a new table,
    [size] is the number of nodes in the chains, no key is in two nodes, the
    nodes are what the lookups find, and the bucket array has [capacity]
    buckets. *)
Theorem hashtable_size_counts_nodes {K V : Type} `{EqDecision K} (std_hash : K -> nat)
    (h : HashTable.t K V) :
  HashTable.reachable std_hash h ->
  HashTable.size h = length (HashTable.nodes h) /\
  NoDup (HashTable.nodes h).*1 /\
  (forall k v, HashTable.get std_hash k h = Some v <-> (k, v) ∈ HashTable.nodes h) /\
  length (HashTable.table h) = HashTable.capacity h.
Proof.
  intros Hr. pose proof (reachable_wf std_hash h Hr) as Hwf.
  split; [by apply (reachable_counted std_hash)|].
  split; [by apply (nodes_nodup std_hash)|].
  split; [intros k v; by apply get_Some|].
  by apply (HashTable.wf_length std_hash).
Qed.

Lemma hashtable_size_counts_nodes_witness :
  let h := (HashTable.remove id 3
              (HashTable.insert id 11 5
                 (HashTable.insert id 3 4 (HashTable.insert id 3 2 (HashTable.create 8))))).2 in
  HashTable.reachable id h /\
  HashTable.size h = length (HashTable.nodes h) /\
  HashTable.nodes h = [(11, 5)].
Proof.
  cbn zeta.
  assert (Hr : HashTable.reachable id
                 (HashTable.remove id 3
                    (HashTable.insert id 11 5
                       (HashTable.insert id 3 4
                          (HashTable.insert id 3 2 (HashTable.create 8))))).2).
  { apply HashTable.reachable_remove. repeat apply HashTable.reachable_insert.
    apply HashTable.reachable_create. }
  split; [exact Hr|].
  destruct (hashtable_size_counts_nodes id _ Hr) as (Hsize & _).
  split; [exact Hsize|vm_compute; reflexivity].
Defined.

(** X5.  [clear] empties every bucket: no key is found afterwards, the
    size is 0, and the capacity and the shape are kept. *)
Theorem hashtable_clear_empties {K V : Type} `{EqDecision K} (std_hash : K -> nat)
    (h : HashTable.t K V) :
  HashTable.wf std_hash h ->
  HashTable.wf std_hash (HashTable.clear h) /\
  (forall k, HashTable.get std_hash k (HashTable.clear h) = None) /\
  HashTable.nodes (HashTable.clear h) = [] /\
  HashTable.size (HashTable.clear h) = 0 /\
  HashTable.capacity (HashTable.clear h) = HashTable.capacity h.
Proof.
  intros Hwf. split; [by apply clear_wf|]. split; [intros k; apply clear_get|].
  split; [apply concat_replicate_nil|done].
Qed.

Lemma hashtable_clear_empties_witness :
  let h := foldl (λ h key, HashTable.insert id key (key * key) h) (HashTable.create 8)
                 (seq 0 12) in
  HashTable.wf id h /\
  HashTable.get id 5 h = Some 25 /\
  HashTable.get id 5 (HashTable.clear h) = None /\
  HashTable.capacity (HashTable.clear h) = 16.
Proof.
  cbn zeta.
  assert (Hwf : HashTable.wf id
            (foldl (λ h key, HashTable.insert id key (key * key) h) (HashTable.create 8)
                   (seq 0 12))).
  { apply (reachable_wf id). cbn [seq foldl].
    repeat apply HashTable.reachable_insert. apply HashTable.reachable_create. }
  split; [exact Hwf|]. split; [vm_compute; reflexivity|].
  destruct (hashtable_clear_empties id _ Hwf) as (_ & Hget & _ & _ & Hcap).
  split; [apply Hget|]. rewrite Hcap. vm_compute. reflexivity.
Defined.

Local Open Scope Z_scope.

(** ** MemoryManager: the queue *)

Section MemoryManagerProofs.
Import MemoryManager.

Implicit Types (m : MemoryManager.t) (q : list std_string) (key k : std_string).

Lemma evict_lru_snoc q key : evict_lru (mk (q ++ [key])) = (key, mk (q)).
Proof.
  unfold evict_lru. cbn [lru_queue].
  destruct (q ++ [key]) eqn:E; [by destruct q|].
  rewrite <- E. by rewrite last_last, removelast_last.
Qed.

Lemma queue_cases q : q = [] \/ exists q' key, q = q' ++ [key].
Proof.
  destruct (decide (q = [])) as [|Hq]; [by left|right].
  destruct (exists_last Hq) as (q' & y & Heq). by exists q', y.
Qed.

Lemma list_remove_nodup q key : NoDup q -> NoDup (list_remove key q).
Proof. apply NoDup_filter. Qed.

Lemma elem_of_list_remove q key k : k ∈ list_remove key q <-> k <> key /\ k ∈ q.
Proof. unfold list_remove. by rewrite list_elem_of_filter. Qed.

Lemma update_lru_nodup m key : NoDup (lru_queue m) -> NoDup (lru_queue (update_lru key m)).
Proof.
  intros Hnd. cbn. apply NoDup_cons. split; [|by apply list_remove_nodup].
  rewrite elem_of_list_remove. by intros [? _].
Qed.

End MemoryManagerProofs.

(** X6.  A key that [update_lru] has just moved to the front is not the
    next key that [evict_lru] gives out while the queue tracks another key:
    the victim is one of the other keys of the queue; the touched key stays
    at the front; and when no key was twice in the queue, none is afterwards
    and the victim is gone from it. *)
Theorem lru_touched_key_is_kept (m : MemoryManager.t) (key other : std_string) :
  other ∈ MemoryManager.lru_queue m -> other <> key ->
  let r := MemoryManager.evict_lru (MemoryManager.update_lru key m) in
  r.1 <> key /\ r.1 ∈ MemoryManager.lru_queue m /\
  head (MemoryManager.lru_queue r.2) = Some key /\
  (NoDup (MemoryManager.lru_queue m) ->
   NoDup (MemoryManager.lru_queue r.2) /\ (r.1 ∉ MemoryManager.lru_queue r.2)).
Proof.
  intros Hin Hne. destruct m as [q]. cbn [MemoryManager.lru_queue] in *.
  unfold MemoryManager.update_lru. cbn [MemoryManager.lru_queue].
  assert (Hin' : other ∈ MemoryManager.list_remove key q)
    by by apply elem_of_list_remove.
  destruct (queue_cases (MemoryManager.list_remove key q)) as [E|(q' & y & E)].
  { rewrite E in Hin'. by apply elem_of_nil in Hin'. }
  assert (Hy : y ∈ MemoryManager.list_remove key q).
  { rewrite E. apply elem_of_app. right. by left. }
  apply elem_of_list_remove in Hy as [Hyk Hyq].
  rewrite E. change (key :: q' ++ [y]) with ((key :: q') ++ [y]).
  rewrite evict_lru_snoc. cbn.
  split; [done|]. split; [done|]. split; [done|].
  intros Hnd.
  assert (Hnd' : NoDup ((key :: q') ++ [y])).
  { change ((key :: q') ++ [y]) with (key :: q' ++ [y]). rewrite <- E.
    apply (update_lru_nodup (MemoryManager.mk q)). done. }
  apply NoDup_app in Hnd' as (Hnd1 & Hdisj & _).
  split; [done|]. intros Hy'. apply (Hdisj y Hy'). by left.
Qed.

Lemma lru_touched_key_is_kept_witness :
  let m := MemoryManager.mk [str "c"; str "b"; str "a"] in
  let r := MemoryManager.evict_lru (MemoryManager.update_lru (str "a") m) in
  str "b" ∈ MemoryManager.lru_queue m /\ str "b" <> str "a" /\
  r = (str "b", MemoryManager.mk [str "a"; str "c"]) /\
  r.1 <> str "a" /\ r.1 ∈ MemoryManager.lru_queue m /\
  head (MemoryManager.lru_queue r.2) = Some (str "a") /\
  (NoDup (MemoryManager.lru_queue m) ->
   NoDup (MemoryManager.lru_queue r.2) /\ (r.1 ∉ MemoryManager.lru_queue r.2)).
Proof.
  cbn zeta.
  assert (H1 : str "b" ∈ [str "c"; str "b"; str "a"]) by (right; left).
  assert (H2 : str "b" <> str "a") by discriminate.
  split; [exact H1|]. split; [exact H2|]. split; [vm_compute; reflexivity|].
  exact (lru_touched_key_is_kept (MemoryManager.mk [str "c"; str "b"; str "a"])
           (str "a") (str "b") H1 H2).
Defined.

(** ** StorageEngine: what the operations keep *)

Section EngineInvariant.
Import StorageEngine.

Variable std_hash : std_string -> nat.

Abbreviation ht_get := (HashTable.get std_hash).
Abbreviation ht_wf := (HashTable.wf std_hash).
Abbreviation consistent := (StorageEngine.consistent std_hash).
Abbreviation lru s := (MemoryManager.lru_queue (mem_manager s)).

Implicit Types (s : StorageEngine.t) (key k : std_string) (e : Entry).

Lemma wrap64_range (x : Z) : 0 <= wrap64 x < 2 ^ 64.
Proof. unfold wrap64. apply Z.mod_pos_bound. lia. Qed.

Lemma consistent_wf s : consistent s -> ht_wf (store s).
Proof. intros (Hr & _). by apply (reachable_wf std_hash). Qed.

Lemma string_empty_nil key : string_empty key = true <-> key = [].
Proof. by destruct key. Qed.

Lemma enforce_loop_consistent (fuel : nat) :
  forall s, consistent s -> consistent (enforce_loop std_hash fuel s).
Proof.
  induction fuel as [|fuel IH]; intros s Hc; cbn [enforce_loop]; [done|].
  destruct (max_memory s <? current_memory s); [|done].
  pose proof (consistent_wf s Hc) as Hwf.
  destruct Hc as (Hr & Hnd & Htr & Hcm).
  destruct s as [st [q] cm mx].
  cbn [store mem_manager current_memory max_memory MemoryManager.lru_queue] in *.
  destruct (queue_cases q) as [->|(q' & y & ->)]; [by cbn|].
  rewrite evict_lru_snoc. apply NoDup_app in Hnd as (Hnd1 & Hdisj & _).
  assert (Hq' : forall k, k <> y -> k ∈ q' ++ [y] -> k ∈ q').
  { intros k Hk [Hin|Hin]%elem_of_app; [done|].
    by apply list_elem_of_singleton in Hin. }
  destruct (string_empty y) eqn:Ey.
  - apply string_empty_nil in Ey as ->.
    split; [done|]. split; [done|]. split; [|done]. cbn.
    intros k Hk Hs. apply Hq'; [done|]. by apply Htr.
  - destruct (HashTable.get std_hash y st) as [entry|] eqn:G; apply IH.
    + split; [by apply HashTable.reachable_remove|]. split; [done|].
      split; [|apply wrap64_range]. cbn.
      intros k Hk Hs. rewrite get_remove in Hs by done.
      destruct (decide (y = k)) as [|Hne]; [by destruct Hs|].
      apply Hq'; [done|]. by apply Htr.
    + split; [done|]. split; [done|]. split; [|done]. cbn.
      intros k Hk Hs. apply Hq'; [|by apply Htr].
      intros ->. rewrite G in Hs. by destruct Hs.
Qed.

Lemma set_consistent s key value ttl now :
  consistent s -> consistent (set std_hash key value ttl now s).
Proof.
  intros Hc. pose proof (consistent_wf s Hc) as Hwf.
  destruct Hc as (Hr & Hnd & Htr & Hcm).
  unfold set, enforce_memory_limits. apply enforce_loop_consistent.
  split; [by apply HashTable.reachable_insert|].
  split; [by apply update_lru_nodup|]. split; [|apply wrap64_range]. cbn.
  intros k Hk Hs. rewrite get_insert in Hs by done.
  destruct (decide (key = k)) as [->|Hne]; [by left|].
  right. apply elem_of_list_remove. split; [done|]. by apply Htr.
Qed.

Lemma get_consistent s key now1 now2 :
  consistent s -> consistent (get std_hash key now1 now2 s).2.
Proof.
  intros Hc. pose proof (consistent_wf s Hc) as Hwf.
  destruct Hc as (Hr & Hnd & Htr & Hcm). unfold get.
  destruct (HashTable.get std_hash key (store s)) as [entry|] eqn:G; [|done].
  destruct (expired now2 _); cbn [snd].
  - split; [by apply HashTable.reachable_remove, HashTable.reachable_insert|].
    split; [done|]. split; [|done]. cbn.
    intros k Hk Hs. rewrite get_remove in Hs by by apply insert_wf.
    destruct (decide (key = k)) as [|Hne]; [by destruct Hs|].
    rewrite get_insert, decide_False in Hs by done. by apply Htr.
  - split; [by apply HashTable.reachable_insert|].
    split; [by apply update_lru_nodup|]. split; [|done]. cbn.
    intros k Hk Hs. rewrite get_insert in Hs by done.
    destruct (decide (key = k)) as [->|Hne]; [by left|].
    right. apply elem_of_list_remove. split; [done|]. by apply Htr.
Qed.

Lemma remove_step_consistent s key (cm : Z) :
  consistent s -> 0 <= cm < 2 ^ 64 ->
  consistent {| store := (HashTable.remove std_hash key (store s)).2;
                mem_manager := MemoryManager.evict_lru_key key (mem_manager s);
                current_memory := cm; max_memory := max_memory s |}.
Proof.
  intros Hc Hcm'. pose proof (consistent_wf s Hc) as Hwf.
  destruct Hc as (Hr & Hnd & Htr & Hcm).
  split; [by apply HashTable.reachable_remove|].
  split; [by apply list_remove_nodup|]. split; [|done]. cbn.
  intros k Hk Hs. rewrite get_remove in Hs by done.
  destruct (decide (key = k)) as [|Hne]; [by destruct Hs|].
  apply elem_of_list_remove. split; [done|]. by apply Htr.
Qed.

Lemma del_consistent s key : consistent s -> consistent (del std_hash key s).2.
Proof.
  intros Hc. unfold del.
  destruct (HashTable.get std_hash key (store s)) as [entry|]; [|done].
  cbn [snd]. apply remove_step_consistent; [done|apply wrap64_range].
Qed.

Lemma evict_expired_consistent s now :
  consistent s -> consistent (evict_expired std_hash now s).
Proof.
  unfold evict_expired. generalize (keys_to_remove now s). intros keys.
  revert s. induction keys as [|key keys IH]; intros s Hc; cbn [foldl]; [done|].
  apply IH. apply remove_step_consistent; [done|]. apply Hc.
Qed.

Lemma reachable_consistent s : reachable std_hash s -> consistent s.
Proof.
  induction 1 as [max Hmax|s key value ttl now _ IH|s key now1 now2 _ IH|s key _ IH
                 |s now _ IH].
  - split; [apply HashTable.reachable_create|]. split; [constructor|].
    split; [|cbn; lia]. cbn. intros k _ Hs. rewrite create_get in Hs. by destruct Hs.
  - by apply set_consistent.
  - by apply get_consistent.
  - by apply del_consistent.
  - by apply evict_expired_consistent.
Qed.

(** *** The budget loop, when the empty key is not in the queue *)

Lemma enforce_loop_budget (fuel : nat) :
  forall s, (length (lru s) < fuel)%nat -> ([] ∉ lru s) ->
  (current_memory (enforce_loop std_hash fuel s) <=
     max_memory (enforce_loop std_hash fuel s) \/
   lru (enforce_loop std_hash fuel s) = []) /\
  exists evicted, lru s = lru (enforce_loop std_hash fuel s) ++ evicted.
Proof.
  induction fuel as [|fuel IH]; intros s Hfuel Hne; [lia|]. cbn [enforce_loop].
  destruct (Z.ltb_spec (max_memory s) (current_memory s)) as [Hover|Hfit].
  2:{ split; [by left|]. exists []. by rewrite app_nil_r. }
  destruct s as [st [q] cm mx].
  cbn [store mem_manager current_memory max_memory MemoryManager.lru_queue] in *.
  destruct (queue_cases q) as [->|(q' & y & ->)].
  { cbn. split; [by right|]. by exists []. }
  rewrite evict_lru_snoc.
  assert (Hy : y <> []).
  { intros ->. apply Hne, elem_of_app. right. by left. }
  destruct (string_empty y) eqn:Ey; [by apply string_empty_nil in Ey|].
  rewrite length_app in Hfuel. cbn in Hfuel.
  assert (Hne' : [] ∉ q').
  { intros Hin. apply Hne, elem_of_app. by left. }
  destruct (HashTable.get std_hash y st) as [entry|].
  - match goal with |- context [enforce_loop _ _ ?s1] =>
      destruct (IH s1) as (Hpost & ev & Hev) end; [cbn; lia|done|].
    split; [done|]. exists (ev ++ [y]). cbn in Hev. rewrite Hev at 1.
    by rewrite <- (assoc_L (++)).
  - match goal with |- context [enforce_loop _ _ ?s1] =>
      destruct (IH s1) as (Hpost & ev & Hev) end; [cbn; lia|done|].
    split; [done|]. exists (ev ++ [y]). cbn in Hev. rewrite Hev at 1.
    by rewrite <- (assoc_L (++)).
Qed.

Lemma enforce_budget s :
  ([] ∉ lru s) ->
  (current_memory (enforce_memory_limits std_hash s) <=
     max_memory (enforce_memory_limits std_hash s) \/
   lru (enforce_memory_limits std_hash s) = []) /\
  exists evicted, lru s = lru (enforce_memory_limits std_hash s) ++ evicted.
Proof. intros Hne. unfold enforce_memory_limits. apply enforce_loop_budget; [lia|done]. Qed.

(** *** The byte counter against the bytes in the table *)

Abbreviation bytes :=
  (foldr (λ (node : std_string * Entry) acc, entry_bytes node.1 node.2 + acc) 0).

Lemma entry_bytes_nonneg key e : 0 <= entry_bytes key e.
Proof. unfold entry_bytes, string_size. lia. Qed.

Lemma bytes_perm (l l' : list (std_string * Entry)) : l ≡ₚ l' -> bytes l = bytes l'.
Proof. induction 1; cbn in *; lia. Qed.

Lemma bytes_nonneg (l : list (std_string * Entry)) : 0 <= bytes l.
Proof.
  induction l as [|[k e] l IH]; cbn; [done|].
  pose proof (entry_bytes_nonneg k e). lia.
Qed.

Lemma bytes_split (P : std_string * Entry -> Prop) `{forall x, Decision (P x)}
    (l : list (std_string * Entry)) :
  bytes l = bytes (filter P l) + bytes (filter (λ x, ¬ P x) l).
Proof.
  induction l as [|x l IH]; [done|]. destruct (decide (P x)) as [HP|HP].
  - rewrite (filter_cons_True P) by done.
    rewrite (filter_cons_False (λ x, ¬ P x)) by (intros Hn; by apply Hn).
    cbn in *. lia.
  - rewrite (filter_cons_False P) by done.
    rewrite (filter_cons_True (λ x, ¬ P x)) by done.
    cbn in *. lia.
Qed.

Lemma bytes_filter_le (P : std_string * Entry -> Prop) `{forall x, Decision (P x)}
    (l : list (std_string * Entry)) :
  bytes (filter P l) <= bytes l.
Proof.
  rewrite (bytes_split P l). pose proof (bytes_nonneg (filter (λ x, ¬ P x) l)). lia.
Qed.

Lemma nodes_present (h : HashTable.t std_string Entry) key e :
  ht_wf h -> ht_get key h = Some e ->
  HashTable.nodes h ≡ₚ (key, e) :: filter (λ node, node.1 ≠ key) (HashTable.nodes h).
Proof.
  intros Hwf Hget. apply NoDup_Permutation.
  - by apply (nodes_nodup_pairs std_hash).
  - apply NoDup_cons. split.
    + intros [Hne _]%list_elem_of_filter. by apply Hne.
    + apply NoDup_filter. by apply (nodes_nodup_pairs std_hash).
  - intros [k v]. rewrite elem_of_cons, list_elem_of_filter. cbn.
    rewrite <- !(get_Some std_hash) by done.
    destruct (decide (k = key)) as [->|Hne].
    + split; [intros Hg; left; congruence|].
      intros [[= ->]|[Hk _]]; [done|by destruct Hk].
    + split; [intros Hg; by right|].
      intros [[= ? ?]|[_ Hg]]; [by subst|done].
Qed.

Lemma nodes_absent (h : HashTable.t std_string Entry) key :
  ht_wf h -> ht_get key h = None ->
  filter (λ node, node.1 ≠ key) (HashTable.nodes h) = HashTable.nodes h.
Proof.
  intros Hwf Hget.
  assert (Hall : Forall (λ node, node.1 ≠ key) (HashTable.nodes h)).
  { apply Forall_forall. intros [k v] Hin Hk. cbn in Hk. subst k.
    apply (get_Some std_hash) in Hin; [|done]. congruence. }
  induction Hall as [|x l Hx Hall IH]; [done|].
  rewrite filter_cons_True by done. by rewrite IH.
Qed.

Lemma bytes_insert (h : HashTable.t std_string Entry) key e :
  ht_wf h ->
  bytes (HashTable.nodes (HashTable.insert std_hash key e h)) =
  entry_bytes key e + bytes (filter (λ node, node.1 ≠ key) (HashTable.nodes h)).
Proof. intros Hwf. by rewrite (bytes_perm _ _ (nodes_insert_perm std_hash h key e Hwf)). Qed.

Lemma bytes_remove (h : HashTable.t std_string Entry) key :
  ht_wf h ->
  bytes (HashTable.nodes (HashTable.remove std_hash key h).2) =
  bytes (filter (λ node, node.1 ≠ key) (HashTable.nodes h)).
Proof. intros Hwf. by rewrite (bytes_perm _ _ (nodes_remove_perm std_hash h key Hwf)). Qed.

Lemma bytes_present (h : HashTable.t std_string Entry) key e :
  ht_wf h -> ht_get key h = Some e ->
  bytes (HashTable.nodes h) =
  entry_bytes key e + bytes (filter (λ node, node.1 ≠ key) (HashTable.nodes h)).
Proof. intros Hwf Hg. by rewrite (bytes_perm _ _ (nodes_present h key e Hwf Hg)) at 1. Qed.

Lemma enforce_loop_drift (fuel : nat) :
  forall s, ht_wf (store s) -> live_bytes s <= current_memory s < 2 ^ 64 ->
  current_memory (enforce_loop std_hash fuel s) - live_bytes (enforce_loop std_hash fuel s) =
    current_memory s - live_bytes s /\
  live_bytes (enforce_loop std_hash fuel s) <= live_bytes s.
Proof.
  induction fuel as [|fuel IH]; intros s Hwf Hcm; cbn [enforce_loop]; [done|].
  destruct (max_memory s <? current_memory s); [|done].
  destruct (MemoryManager.evict_lru (mem_manager s)) as [key mm].
  destruct (string_empty key); [done|].
  destruct (HashTable.get std_hash key (store s)) as [entry|] eqn:G.
  - pose proof (bytes_present _ _ _ Hwf G) as Hp.
    pose proof (bytes_remove _ key Hwf) as Hr.
    rewrite <- Hr in Hp.
    pose proof (bytes_nonneg (HashTable.nodes (HashTable.remove std_hash key (store s)).2)).
    pose proof (entry_bytes_nonneg key entry).
    unfold live_bytes in *.
    assert (Hw : wrap64 (current_memory s - entry_bytes key entry) =
                 current_memory s - entry_bytes key entry).
    { clear - Hcm Hp H H0. apply wrap64_small. lia. }
    rewrite Hw.
    match goal with |- context [enforce_loop _ _ ?s1] =>
      destruct (IH s1) as (Hd & Hl) end.
    { cbn. by apply remove_wf. }
    { cbn [store current_memory]. clear - Hcm Hp H H0. lia. }
    cbn [store current_memory] in Hd, Hl. clear - Hcm Hp H H0 Hd Hl. lia.
  - match goal with |- context [enforce_loop _ _ ?s1] =>
      destruct (IH s1) as (Hd & Hl) end; done.
Qed.

End EngineInvariant.

(** ** StorageEngine: the reaper pass and the reads *)

Section EngineEffects.
Import StorageEngine.

Variable std_hash : std_string -> nat.

Abbreviation ht_get := (HashTable.get std_hash).
Abbreviation ht_wf := (HashTable.wf std_hash).
Abbreviation lru s := (MemoryManager.lru_queue (mem_manager s)).
Abbreviation bytes :=
  (foldr (λ (node : std_string * Entry) acc, entry_bytes node.1 node.2 + acc) 0).

Implicit Types (s : StorageEngine.t) (key k : std_string) (e : Entry).

(** The nodes of a table whose lookups are those of another table, cut
    down to the nodes with [Q]. *)
Lemma nodes_perm_filter (h h' : HashTable.t std_string Entry)
    (Q : std_string * Entry -> Prop) `{forall x, Decision (Q x)} :
  ht_wf h -> ht_wf h' ->
  (forall k v, ht_get k h' = Some v <-> ht_get k h = Some v /\ Q (k, v)) ->
  HashTable.nodes h' ≡ₚ filter Q (HashTable.nodes h).
Proof.
  intros Hwf Hwf' Hget. apply NoDup_Permutation.
  - by apply (nodes_nodup_pairs std_hash).
  - apply NoDup_filter. by apply (nodes_nodup_pairs std_hash).
  - intros [k v]. rewrite list_elem_of_filter.
    rewrite <- !(get_Some std_hash) by done. rewrite Hget. tauto.
Qed.

Lemma bytes_split_bool (f : std_string * Entry -> bool) (l : list (std_string * Entry)) :
  bytes l = bytes (List.filter f l) + bytes (filter (λ x, f x = false) l).
Proof.
  induction l as [|x l IH]; [done|]. cbn [List.filter].
  destruct (f x) eqn:E.
  - rewrite filter_cons_False by (rewrite E; done). cbn in *. lia.
  - rewrite filter_cons_True by done. cbn in *. lia.
Qed.

Lemma filter_remove_keys (key : std_string) (keys q : list std_string) :
  filter (λ k, k ∉ keys) (MemoryManager.list_remove key q) =
  filter (λ k, k ∉ key :: keys) q.
Proof.
  unfold MemoryManager.list_remove.
  induction q as [|x q IH]; [done|].
  destruct (decide (x = key)) as [->|Hne].
  - rewrite (filter_cons_False (λ k, k ≠ key)) by (intros Hn; by apply Hn).
    rewrite (filter_cons_False (λ k, k ∉ key :: keys)); [done|].
    intros Hn. apply Hn. by left.
  - rewrite (filter_cons_True (λ k, k ≠ key)) by done.
    destruct (decide (x ∈ keys)) as [Hin|Hnin].
    + rewrite (filter_cons_False (λ k, k ∉ keys)) by (intros Hn; by apply Hn).
      rewrite (filter_cons_False (λ k, k ∉ key :: keys)); [done|].
      intros Hn. apply Hn. by right.
    + rewrite (filter_cons_True (λ k, k ∉ keys)) by done.
      rewrite (filter_cons_True (λ k, k ∉ key :: keys)); [by rewrite IH|].
      intros [?|?]%elem_of_cons; done.
Qed.

Lemma filter_no_keys (q : list std_string) : filter (λ k, k ∉ []) q = q.
Proof.
  induction q as [|x q IH]; [done|].
  rewrite filter_cons_True by apply not_elem_of_nil. by rewrite IH.
Qed.

(** The loop of [evict_expired] over any list of keys. *)
Lemma remove_keys_spec (keys : list std_string) :
  forall s, ht_wf (store s) ->
  let s' := foldl (λ s key,
                     {| store := (HashTable.remove std_hash key (store s)).2;
                        mem_manager := MemoryManager.evict_lru_key key (mem_manager s);
                        current_memory := current_memory s;
                        max_memory := max_memory s |}) s keys in
  ht_wf (store s') /\
  (forall k, ht_get k (store s') = if decide (k ∈ keys) then None else ht_get k (store s)) /\
  lru s' = filter (λ k, k ∉ keys) (lru s) /\
  current_memory s' = current_memory s /\ max_memory s' = max_memory s.
Proof.
  induction keys as [|key keys IH]; intros s Hwf; cbn zeta; cbn [foldl].
  - split; [done|]. split; [done|]. by rewrite filter_no_keys.
  - match goal with |- context [foldl _ ?s1 keys] =>
      destruct (IH s1) as (Hwf' & Hget & Hq & Hcm & Hmax) end.
    { cbn. by apply remove_wf. }
    cbn zeta in *. split; [done|]. split; [|split; [|done]].
    + intros k. rewrite Hget. cbn [store]. rewrite get_remove by done.
      destruct (decide (k ∈ keys)) as [Hin|Hnin].
      * rewrite decide_True; [done|by right].
      * destruct (decide (key = k)) as [->|Hne].
        -- rewrite decide_True; [done|by left].
        -- rewrite decide_False; [done|].
           intros [?|?]%elem_of_cons; [by subst|done].
    + rewrite Hq. cbn [mem_manager MemoryManager.evict_lru_key MemoryManager.lru_queue].
      apply filter_remove_keys.
Qed.

Lemma elem_of_keys_to_remove s now k :
  ht_wf (store s) ->
  k ∈ keys_to_remove now s <-> exists e, ht_get k (store s) = Some e /\ expired now e = true.
Proof.
  intros Hwf. unfold keys_to_remove. rewrite list_elem_of_fmap. split.
  - intros ([k' e] & -> & Hin). apply list_elem_of_In, filter_In in Hin as [Hin Hex].
    apply list_elem_of_In in Hin. exists e. split; [|done]. by apply (get_Some std_hash).
  - intros (e & Hg & Hex). exists (k, e). split; [done|].
    apply list_elem_of_In, filter_In. split; [|done].
    apply list_elem_of_In. by apply (get_Some std_hash).
Qed.

Lemma evict_expired_spec s now :
  ht_wf (store s) ->
  ht_wf (store (evict_expired std_hash now s)) /\
  (forall k, ht_get k (store (evict_expired std_hash now s)) =
             match ht_get k (store s) with
             | Some e => if expired now e then None else Some e
             | None => None
             end) /\
  lru (evict_expired std_hash now s) = filter (λ k, k ∉ keys_to_remove now s) (lru s) /\
  current_memory (evict_expired std_hash now s) = current_memory s /\
  max_memory (evict_expired std_hash now s) = max_memory s.
Proof.
  intros Hwf. unfold evict_expired.
  destruct (remove_keys_spec (keys_to_remove now s) s Hwf) as (Hwf' & Hget & Hq & Hcm & Hmax).
  cbn zeta in *. split; [done|]. split; [|done].
  intros k. rewrite Hget. destruct (decide (k ∈ keys_to_remove now s)) as [Hin|Hnin].
  - apply elem_of_keys_to_remove in Hin as (e & -> & ->); done.
  - destruct (ht_get k (store s)) as [e|] eqn:G; [|done].
    destruct (expired now e) eqn:Ex; [|done].
    destruct Hnin. apply elem_of_keys_to_remove; [done|]. by exists e.
Qed.

Lemma evict_expired_live_bytes s now :
  ht_wf (store s) ->
  live_bytes (evict_expired std_hash now s) = live_bytes s - expired_bytes now s.
Proof.
  intros Hwf. destruct (evict_expired_spec s now Hwf) as (Hwf' & Hget & _).
  unfold live_bytes, expired_bytes.
  rewrite (bytes_split_bool (λ node, expired now node.2) (HashTable.nodes (store s))).
  assert (Hperm : HashTable.nodes (store (evict_expired std_hash now s)) ≡ₚ
                  filter (λ node, expired now node.2 = false) (HashTable.nodes (store s))).
  { apply nodes_perm_filter; [done|done|].
    intros k v. rewrite Hget. cbn.
    destruct (ht_get k (store s)) as [e|]; [|split; [done|by intros [? _]]].
    destruct (expired now e) eqn:Ex.
    - split; [done|]. intros [[= ->] Hf]. congruence.
    - split; [intros [= ->]; done|by intros [? _]]. }
  rewrite (bytes_perm _ _ Hperm). lia.
Qed.

(** [get] on a key that the table holds. *)
Lemma get_live_bytes s key now1 now2 e :
  ht_wf (store s) -> ht_get key (store s) = Some e ->
  live_bytes (get std_hash key now1 now2 s).2 =
  if expired now2 {| value := value e; ttl := ttl e; last_accessed := now1 |}
  then live_bytes s - entry_bytes key e else live_bytes s.
Proof.
  intros Hwf Hg. unfold get, live_bytes. rewrite Hg.
  pose proof (bytes_present std_hash _ _ _ Hwf Hg) as Hp.
  destruct (expired now2 _); cbn [snd store].
  - match goal with |- bytes (HashTable.nodes ?h') = _ =>
      assert (Hperm : HashTable.nodes h' ≡ₚ
                      filter (λ node, node.1 ≠ key) (HashTable.nodes (store s))) end.
    { apply nodes_perm_filter; [done|by apply remove_wf, insert_wf|].
      intros k v. rewrite get_remove by by apply insert_wf. cbn.
      destruct (decide (key = k)) as [->|Hne].
      - split; [done|]. by intros [_ Hk].
      - rewrite get_insert, decide_False by done.
        split; [intros Hk; split; [done|congruence]|by intros [? _]]. }
    rewrite (bytes_perm _ _ Hperm). clear - Hp. lia.
  - rewrite bytes_insert by done. clear - Hp. unfold entry_bytes in *. cbn. lia.
Qed.

(** [set] when the budget has room for the new entry: the table after is the
    table before with the entry inserted. *)
Lemma set_store_room s key value ttl now :
  ht_wf (store s) ->
  live_bytes s <= current_memory s ->
  current_memory s + (string_size key + string_size value) <= max_memory s ->
  max_memory s < 2 ^ 64 ->
  store (set std_hash key value ttl now s) =
  HashTable.insert std_hash key
    {| value := value; ttl := ttl; last_accessed := now |} (store s).
Proof.
  intros Hwf Hlive Hfit Hmax.
  unfold set, enforce_memory_limits.
  cbn [enforce_loop max_memory current_memory].
  pose proof (bytes_nonneg (HashTable.nodes (store s))) as Hnn.
  assert (H0 : 0 <= string_size key + string_size value)
    by (unfold string_size; lia).
  unfold live_bytes in Hlive.
  match goal with |- context [wrap64 (?c + _)] =>
    assert (Hc : 0 <= c <= current_memory s) end.
  { destruct (HashTable.get std_hash key (store s)) as [old|] eqn:G.
    - pose proof (bytes_present std_hash _ _ _ Hwf G) as Hp.
      pose proof (entry_bytes_nonneg key old) as Hold.
      pose proof (bytes_remove std_hash _ key Hwf) as Hrm.
      pose proof (bytes_nonneg (HashTable.nodes (HashTable.remove std_hash key
                                                   (store s)).2)) as Hrn.
      rewrite wrap64_small by (clear - Hlive Hfit Hmax Hp Hold Hrm Hrn H0; lia).
      clear - Hlive Hfit Hmax Hp Hold Hrm Hrn H0. lia.
    - clear - Hlive Hnn. lia. }
  rewrite wrap64_small by (clear - Hc Hfit Hmax H0; lia).
  match goal with |- context [?a <? ?b] =>
    destruct (Z.ltb_spec a b) as [Hlt|_]; [clear - Hc Hfit Hlt; lia|] end.
  done.
Qed.

End EngineEffects.

(** ** StorageEngine: invariants, the budget and the byte counter *)

(** X7.  In every engine that [set], [get], [del] and the reaper pass make
    of a new engine: the table is one that [insert] and [remove] make of a
    new table (so it has the shape and the load bounds of such tables), no
    key is twice in the LRU queue, every key of the table other than the
    empty string is in the queue, and the byte counter is within [size_t]. *)
Theorem engine_invariant (std_hash : std_string -> nat) (s : StorageEngine.t) :
  StorageEngine.reachable std_hash s ->
  HashTable.reachable std_hash (StorageEngine.store s) /\
  NoDup (MemoryManager.lru_queue (StorageEngine.mem_manager s)) /\
  (forall k, k <> [] ->
     is_Some (HashTable.get std_hash k (StorageEngine.store s)) ->
     k ∈ MemoryManager.lru_queue (StorageEngine.mem_manager s)) /\
  0 <= StorageEngine.current_memory s < 2 ^ 64.
Proof. apply reachable_consistent. Qed.

Lemma engine_invariant_witness :
  let s := StorageEngine.evict_expired sample_hash 5
             (StorageEngine.get sample_hash (str "a") 1 1
                (StorageEngine.del sample_hash (str "b") sample_store).2).2 in
  StorageEngine.reachable sample_hash s /\
  HashTable.reachable sample_hash (StorageEngine.store s) /\
  NoDup (MemoryManager.lru_queue (StorageEngine.mem_manager s)) /\
  (forall k, k <> [] ->
     is_Some (HashTable.get sample_hash k (StorageEngine.store s)) ->
     k ∈ MemoryManager.lru_queue (StorageEngine.mem_manager s)) /\
  0 <= StorageEngine.current_memory s < 2 ^ 64.
Proof.
  cbn zeta.
  assert (Hr : StorageEngine.reachable sample_hash
                 (StorageEngine.evict_expired sample_hash 5
                    (StorageEngine.get sample_hash (str "a") 1 1
                       (StorageEngine.del sample_hash (str "b") sample_store).2).2)).
  { apply StorageEngine.reach_evict_expired, StorageEngine.reach_get,
      StorageEngine.reach_del.
    unfold sample_store. do 2 apply StorageEngine.reach_set.
    apply StorageEngine.reach_create. lia. }
  split; [exact Hr|]. exact (engine_invariant sample_hash _ Hr).
Defined.

(** X8.  When the empty string is not a key of the LRU queue,
    [enforce_memory_limits] ends with the byte counter within the budget or
    with the queue empty, and what it takes from the queue is taken from
    its back; so does [set] of a key other than the empty string, and the
    empty string is not in the queue afterwards. *)
Theorem budget_enforced_without_empty_key (std_hash : std_string -> nat)
    (s : StorageEngine.t) :
  ([] ∉ MemoryManager.lru_queue (StorageEngine.mem_manager s)) ->
  (let s' := StorageEngine.enforce_memory_limits std_hash s in
   (StorageEngine.current_memory s' <= StorageEngine.max_memory s' \/
    MemoryManager.lru_queue (StorageEngine.mem_manager s') = []) /\
   exists evicted,
     MemoryManager.lru_queue (StorageEngine.mem_manager s) =
     MemoryManager.lru_queue (StorageEngine.mem_manager s') ++ evicted) /\
  forall key value ttl now, key <> [] ->
    let s' := StorageEngine.set std_hash key value ttl now s in
    (StorageEngine.current_memory s' <= StorageEngine.max_memory s' \/
     MemoryManager.lru_queue (StorageEngine.mem_manager s') = []) /\
    ([] ∉ MemoryManager.lru_queue (StorageEngine.mem_manager s')).
Proof.
  intros Hne. split; [by apply enforce_budget|].
  intros key value ttl now Hkey. cbn zeta. unfold StorageEngine.set.
  match goal with |- context [StorageEngine.enforce_memory_limits _ ?s0] =>
    destruct (enforce_budget std_hash s0) as (Hpost & ev & Hev) end.
  { cbn. intros [Hk|Hin]%elem_of_cons; [done|].
    apply elem_of_list_remove in Hin as [_ Hin]. done. }
  split; [done|]. intros Hin.
  assert (Hin' : [] ∈ MemoryManager.lru_queue
                   (MemoryManager.update_lru key (StorageEngine.mem_manager s))).
  { cbn [StorageEngine.mem_manager] in Hev. rewrite Hev. apply elem_of_app. by left. }
  cbn in Hin'. apply elem_of_cons in Hin' as [Hk|Hin']; [done|].
  apply elem_of_list_remove in Hin' as [_ Hin']. done.
Qed.

Lemma budget_enforced_without_empty_key_witness :
  let s := StorageEngine.set sample_hash (str "a") (str "1") StorageEngine.seconds_max 0
             (StorageEngine.set sample_hash (str "b") (str "22") StorageEngine.seconds_max 0
                (StorageEngine.create 10)) in
  let s' := StorageEngine.set sample_hash (str "c") (str "123456")
              StorageEngine.seconds_max 0 s in
  ([] ∉ MemoryManager.lru_queue (StorageEngine.mem_manager s)) /\
  str "c" <> [] /\
  StorageEngine.current_memory s' = 9 /\
  MemoryManager.lru_queue (StorageEngine.mem_manager s') = [str "c"; str "a"] /\
  (StorageEngine.current_memory s' <= StorageEngine.max_memory s' \/
   MemoryManager.lru_queue (StorageEngine.mem_manager s') = []) /\
  ([] ∉ MemoryManager.lru_queue (StorageEngine.mem_manager s')).
Proof.
  cbn zeta.
  assert (Hne : [] ∉ MemoryManager.lru_queue (StorageEngine.mem_manager
            (StorageEngine.set sample_hash (str "a") (str "1") StorageEngine.seconds_max 0
               (StorageEngine.set sample_hash (str "b") (str "22")
                  StorageEngine.seconds_max 0 (StorageEngine.create 10))))).
  { vm_compute. intros Hin. repeat (apply elem_of_cons in Hin as [Hin|Hin];
      [discriminate Hin|]). by apply elem_of_nil in Hin. }
  assert (Hc : str "c" <> []) by discriminate.
  split; [exact Hne|]. split; [exact Hc|].
  split; [vm_compute; reflexivity|]. split; [vm_compute; reflexivity|].
  destruct (budget_enforced_without_empty_key sample_hash _ Hne) as [_ Hset].
  exact (Hset (str "c") (str "123456") StorageEngine.seconds_max 0 Hc).
Defined.

(** X9.  The distance between the byte counter and the bytes in the table
    is the same after [set] and after [del]: when the counter is not below
    the bytes of the live entries and adding the new entry does not pass
    2^64, [set] changes both by the same amount, also when it overwrites an
    entry and when the budget loop evicts; so does [del].  In particular a
    counter that is exact stays exact. *)
Theorem set_del_keep_byte_drift (std_hash : std_string -> nat) (s : StorageEngine.t) :
  HashTable.wf std_hash (StorageEngine.store s) ->
  StorageEngine.live_bytes s <= StorageEngine.current_memory s < 2 ^ 64 ->
  (forall key value ttl now,
     StorageEngine.current_memory s + (string_size key + string_size value) < 2 ^ 64 ->
     let s' := StorageEngine.set std_hash key value ttl now s in
     StorageEngine.current_memory s' - StorageEngine.live_bytes s' =
       StorageEngine.current_memory s - StorageEngine.live_bytes s /\
     StorageEngine.live_bytes s' <= StorageEngine.current_memory s' < 2 ^ 64) /\
  (forall key,
     let s' := (StorageEngine.del std_hash key s).2 in
     StorageEngine.current_memory s' - StorageEngine.live_bytes s' =
       StorageEngine.current_memory s - StorageEngine.live_bytes s /\
     StorageEngine.live_bytes s' <= StorageEngine.current_memory s' < 2 ^ 64).
Proof.
  intros Hwf Hcm. split.
  - intros key value ttl now Hfit. cbn zeta.
    unfold StorageEngine.set, StorageEngine.enforce_memory_limits.
    set (e := {| StorageEngine.value := value; StorageEngine.ttl := ttl;
                 StorageEngine.last_accessed := now |}).
    pose proof (bytes_insert std_hash _ key e Hwf) as Hins.
    pose proof (bytes_nonneg (HashTable.nodes (HashTable.insert std_hash key e
                                                 (StorageEngine.store s)))) as Hnn.
    assert (Heb : StorageEngine.entry_bytes key e = string_size key + string_size value)
      by done.
    assert (H0 : 0 <= string_size key + string_size value)
      by (unfold string_size; lia).
    match goal with |- context [StorageEngine.enforce_loop _ ?f ?s0] =>
      pose proof (enforce_loop_drift std_hash f s0) as Hloop end.
    cbn [StorageEngine.store StorageEngine.current_memory] in Hloop.
    unfold StorageEngine.live_bytes in *.
    cbn [StorageEngine.store StorageEngine.current_memory] in Hloop.
    destruct (HashTable.get std_hash key (StorageEngine.store s)) as [old|] eqn:G.
    + pose proof (bytes_present std_hash _ _ _ Hwf G) as Hp.
      pose proof (entry_bytes_nonneg key old) as Hold.
      pose proof (bytes_remove std_hash _ key Hwf) as Hrm.
      pose proof (bytes_nonneg (HashTable.nodes (HashTable.remove std_hash key
                                                   (StorageEngine.store s)).2)) as Hrn.
      rewrite Heb in Hins.
      assert (Hw1 : wrap64 (StorageEngine.current_memory s -
                            StorageEngine.entry_bytes key old) =
                    StorageEngine.current_memory s - StorageEngine.entry_bytes key old).
      { clear - Hcm Hp Hins Hold H0 Hnn Hrm Hrn. apply wrap64_small. lia. }
      rewrite Hw1 in *.
      assert (Hw2 : wrap64 (StorageEngine.current_memory s -
                            StorageEngine.entry_bytes key old +
                            (string_size key + string_size value)) =
                    StorageEngine.current_memory s - StorageEngine.entry_bytes key old +
                    (string_size key + string_size value)).
      { clear - Hcm Hp Hins Hold H0 Hnn Hrm Hrn Hfit. apply wrap64_small. lia. }
      rewrite Hw2 in *.
      destruct Hloop as [Hd Hl]; [by apply insert_wf| |].
      { clear - Hcm Hp Hins Hold H0 Hnn Hrm Hrn Hfit. lia. }
      clear - Hcm Hp Hins Hold H0 Hnn Hrm Hrn Hfit Hd Hl. lia.
    + rewrite (nodes_absent std_hash _ _ Hwf G), Heb in Hins.
      assert (Hw2 : wrap64 (StorageEngine.current_memory s +
                            (string_size key + string_size value)) =
                    StorageEngine.current_memory s +
                    (string_size key + string_size value)).
      { clear - Hcm H0 Hnn Hfit. apply wrap64_small.
        pose proof (bytes_nonneg (HashTable.nodes (StorageEngine.store s))). lia. }
      rewrite Hw2 in *.
      destruct Hloop as [Hd Hl]; [by apply insert_wf| |].
      { clear - Hcm Hins H0 Hnn Hfit. lia. }
      clear - Hcm Hins H0 Hnn Hfit Hd Hl. lia.
  - intros key. cbn zeta. unfold StorageEngine.del.
    destruct (HashTable.get std_hash key (StorageEngine.store s)) as [old|] eqn:G;
      cbn [snd]; [|lia].
    unfold StorageEngine.live_bytes in *.
    cbn [StorageEngine.store StorageEngine.current_memory].
    pose proof (bytes_present std_hash _ _ _ Hwf G) as Hp.
    rewrite <- (bytes_remove std_hash _ key Hwf) in Hp.
    pose proof (entry_bytes_nonneg key old) as Hold.
    pose proof (bytes_nonneg (HashTable.nodes (HashTable.remove std_hash key
                                                 (StorageEngine.store s)).2)) as Hnn.
    rewrite wrap64_small by (clear - Hcm Hp Hold Hnn; lia).
    clear - Hcm Hp Hold Hnn. lia.
Qed.

Lemma set_del_keep_byte_drift_witness :
  let s' := StorageEngine.set sample_hash (str "a") (str "4444")
              StorageEngine.seconds_max 0 sample_store in
  HashTable.wf sample_hash (StorageEngine.store sample_store) /\
  StorageEngine.live_bytes sample_store <= StorageEngine.current_memory sample_store
    < 2 ^ 64 /\
  StorageEngine.current_memory sample_store + (string_size (str "a") + string_size (str "4444"))
    < 2 ^ 64 /\
  StorageEngine.current_memory sample_store = 5 /\
  StorageEngine.current_memory s' = 8 /\
  StorageEngine.current_memory s' - StorageEngine.live_bytes s' =
    StorageEngine.current_memory sample_store - StorageEngine.live_bytes sample_store.
Proof.
  cbn zeta.
  assert (Hcm : StorageEngine.live_bytes sample_store <=
                StorageEngine.current_memory sample_store < 2 ^ 64)
    by (vm_compute; split; [discriminate|reflexivity]).
  assert (Hfit : StorageEngine.current_memory sample_store +
                 (string_size (str "a") + string_size (str "4444")) < 2 ^ 64)
    by (vm_compute; reflexivity).
  split; [exact sample_store_wf|]. split; [exact Hcm|]. split; [exact Hfit|].
  split; [vm_compute; reflexivity|]. split; [vm_compute; reflexivity|].
  destruct (set_del_keep_byte_drift sample_hash sample_store sample_store_wf Hcm)
    as [Hset _].
  exact (proj1 (Hset (str "a") (str "4444") StorageEngine.seconds_max 0 Hfit)).
Defined.

(** X10.  What [get] changes.  The entry of no other key changes, nor do
    the byte counter and the budget.  When the table holds the key, its
    entry gets the clock reading as access time and the expiry test then
    looks at that entry: if it passes the test, the value is returned, the
    key goes to the front of the LRU queue and the bytes in the table stay;
    if not, the empty string is returned, the entry is gone, its bytes are no
    longer in the table and the LRU queue is left as it was.  When the table
    does not hold the key, nothing changes. *)
Theorem get_effect (std_hash : std_string -> nat) (s : StorageEngine.t)
    (key : std_string) (now1 now2 : Z) :
  HashTable.wf std_hash (StorageEngine.store s) ->
  let r := StorageEngine.get std_hash key now1 now2 s in
  (forall k, k <> key ->
     HashTable.get std_hash k (StorageEngine.store r.2) =
     HashTable.get std_hash k (StorageEngine.store s)) /\
  StorageEngine.current_memory r.2 = StorageEngine.current_memory s /\
  StorageEngine.max_memory r.2 = StorageEngine.max_memory s /\
  match HashTable.get std_hash key (StorageEngine.store s) with
  | None => r = ([], s)
  | Some e =>
      let e' := {| StorageEngine.value := StorageEngine.value e;
                   StorageEngine.ttl := StorageEngine.ttl e;
                   StorageEngine.last_accessed := now1 |} in
      if StorageEngine.expired now2 e' then
        r.1 = [] /\
        HashTable.get std_hash key (StorageEngine.store r.2) = None /\
        StorageEngine.mem_manager r.2 = StorageEngine.mem_manager s /\
        StorageEngine.live_bytes r.2 =
          StorageEngine.live_bytes s - StorageEngine.entry_bytes key e
      else
        r.1 = StorageEngine.value e /\
        HashTable.get std_hash key (StorageEngine.store r.2) = Some e' /\
        MemoryManager.lru_queue (StorageEngine.mem_manager r.2) =
          key :: filter (λ k, k ≠ key)
                   (MemoryManager.lru_queue (StorageEngine.mem_manager s)) /\
        StorageEngine.live_bytes r.2 = StorageEngine.live_bytes s
  end.
Proof.
  intros Hwf. cbn zeta.
  pose proof (get_live_bytes std_hash s key now1 now2) as Hlive.
  unfold StorageEngine.get in *.
  destruct (HashTable.get std_hash key (StorageEngine.store s)) as [e|] eqn:G.
  2:{ cbn. done. }
  specialize (Hlive e Hwf eq_refl).
  destruct (StorageEngine.expired now2 _) eqn:Ex; cbn [fst snd] in *;
    cbn [StorageEngine.store StorageEngine.current_memory StorageEngine.max_memory
         StorageEngine.mem_manager].
  - split; [|split; [done|split; [done|]]].
    + intros k Hk. rewrite get_remove by by apply insert_wf.
      rewrite decide_False by done. rewrite get_insert by done.
      by rewrite decide_False.
    + split; [done|]. split; [|done].
      rewrite get_remove by by apply insert_wf. by rewrite decide_True.
  - split; [|split; [done|split; [done|]]].
    + intros k Hk. rewrite get_insert by done. by rewrite decide_False.
    + split; [done|]. split; [|done].
      rewrite get_insert by done. by rewrite decide_True.
Qed.

Lemma get_effect_witness :
  let r := StorageEngine.get sample_hash (str "b") 7 7 sample_store in
  HashTable.wf sample_hash (StorageEngine.store sample_store) /\
  r.1 = str "22" /\
  MemoryManager.lru_queue (StorageEngine.mem_manager r.2) = [str "b"; str "a"] /\
  HashTable.get sample_hash (str "a") (StorageEngine.store r.2) =
    HashTable.get sample_hash (str "a") (StorageEngine.store sample_store) /\
  StorageEngine.current_memory r.2 = StorageEngine.current_memory sample_store.
Proof.
  cbn zeta. split; [exact sample_store_wf|].
  split; [vm_compute; reflexivity|]. split; [vm_compute; reflexivity|].
  destruct (get_effect sample_hash sample_store (str "b") 7 7 sample_store_wf)
    as (Hother & Hcm & _).
  split; [|exact Hcm]. apply Hother. discriminate.
Defined.

(** X11.  What the reaper pass changes, on a table of the right shape.  A
    key reads afterwards as before if its entry is not expired at [now] and
    as absent if it is; the LRU queue loses the keys of the expired entries
    and keeps the order of the others; the bytes in the table drop by the
    bytes of the expired entries; the byte counter and the budget stay as
    they were. *)
Theorem evict_expired_effect (std_hash : std_string -> nat) (s : StorageEngine.t)
    (now : Z) :
  HashTable.wf std_hash (StorageEngine.store s) ->
  let s' := StorageEngine.evict_expired std_hash now s in
  HashTable.wf std_hash (StorageEngine.store s') /\
  (forall k, HashTable.get std_hash k (StorageEngine.store s') =
             match HashTable.get std_hash k (StorageEngine.store s) with
             | Some e => if StorageEngine.expired now e then None else Some e
             | None => None
             end) /\
  MemoryManager.lru_queue (StorageEngine.mem_manager s') =
    filter (λ k, k ∉ StorageEngine.keys_to_remove now s)
           (MemoryManager.lru_queue (StorageEngine.mem_manager s)) /\
  StorageEngine.live_bytes s' =
    StorageEngine.live_bytes s - StorageEngine.expired_bytes now s /\
  StorageEngine.current_memory s' = StorageEngine.current_memory s /\
  StorageEngine.max_memory s' = StorageEngine.max_memory s.
Proof.
  intros Hwf. cbn zeta.
  destruct (evict_expired_spec std_hash s now Hwf) as (Hwf' & Hget & Hq & Hcm & Hmax).
  split; [done|]. split; [done|]. split; [done|].
  split; [by apply evict_expired_live_bytes|done].
Qed.

Lemma evict_expired_effect_witness :
  let s := StorageEngine.set sample_hash (str "t") (str "x") 1 0 sample_store in
  let s' := StorageEngine.evict_expired sample_hash (5 * StorageEngine.ticks_per_second) s in
  HashTable.wf sample_hash (StorageEngine.store s) /\
  StorageEngine.keys_to_remove (5 * StorageEngine.ticks_per_second) s = [str "t"] /\
  HashTable.get sample_hash (str "t") (StorageEngine.store s') = None /\
  HashTable.get sample_hash (str "a") (StorageEngine.store s') =
    Some (StorageEngine.mkEntry (str "1") StorageEngine.seconds_max 0) /\
  MemoryManager.lru_queue (StorageEngine.mem_manager s') = [str "a"; str "b"] /\
  StorageEngine.live_bytes s' = 5 /\
  StorageEngine.current_memory s' = 7.
Proof.
  cbn zeta.
  assert (Hwf : HashTable.wf sample_hash (StorageEngine.store
            (StorageEngine.set sample_hash (str "t") (str "x") 1 0 sample_store))).
  { apply set_wf. exact sample_store_wf. }
  split; [exact Hwf|]. split; [vm_compute; reflexivity|].
  destruct (evict_expired_effect sample_hash _ (5 * StorageEngine.ticks_per_second) Hwf)
    as (_ & Hget & Hq & Hlive & Hcm & _).
  split; [rewrite Hget; vm_compute; reflexivity|].
  split; [rewrite Hget; vm_compute; reflexivity|].
  split; [rewrite Hq; vm_compute; reflexivity|].
  split; [rewrite Hlive; vm_compute; reflexivity|].
  rewrite Hcm. vm_compute. reflexivity.
Defined.



(** The expiry test at TTLs whose count of ticks does not fit [int64_t]: a
    TTL of 9223372036 seconds is the last that the test takes at its value;
    from 9223372037 seconds on the count of ticks is wrapped, here to a
    negative number, and an entry that has just been touched counts as
    expired: [get] right after [set] with a TTL of 10^10 seconds returns the
    empty string and removes the entry. *)
Remark expiry_test_beyond_int64_ticks :
  let s := StorageEngine.set sample_hash (str "k") (str "v") 10000000000 0
             (StorageEngine.create 100) in
  StorageEngine.expired 0 (StorageEngine.mkEntry (str "v") 9223372036 0) = false /\
  StorageEngine.expired 0 (StorageEngine.mkEntry (str "v") 9223372037 0) = true /\
  StorageEngine.expired 0 (StorageEngine.mkEntry (str "v") 10000000000 0) = true /\
  HashTable.get sample_hash (str "k") (StorageEngine.store s) =
    Some (StorageEngine.mkEntry (str "v") 10000000000 0) /\
  (StorageEngine.get sample_hash (str "k") 0 0 s).1 = [] /\
  HashTable.get sample_hash (str "k")
    (StorageEngine.store (StorageEngine.get sample_hash (str "k") 0 0 s).2) = None /\
  StorageEngine.keys_to_remove 0 s = [str "k"].
Proof. vm_compute. done. Qed.

(** ** RespProtocol: what a successful parse says about the data *)

Section RespParsed.
Import RespProtocol.

Lemma find_crlf_Some_bound (s : std_string) (i : nat) :
  find_crlf s = Some i -> (i + 2 <= length s)%nat.
Proof.
  revert i. induction s as [|c1 [|c2 tl] IH]; intros i; [done|done|].
  rewrite find_crlf_cons. destruct (_ && _).
  - intros [= <-]. cbn. lia.
  - destruct (find_crlf (c2 :: tl)) as [j|]; [|done]. cbn.
    intros [= <-]. specialize (IH j eq_refl). cbn in *. lia.
Qed.

Lemma find_crlf_app_Some (s more : std_string) (i : nat) :
  find_crlf s = Some i -> find_crlf (s ++ more) = Some i.
Proof.
  revert i. induction s as [|c1 [|c2 tl] IH]; intros i; [done|done|].
  change ((c1 :: c2 :: tl) ++ more) with (c1 :: c2 :: (tl ++ more)).
  rewrite !find_crlf_cons. destruct (_ && _); [done|].
  destruct (find_crlf (c2 :: tl)) as [j|]; [|done]. cbn [fmap option_fmap option_map].
  intros [= <-]. change (c2 :: tl ++ more) with ((c2 :: tl) ++ more).
  by rewrite (IH j eq_refl).
Qed.

Lemma findCRLF_Some (data : std_string) (p : nat) :
  findCRLF data 1 = Some p -> (1 <= p)%nat /\ (p + 2 <= length data)%nat.
Proof.
  unfold findCRLF. destruct (Nat.leb_spec (length data) 1); [done|].
  destruct (find_crlf (drop 1 data)) as [i|] eqn:E; [|done].
  apply find_crlf_Some_bound in E. rewrite length_drop in E.
  cbn. intros [= <-]. lia.
Qed.

Lemma findCRLF_app (data more : std_string) (p : nat) :
  findCRLF data 1 = Some p -> findCRLF (data ++ more) 1 = Some p.
Proof.
  unfold findCRLF. destruct (Nat.leb_spec (length data) 1); [done|].
  destruct (Nat.leb_spec (length (data ++ more)) 1) as [Hle|_].
  { rewrite length_app in Hle. lia. }
  destruct (find_crlf (drop 1 data)) as [i|] eqn:E; [|done].
  rewrite drop_app_le by lia. by rewrite (find_crlf_app_Some _ more i E).
Qed.

Lemma substr_app_l (data more : std_string) (pos k : nat) :
  (pos + k <= length data)%nat -> substr (data ++ more) pos k = substr data pos k.
Proof.
  intros Hle. unfold substr. rewrite drop_app_le by lia.
  rewrite take_app_le; [done|]. rewrite length_drop. lia.
Qed.

Lemma parse_elements_consumed (parse_rec : std_string -> parse_result)
    (data : std_string) :
  (forall d v k, parse_rec d = Parsed v k -> (k <= length d)%nat) ->
  forall (m cp : nat) (acc : list RespValue) v (k : nat),
  (cp <= length data)%nat ->
  parse_elements parse_rec data m cp acc = Parsed v k ->
  (cp <= k <= length data)%nat.
Proof.
  intros Hrec. induction m as [|m IH]; intros cp acc v k Hcp; cbn [parse_elements].
  - intros [= _ <-]. lia.
  - destruct (Nat.leb_spec (length data) cp); [done|].
    destruct (parse_rec (drop cp data)) as [| |element bytes] eqn:E; [done|done|].
    apply Hrec in E. rewrite length_drop in E.
    intros Hp. apply IH in Hp; lia.
Qed.

(** The bytes that a successful parse takes are there. *)
Lemma parse_n_consumed (n : nat) :
  forall (data : std_string) v (k : nat),
  parse_n n data = Parsed v k -> (3 <= k <= length data)%nat.
Proof.
  induction n as [|n IH]; intros data v k; [done|]. cbn [parse_n].
  destruct data as [|c data']; [done|]. set (data := c :: data').
  destruct (ascii_eqb c "+"); [|destruct (ascii_eqb c "-"); [|
    destruct (ascii_eqb c ":"); [|destruct (ascii_eqb c "$"); [|
      destruct (ascii_eqb c "*"); [|done]]]]].
  - unfold parseSimpleString.
    destruct (findCRLF data 1) as [p|] eqn:E; [|done].
    apply findCRLF_Some in E. intros [= _ <-]. lia.
  - unfold parseError.
    destruct (findCRLF data 1) as [p|] eqn:E; [|done].
    apply findCRLF_Some in E. intros [= _ <-]. lia.
  - unfold parseInteger.
    destruct (findCRLF data 1) as [p|] eqn:E; [|done].
    apply findCRLF_Some in E. destruct (stoll _); [|done]. intros [= _ <-]. lia.
  - unfold parseBulkString.
    destruct (findCRLF data 1) as [p|] eqn:E; [|done].
    apply findCRLF_Some in E. destruct (stoi _) as [len|]; [|done].
    destruct (len =? -1); [intros [= _ <-]; lia|].
    destruct (Z.ltb_spec len 0); [done|].
    destruct (Z.ltb_spec (string_size data) (Z.of_nat p + 2 + len + 2)); [done|].
    intros [= _ <-]. unfold string_size in *. lia.
  - unfold parseArray.
    destruct (findCRLF data 1) as [p|] eqn:E; [|done].
    apply findCRLF_Some in E. destruct (stoi _) as [len|]; [|done].
    destruct (len =? -1); [intros [= _ <-]; lia|].
    destruct (Z.ltb_spec len 0); [done|].
    intros Hp. apply parse_elements_consumed in Hp; [lia| |lia].
    intros d v' k' Hd. apply IH in Hd. lia.
Qed.

Lemma parse_elements_extends (f g : std_string -> parse_result)
    (data more : std_string) :
  (forall d v k, f d = Parsed v k -> g (d ++ more) = Parsed v k) ->
  forall (m cp : nat) (acc : list RespValue) v (k : nat),
  parse_elements f data m cp acc = Parsed v k ->
  parse_elements g (data ++ more) m cp acc = Parsed v k.
Proof.
  intros Hfg. induction m as [|m IH]; intros cp acc v k; cbn [parse_elements]; [done|].
  destruct (Nat.leb_spec (length data) cp); [done|].
  destruct (Nat.leb_spec (length (data ++ more)) cp) as [Hle|_].
  { rewrite length_app in Hle. lia. }
  destruct (f (drop cp data)) as [| |element bytes] eqn:E; [done|done|].
  rewrite drop_app_le by lia. rewrite (Hfg _ _ _ E). apply IH.
Qed.

(** Bytes after the data of a successful parse, and more turns of the
    recursion, change nothing. *)
Lemma parse_n_extends (n : nat) :
  forall (m : nat) (data more : std_string) v (k : nat),
  (n <= m)%nat -> parse_n n data = Parsed v k ->
  parse_n m (data ++ more) = Parsed v k.
Proof.
  induction n as [|n IH]; intros m data more v k Hm; [done|].
  destruct m as [|m]; [lia|]. cbn [parse_n].
  destruct data as [|c data']; [done|].
  change ((c :: data') ++ more) with (c :: (data' ++ more)).
  cbn match. change (c :: (data' ++ more)) with ((c :: data') ++ more).
  set (data := c :: data').
  destruct (ascii_eqb c "+"); [|destruct (ascii_eqb c "-"); [|
    destruct (ascii_eqb c ":"); [|destruct (ascii_eqb c "$"); [|
      destruct (ascii_eqb c "*"); [|done]]]]].
  - unfold parseSimpleString.
    destruct (findCRLF data 1) as [p|] eqn:E; [|done].
    rewrite (findCRLF_app _ more _ E). apply findCRLF_Some in E.
    rewrite substr_app_l by lia. done.
  - unfold parseError.
    destruct (findCRLF data 1) as [p|] eqn:E; [|done].
    rewrite (findCRLF_app _ more _ E). apply findCRLF_Some in E.
    rewrite substr_app_l by lia. done.
  - unfold parseInteger.
    destruct (findCRLF data 1) as [p|] eqn:E; [|done].
    rewrite (findCRLF_app _ more _ E). apply findCRLF_Some in E.
    rewrite substr_app_l by lia. done.
  - unfold parseBulkString.
    destruct (findCRLF data 1) as [p|] eqn:E; [|done].
    rewrite (findCRLF_app _ more _ E). apply findCRLF_Some in E.
    rewrite substr_app_l by lia.
    destruct (stoi _) as [len|]; [|done].
    destruct (len =? -1); [done|].
    destruct (Z.ltb_spec len 0); [done|].
    destruct (Z.ltb_spec (string_size data) (Z.of_nat p + 2 + len + 2)); [done|].
    destruct (Z.ltb_spec (string_size (data ++ more)) (Z.of_nat p + 2 + len + 2)) as [Hlt|_].
    { unfold string_size in *. rewrite length_app in Hlt. lia. }
    rewrite substr_app_l by (unfold string_size in *; lia). done.
  - unfold parseArray.
    destruct (findCRLF data 1) as [p|] eqn:E; [|done].
    rewrite (findCRLF_app _ more _ E). apply findCRLF_Some in E.
    rewrite substr_app_l by lia.
    destruct (stoi _) as [len|]; [|done].
    destruct (len =? -1); [done|].
    destruct (Z.ltb_spec len 0); [done|].
    apply parse_elements_extends. intros d v' k' Hd. apply IH; [lia|done].
Qed.

End RespParsed.

(** X13.  A successful [parse] takes at least three bytes and no more bytes
    than the data has: the position that the caller moves on by is within
    the data. *)
Theorem parse_consumed_within_data (data : std_string)
    (v : RespProtocol.RespValue) (bytes_consumed : nat) :
  RespProtocol.parse data = RespProtocol.Parsed v bytes_consumed ->
  (3 <= bytes_consumed <= length data)%nat.
Proof. apply parse_n_consumed. Qed.

Lemma parse_consumed_within_data_witness :
  let data := str "$3" ++ CRLF ++ str "abc" ++ CRLF ++ str "+OK" in
  RespProtocol.parse data = RespProtocol.Parsed (RespProtocol.BulkString (str "abc")) 9 /\
  (3 <= 9 <= length data)%nat.
Proof.
  cbn zeta.
  assert (Hp : RespProtocol.parse (str "$3" ++ CRLF ++ str "abc" ++ CRLF ++ str "+OK") =
               RespProtocol.Parsed (RespProtocol.BulkString (str "abc")) 9)
    by (vm_compute; reflexivity).
  split; [exact Hp|]. exact (parse_consumed_within_data _ _ _ Hp).
Defined.

(** X14.  A successful [parse] does not depend on what follows the bytes it
    takes: with any bytes appended to the data, the value and the number of
    bytes consumed are the same. *)
Theorem parse_ignores_following_bytes (data more : std_string)
    (v : RespProtocol.RespValue) (bytes_consumed : nat) :
  RespProtocol.parse data = RespProtocol.Parsed v bytes_consumed ->
  RespProtocol.parse (data ++ more) = RespProtocol.Parsed v bytes_consumed.
Proof.
  intros Hp. unfold RespProtocol.parse in *.
  apply (parse_n_extends (length data)); [|done]. rewrite length_app. lia.
Qed.

Lemma parse_ignores_following_bytes_witness :
  let data := str "*2" ++ CRLF ++ str ":+7" ++ CRLF ++ str "$-1" ++ CRLF in
  let v := RespProtocol.Array [RespProtocol.Integer 7; RespProtocol.NullBulkString] in
  RespProtocol.parse data = RespProtocol.Parsed v 14 /\
  RespProtocol.parse (data ++ str "*1" ++ CRLF ++ str "$4") = RespProtocol.Parsed v 14.
Proof.
  cbn zeta.
  assert (Hp : RespProtocol.parse (str "*2" ++ CRLF ++ str ":+7" ++ CRLF ++ str "$-1" ++ CRLF) =
               RespProtocol.Parsed
                 (RespProtocol.Array [RespProtocol.Integer 7; RespProtocol.NullBulkString]) 14)
    by (vm_compute; reflexivity).
  split; [exact Hp|]. exact (parse_ignores_following_bytes _ _ _ _ Hp).
Defined.

(** X15.  The encodings are prefix-free: if the encoding of a value followed
    by some bytes is the encoding of another value followed by some bytes,
    the values are the same and so are the bytes that follow.  So the
    encoder is injective and a stream of encoded values splits in one way
    only. *)
Theorem encode_prefix_free (v1 v2 : RespProtocol.RespValue) (rest1 rest2 : std_string) :
  RespProtocol.well_formed v1 = true -> RespProtocol.well_formed v2 = true ->
  RespProtocol.encode v1 ++ rest1 = RespProtocol.encode v2 ++ rest2 ->
  v1 = v2 /\ rest1 = rest2.
Proof.
  intros H1 H2 Heq.
  pose proof (parse_n_encode v1 H1 (length (RespProtocol.encode v1 ++ rest1)) rest1
                ltac:(lia)) as P1.
  pose proof (parse_n_encode v2 H2 (length (RespProtocol.encode v1 ++ rest1)) rest2) as P2.
  rewrite <- Heq in P2. rewrite P1 in P2.
  specialize (P2 ltac:(lia)). injection P2 as -> Hlen.
  split; [done|]. by apply app_inv_head in Heq.
Qed.

Lemma encode_prefix_free_witness :
  let v := RespProtocol.Array [RespProtocol.BulkString (str "GET");
                               RespProtocol.BulkString (str "k")] in
  RespProtocol.well_formed v = true /\
  RespProtocol.encode v ++ str "+OK" ++ CRLF = RespProtocol.encode v ++ str "+OK" ++ CRLF /\
  v = v /\ str "+OK" ++ CRLF = str "+OK" ++ CRLF.
Proof.
  cbn zeta. split; [reflexivity|]. split; [reflexivity|].
  apply (encode_prefix_free _ _ (str "+OK" ++ CRLF) (str "+OK" ++ CRLF));
    reflexivity.
Defined.

Lemma encode_command_eq (command : std_string) (args : list std_string) :
  Client.encode_command command args = RespProtocol.encodeCommand command args.
Proof.
  unfold Client.encode_command, RespProtocol.encodeCommand, RespProtocol.encodeArray,
    RespProtocol.encodeArray_with.
  cbn [length flat_map RespProtocol.encode]. rewrite length_map.
  replace (Z.of_nat (S (length args))) with (Z.of_nat (length args) + 1) by lia.
  generalize (to_string (Z.of_nat (length args) + 1)). intros count.
  assert (Hfold : forall (acc : std_string) (l : list std_string),
            foldl (λ resp arg,
                     resp ++ str "$" ++ to_string (string_size arg) ++ CRLF ++ arg ++ CRLF)
                  acc l =
            acc ++ flat_map RespProtocol.encode (map RespProtocol.BulkString l)).
  { intros acc l. revert acc. induction l as [|a l IH]; intros acc; cbn [foldl map flat_map].
    - by rewrite app_nil_r.
    - rewrite IH. cbn [RespProtocol.encode]. unfold RespProtocol.encodeBulkString.
      by rewrite <- !(assoc_L (++)). }
  rewrite Hfold. unfold RespProtocol.encodeBulkString.
  by rewrite <- !(assoc_L (++)).
Qed.

(** X16.  [Client::encode_command] builds by hand the bytes that
    [RespProtocol::encodeCommand] gives for the same command and arguments:
    the array of the command and its arguments as bulk strings. *)
Theorem client_encode_command_is_encodeCommand (command : std_string)
    (args : list std_string) :
  Client.encode_command command args = RespProtocol.encodeCommand command args.
Proof. apply encode_command_eq. Qed.

(** ** Connection: complete commands and what is left of the buffer *)

Section PipelineProofs.
Import Connection.

Context {ServerState : Type}.
Variable execute_command :
  std_string -> list std_string -> ServerState -> std_string * ServerState.

Implicit Types (c : Connection.t) (srv : ServerState) (buf : std_string).

Abbreviation enc_bulk := RespProtocol.encodeBulkString.

(** The bytes of a command, as the client sends them. *)
Lemma encode_command_bytes (command : std_string) (args : list std_string) :
  Client.encode_command command args =
  "*"%char :: to_string (Z.of_nat (length args) + 1) ++ CRLF ++
  flat_map enc_bulk (command :: args).
Proof.
  rewrite encode_command_eq.
  unfold RespProtocol.encodeCommand, RespProtocol.encodeArray,
    RespProtocol.encodeArray_with.
  cbn [length]. rewrite length_map.
  replace (Z.of_nat (S (length args))) with (Z.of_nat (length args) + 1) by lia.
  cbn [str list_ascii_of_string app]. do 3 f_equal.
  cbn [flat_map map RespProtocol.encode]. f_equal.
  induction args as [|a args IH]; [done|]. cbn [flat_map map RespProtocol.encode].
  by rewrite IH.
Qed.

(** One turn of the loop on a buffer that starts with a complete command. *)
Lemma process_loop_command (fuel : nat) c srv (command : std_string)
    (args : list std_string) (rest : std_string) :
  sized (command, args) ->
  input_buffer_ c = Client.encode_command command args ++ rest ->
  process_loop execute_command (S fuel) 0 c srv =
  process_loop execute_command fuel 0
    {| state_ := state_ c; input_buffer_ := rest;
       output_queue_ :=
         output_queue_ (add_response (execute_command (to_upper command) args srv).1 c) |}
    (execute_command (to_upper command) args srv).2.
Proof.
  intros (Hcmd & Hargs & Hcount) Hbuf. cbn [fst snd] in *.
  rewrite encode_command_bytes in Hbuf.
  set (count := to_string (Z.of_nat (length args) + 1)) in *.
  set (body := flat_map enc_bulk (command :: args)) in *.
  assert (Hbuf' : input_buffer_ c = [] ++ "*"%char :: count ++ CRLF ++ (body ++ rest)).
  { rewrite Hbuf. cbn [app]. by rewrite <- !(assoc_L (++)). }
  cbn [process_loop].
  destruct (Nat.ltb_spec 0 (length (input_buffer_ c))) as [_|Hlen].
  2:{ rewrite Hbuf in Hlen. cbn in Hlen. lia. }
  assert (Hstar : char_at_is (input_buffer_ c) 0 "*"%char = true) by by rewrite Hbuf.
  rewrite Hstar.
  destruct (field_at [] count (body ++ rest) "*"%char eq_refl
              (find_crlf_to_string _)) as [Hfind Hfield].
  cbn zeta in Hfind, Hfield. rewrite <- Hbuf' in Hfind, Hfield.
  change (length (@nil ascii)) with 0%nat in Hfind, Hfield.
  cbn [Nat.add] in Hfind, Hfield. rewrite Hfind.
  change (0 + 1)%nat with 1%nat.
  replace (S (length count) - 0 - 1)%nat with (S (length count) - 0 - 1)%nat by done.
  rewrite Hfield. unfold stoi. subst count.
  rewrite sto_to_string by (unfold INT_MIN, INT_MAX in *; lia).
  destruct (Z.leb_spec (Z.of_nat (length args) + 1) 0) as [Hle|_]; [lia|].
  set (count := to_string (Z.of_nat (length args) + 1)) in *.
  set (pre := "*"%char :: count ++ CRLF).
  assert (Hbuf2 : input_buffer_ c = pre ++ body ++ rest).
  { rewrite Hbuf. subst pre. cbn [app]. by rewrite <- !(assoc_L (++)). }
  assert (Hpre : (S (length count) + 2)%nat = length pre).
  { subst pre. cbn [length]. rewrite length_app. cbn. lia. }
  rewrite Hpre.
  replace (Z.to_nat (Z.of_nat (length args) + 1)) with (length (command :: args) + 0)%nat
    by (cbn [length]; lia).
  rewrite Hbuf2 at 1. subst body.
  rewrite (read_elements_bulks (command :: args) pre rest 0 [])
    by by constructor.
  cbn [read_elements app].
  assert (Hdrop : forall c', input_buffer_ c' = input_buffer_ c ->
            drop (length pre + length (flat_map enc_bulk (command :: args)))
                 (input_buffer_ c') = rest).
  { intros c' ->. rewrite Hbuf2, (assoc_L (++)), <- length_app.
    by rewrite drop_app_length. }
  destruct (execute_command (to_upper command) args srv) as [response srv'].
  cbn [fst snd].
  assert (Hib : input_buffer_ (add_response response c) = input_buffer_ c)
    by (clear; destruct c as [[] ? ?]; reflexivity).
  assert (Hsc : state_ (add_response response c) = state_ c)
    by (clear; destruct c as [[] ? ?]; reflexivity).
  by rewrite (Hdrop _ Hib), Hsc.
Qed.

(** The element loop on a buffer that ends within the elements. *)
Lemma read_elements_partial (elements : list std_string) :
  forall (pre : std_string) (j m : nat) (args : list std_string),
  Forall (λ s, string_size s <= INT_MAX) elements ->
  (j < length (flat_map enc_bulk elements))%nat ->
  (length elements <= m)%nat ->
  read_elements (pre ++ take j (flat_map enc_bulk elements)) m (length pre) args =
  Incomplete.
Proof.
  induction elements as [|s elements IH]; intros pre j m args Hall Hj Hm.
  { cbn in Hj. lia. }
  inversion_clear Hall as [|? ? Hs Hall'].
  destruct m as [|m]; [cbn in Hm; lia|].
  cbn [flat_map] in *. rewrite length_app in Hj.
  destruct (Nat.lt_ge_cases j (length (enc_bulk s))) as [Hin|Hout].
  - rewrite take_app_le by lia. clear IH Hj.
    set (ds := to_string (string_size s)).
    assert (Henc : enc_bulk s = "$"%char :: ds ++ CRLF ++ (s ++ CRLF)).
    { unfold enc_bulk, RespProtocol.encodeBulkString. done. }
    assert (Hlenc : length (enc_bulk s) = (S (length ds) + 2 + length s + 2)%nat).
    { rewrite Henc. cbn [length]. rewrite !length_app. cbn. lia. }
    cbn [read_elements].
    destruct (Nat.leb_spec (length (pre ++ take j (enc_bulk s))) (length pre))
      as [Hle|Hgt]; [done|].
    rewrite length_app, length_take in Hgt.
    assert (Hj0 : (0 < j)%nat) by lia.
    assert (Hch : char_at_is (pre ++ take j (enc_bulk s)) (length pre) "$"%char = true).
    { rewrite Henc. destruct j as [|j]; [lia|]. cbn [take].
      apply char_at_is_middle. }
    rewrite Hch. cbn [negb orb].
    destruct (Nat.lt_ge_cases j (S (length ds) + 2)) as [Hhead|Hbody].
    + assert (Hnone : string_find_crlf (pre ++ take j (enc_bulk s)) (length pre) = None).
      { unfold string_find_crlf. rewrite drop_app_length.
        assert (Henc2 : enc_bulk s = ("$"%char :: ds) ++ CRLF ++ (s ++ CRLF)) by done.
        rewrite Henc2.
        rewrite find_crlf_prefix; [done| |cbn [length]; lia].
        apply find_crlf_tag; [done|]. apply find_crlf_to_string. }
      by rewrite Hnone.
    + assert (Htake : take j (enc_bulk s) =
                      "$"%char :: ds ++ CRLF ++ take (j - (S (length ds) + 2)) (s ++ CRLF)).
      { assert (Henc2 : enc_bulk s = ("$"%char :: ds ++ CRLF) ++ (s ++ CRLF)).
        { rewrite Henc. cbn [app]. by rewrite <- (assoc_L (++)). }
        rewrite Henc2.
        rewrite take_app_ge by (cbn [length]; rewrite length_app; cbn; lia).
        cbn [length app]. rewrite <- (assoc_L (++)). do 3 f_equal.
        rewrite length_app. cbn. f_equal; lia. }
      rewrite Htake.
      destruct (field_at pre ds
                  (take (j - (S (length ds) + 2)) (s ++ CRLF)) "$"%char eq_refl
                  (find_crlf_to_string _)) as [Hfind Hfield].
      cbn zeta in Hfind, Hfield. rewrite Hfind, Hfield.
      unfold stoi. subst ds. rewrite sto_to_string
        by (unfold string_size, INT_MIN, INT_MAX in *; lia).
      destruct (Z.ltb_spec (string_size s) 0); [unfold string_size in *; lia|].
      replace (Z.to_nat (string_size s)) with (length s) by (unfold string_size; lia).
      set (ds := to_string (string_size s)) in *.
      destruct (Nat.ltb_spec
                  (length (pre ++ "$"%char :: ds ++ CRLF ++
                           take (j - (S (length ds) + 2)) (s ++ CRLF)))
                  (length pre + S (length ds) + 2 + length s + 2)) as [_|Hge]; [done|].
      rewrite length_app in Hge. cbn [length] in Hge.
      rewrite !length_app, length_take, length_app in Hge. cbn in Hge. lia.
  - rewrite take_app_ge by lia.
    rewrite (read_elements_bulk pre s
               (take (j - length (enc_bulk s)) (flat_map enc_bulk elements)) m args Hs).
    rewrite (assoc_L (++)), <- length_app.
    apply IH; [done|lia|cbn in Hm; lia].
Qed.

(** The loop on a buffer that is a proper prefix of one command. *)
Lemma process_loop_partial (fuel : nat) c srv (command : std_string)
    (args : list std_string) (i : nat) :
  sized (command, args) ->
  (i < length (Client.encode_command command args))%nat ->
  input_buffer_ c = take i (Client.encode_command command args) ->
  process_loop execute_command (S fuel) 0 c srv = Some (true, c, srv).
Proof.
  intros (Hcmd & Hargs & Hcount) Hi Hbuf. cbn [fst snd] in *.
  rewrite encode_command_bytes in Hbuf, Hi.
  set (count := to_string (Z.of_nat (length args) + 1)) in *.
  set (body := flat_map enc_bulk (command :: args)) in *.
  cbn [process_loop].
  destruct (Nat.ltb_spec 0 (length (input_buffer_ c))) as [Hlen|_]; [|done].
  rewrite Hbuf, length_take in Hlen.
  destruct i as [|i]; [lia|]. cbn [take] in Hbuf.
  assert (Hstar : char_at_is (input_buffer_ c) 0 "*"%char = true) by by rewrite Hbuf.
  rewrite Hstar.
  destruct (Nat.lt_ge_cases i (length count + 2)) as [Hhead|Hbody].
  - assert (Hnone : string_find_crlf (input_buffer_ c) 0 = None).
    { unfold string_find_crlf. rewrite drop_0, Hbuf.
      change ("*"%char :: take i (count ++ CRLF ++ body))
        with (take (S i) (("*"%char :: count) ++ CRLF ++ body)).
      rewrite find_crlf_prefix; [done| |cbn [length]; lia].
      apply find_crlf_tag; [done|]. apply find_crlf_to_string. }
    by rewrite Hnone.
  - set (pre := "*"%char :: count ++ CRLF).
    assert (Hpre : length pre = (S (length count) + 2)%nat).
    { subst pre. cbn [length]. rewrite length_app. cbn. lia. }
    assert (Hbuf2 : input_buffer_ c = pre ++ take (i - (length count + 2)) body).
    { rewrite Hbuf. subst pre. cbn [app]. f_equal.
      rewrite (assoc_L (++) count).
      rewrite take_app_ge by (rewrite length_app; cbn; lia).
      f_equal. f_equal. rewrite length_app. cbn. lia. }
    assert (Hbuf3 : input_buffer_ c =
                    [] ++ "*"%char :: count ++ CRLF ++ take (i - (length count + 2)) body).
    { rewrite Hbuf2. subst pre. cbn [app]. by rewrite <- (assoc_L (++)). }
    destruct (field_at [] count (take (i - (length count + 2)) body)
                "*"%char eq_refl (find_crlf_to_string _)) as [Hfind Hfield].
    cbn zeta in Hfind, Hfield. rewrite <- Hbuf3 in Hfind, Hfield.
    change (length (@nil ascii)) with 0%nat in Hfind, Hfield.
    cbn [Nat.add] in Hfind, Hfield. rewrite Hfind.
    change (0 + 1)%nat with 1%nat. rewrite Hfield.
    unfold stoi. subst count.
    rewrite sto_to_string by (unfold INT_MIN, INT_MAX in *; lia).
    destruct (Z.leb_spec (Z.of_nat (length args) + 1) 0) as [Hle|_]; [lia|].
    set (count := to_string (Z.of_nat (length args) + 1)) in *.
    rewrite <- Hpre. rewrite Hbuf2 at 1.
    cbn [length] in Hi. rewrite !length_app in Hi. cbn [length CRLF] in Hi.
    subst body.
    rewrite (read_elements_partial (command :: args));
      [done|by constructor|lia|cbn [length]; lia].
Qed.

(** Complete commands, then a proper prefix of one more. *)
Lemma process_loop_pipeline (cmds : list (std_string * list std_string)) :
  forall c srv (command : std_string) (args : list std_string) (i : nat),
  state_ c = CONNECTED ->
  Forall sized cmds -> sized (command, args) ->
  (i < length (Client.encode_command command args))%nat ->
  input_buffer_ c =
    flat_map (λ cmd, Client.encode_command cmd.1 cmd.2) cmds ++
    take i (Client.encode_command command args) ->
  process_loop execute_command (S (length cmds)) 0 c srv =
  Some (true,
        {| state_ := CONNECTED;
           input_buffer_ := take i (Client.encode_command command args);
           output_queue_ := output_queue_ c ++ (run_commands execute_command cmds srv).1 |},
        (run_commands execute_command cmds srv).2).
Proof.
  induction cmds as [|[cmd cargs] cmds IH]; intros c srv command args i Hst Hall Hsz Hi Hbuf.
  - cbn [flat_map app] in Hbuf. cbn [length run_commands fst snd].
    rewrite (process_loop_partial 0 c srv command args i Hsz Hi Hbuf).
    rewrite app_nil_r. destruct c as [st ib oq]. cbn in *. by subst.
  - inversion_clear Hall as [|? ? Hc Hall'].
    cbn [flat_map fst snd] in Hbuf. rewrite <- (assoc_L (++)) in Hbuf.
    cbn [length]. rewrite (process_loop_command _ c srv cmd cargs _ Hc Hbuf).
    cbn [run_commands].
    destruct (execute_command (to_upper cmd) cargs srv) as [response srv1].
    cbn [fst snd].
    rewrite (IH _ srv1 command args i); [|done|done|done|done|done].
    destruct (run_commands execute_command cmds srv1) as [responses srv2].
    cbn [fst snd output_queue_]. unfold add_response. rewrite Hst.
    cbn [output_queue_]. by rewrite <- (assoc_L (++)).
Qed.

Lemma process_commands_complete (cmds : list (std_string * list std_string)) c srv
    (command : std_string) (args : list std_string) (i : nat) :
  state_ c = CONNECTED ->
  Forall sized cmds -> sized (command, args) ->
  (i < length (Client.encode_command command args))%nat ->
  input_buffer_ c =
    flat_map (λ cmd, Client.encode_command cmd.1 cmd.2) cmds ++
    take i (Client.encode_command command args) ->
  process_commands execute_command c srv =
  Some (true,
        {| state_ := CONNECTED;
           input_buffer_ := take i (Client.encode_command command args);
           output_queue_ := output_queue_ c ++ (run_commands execute_command cmds srv).1 |},
        (run_commands execute_command cmds srv).2).
Proof.
  intros Hst Hall Hsz Hi Hbuf.
  pose proof (process_loop_pipeline cmds c srv command args i
                Hst Hall Hsz Hi Hbuf) as Hloop.
  destruct (process_commands_returns execute_command c srv) as [r Hr].
  unfold process_commands in *.
  destruct (Nat.le_ge_cases (S (length cmds))
              (2 * length (input_buffer_ c) + 1)) as [Hle|Hge].
  - by apply (process_loop_mono execute_command _ _ _ _ _ _ Hle).
  - rewrite Hr. rewrite <- Hloop. symmetry.
    by apply (process_loop_mono execute_command _ _ _ _ _ _ Hge).
Qed.

(** *** What the loop leaves alone *)

Lemma process_loop_frame (fuel : nat) :
  forall (pos : nat) c srv ok c' srv',
  process_loop execute_command fuel pos c srv = Some (ok, c', srv') ->
  state_ c' = state_ c /\
  (exists k : nat, input_buffer_ c' = drop k (input_buffer_ c)) /\
  (exists responses, output_queue_ c' = output_queue_ c ++ responses) /\
  (state_ c <> CONNECTED -> output_queue_ c' = output_queue_ c).
Proof.
  assert (Hsame : forall c, state_ c = state_ c /\
            (exists k : nat, input_buffer_ c = drop k (input_buffer_ c)) /\
            (exists responses, output_queue_ c = output_queue_ c ++ responses) /\
            (state_ c <> CONNECTED -> output_queue_ c = output_queue_ c)).
  { intros c. split; [done|]. split; [by exists 0%nat|].
    split; [exists []; by rewrite app_nil_r|done]. }
  induction fuel as [|fuel IH]; intros pos c srv ok c' srv'; [done|].
  cbn [process_loop].
  destruct (pos <? length (input_buffer_ c))%nat; [|intros [= <- <- <-]; apply Hsame].
  destruct (char_at_is (input_buffer_ c) pos "*"); [|apply IH].
  destruct (string_find_crlf _ _); [|intros [= <- <- <-]; apply Hsame].
  destruct (stoi _) as [array_size|]; [|intros [= <- <- <-]; apply Hsame].
  destruct (array_size <=? 0); [intros [= <- <- <-]; apply Hsame|].
  destruct (read_elements _ _ _ _) as [| |args current_pos];
    [intros [= <- <- <-]; apply Hsame|intros [= <- <- <-]; apply Hsame|].
  assert (Hstep : forall c1 srv1,
            state_ c1 = state_ c -> input_buffer_ c1 = input_buffer_ c ->
            (exists rs, output_queue_ c1 = output_queue_ c ++ rs) ->
            (state_ c <> CONNECTED -> output_queue_ c1 = output_queue_ c) ->
            process_loop execute_command fuel 0
              {| state_ := state_ c1;
                 input_buffer_ := drop current_pos (input_buffer_ c1);
                 output_queue_ := output_queue_ c1 |} srv1 = Some (ok, c', srv') ->
            state_ c' = state_ c /\
            (exists k : nat, input_buffer_ c' = drop k (input_buffer_ c)) /\
            (exists responses, output_queue_ c' = output_queue_ c ++ responses) /\
            (state_ c <> CONNECTED -> output_queue_ c' = output_queue_ c)).
  { intros c1 srv1 Hs1 Hb1 [rs1 Hq1] Hn1 Hp.
    apply IH in Hp as (Hs & [k Hk] & [rs Hq] & Hn). cbn in Hs, Hk, Hq, Hn.
    split; [congruence|]. split.
    - exists (current_pos + k)%nat. by rewrite Hk, Hb1, drop_drop.
    - split.
      + exists (rs1 ++ rs). by rewrite Hq, Hq1, <- (assoc_L (++)).
      + intros Hne. rewrite Hn by congruence. by apply Hn1. }
  destruct args as [|command command_args].
  - apply Hstep; [done|done|exists []; by rewrite app_nil_r|done].
  - destruct (execute_command _ _ _) as [response srv1].
    apply Hstep.
    + clear. by destruct c as [[] ? ?].
    + clear. by destruct c as [[] ? ?].
    + clear. destruct c as [[] ? ?]; cbn;
        [by exists [response]|exists []; by rewrite app_nil_r..].
    + clear. intros Hne. by destruct c as [[] ? ?].
Qed.

End PipelineProofs.

(** X17.  Pipelined commands.  When the input buffer of a connected
    connection holds the bytes that the client sends for a list of commands,
    followed by the first bytes of one more command, [process_commands]
    gives each command of the list to the server in order, with its name in
    upper case, queues the responses in that order, leaves the bytes of
    the unfinished command in the buffer and returns [true]. *)
Theorem process_commands_pipeline {ServerState : Type}
    (execute_command : std_string -> list std_string -> ServerState ->
                       std_string * ServerState)
    (cmds : list (std_string * list std_string))
    (command : std_string) (args : list std_string) (i : nat)
    (c : Connection.t) (srv : ServerState) :
  Connection.state_ c = Connection.CONNECTED ->
  Forall Connection.sized cmds -> Connection.sized (command, args) ->
  (i < length (Client.encode_command command args))%nat ->
  Connection.input_buffer_ c =
    flat_map (λ cmd, Client.encode_command cmd.1 cmd.2) cmds ++
    take i (Client.encode_command command args) ->
  Connection.process_commands execute_command c srv =
  Some (true,
        {| Connection.state_ := Connection.CONNECTED;
           Connection.input_buffer_ := take i (Client.encode_command command args);
           Connection.output_queue_ :=
             Connection.output_queue_ c ++
             (Connection.run_commands execute_command cmds srv).1 |},
        (Connection.run_commands execute_command cmds srv).2).
Proof.
  apply process_commands_complete.
Qed.

Lemma process_commands_pipeline_witness :
  let cmds := [(str "set", [str "k"; str "v"]); (str "get", [str "k"])] in
  let c := Connection.mk Connection.CONNECTED
             (flat_map (λ cmd, Client.encode_command cmd.1 cmd.2) cmds ++
              take 6 (Client.encode_command (str "del") [str "k"])) [] in
  Connection.state_ c = Connection.CONNECTED /\
  Forall Connection.sized cmds /\ Connection.sized (str "del", [str "k"]) /\
  (6 < length (Client.encode_command (str "del") [str "k"]))%nat /\
  Connection.process_commands sample_execute c (StorageEngine.create 100) =
  Some (true,
        Connection.mk Connection.CONNECTED (str "*2" ++ CRLF ++ str "$3")
          [str "+OK" ++ CRLF; str "$1" ++ CRLF ++ str "v" ++ CRLF],
        StorageEngine.set sample_hash (str "k") (str "v") StorageEngine.seconds_max 0
          (StorageEngine.create 100)).
Proof.
  cbn zeta.
  assert (Hsized : forall cmd, (Z.of_nat (length cmd.1) <=? 100) = true ->
            forallb (λ s, Z.of_nat (length s) <=? 100) cmd.2 = true ->
            (Z.of_nat (length cmd.2) <=? 100) = true -> Connection.sized cmd).
  { intros [cmd cargs] H1 H2 H3. cbn [fst snd] in *.
    apply Z.leb_le in H1, H3. unfold Connection.sized, string_size, INT_MAX.
    cbn [fst snd]. split; [lia|]. split; [|lia].
    apply Forall_forall. intros s Hs.
    rewrite forallb_forall in H2. apply list_elem_of_In, H2, Z.leb_le in Hs. lia. }
  assert (H1 : Forall Connection.sized
                 [(str "set", [str "k"; str "v"]); (str "get", [str "k"])]).
  { repeat (apply Forall_cons; split; [apply Hsized; reflexivity|]). constructor. }
  assert (H2 : Connection.sized (str "del", [str "k"]))
    by (apply Hsized; reflexivity).
  assert (H3 : (6 < length (Client.encode_command (str "del") [str "k"]))%nat)
    by (vm_compute; lia).
  split; [reflexivity|]. split; [exact H1|]. split; [exact H2|]. split; [exact H3|].
  rewrite (process_commands_pipeline sample_execute
             [(str "set", [str "k"; str "v"]); (str "get", [str "k"])]
             (str "del") [str "k"] 6
             (Connection.mk Connection.CONNECTED
                (flat_map (λ cmd, Client.encode_command cmd.1 cmd.2)
                   [(str "set", [str "k"; str "v"]); (str "get", [str "k"])] ++
                 take 6 (Client.encode_command (str "del") [str "k"])) [])
             (StorageEngine.create 100)
             eq_refl H1 H2 H3 eq_refl).
  vm_compute. reflexivity.
Defined.

(** X18.  [process_commands] returns on every buffer, and whatever it
    returns: the state of the connection is as before, the input buffer is
    what is left of the old buffer after some bytes at its front are taken
    off, the output queue is the old queue with responses added at its end,
    and nothing is added when the connection is not connected. *)
Theorem process_commands_frame {ServerState : Type}
    (execute_command : std_string -> list std_string -> ServerState ->
                       std_string * ServerState)
    (c : Connection.t) (srv : ServerState) :
  exists ok c' srv',
    Connection.process_commands execute_command c srv = Some (ok, c', srv') /\
    Connection.state_ c' = Connection.state_ c /\
    (exists k : nat,
       Connection.input_buffer_ c' = drop k (Connection.input_buffer_ c)) /\
    (exists responses,
       Connection.output_queue_ c' = Connection.output_queue_ c ++ responses) /\
    (Connection.state_ c <> Connection.CONNECTED ->
     Connection.output_queue_ c' = Connection.output_queue_ c).
Proof.
  destruct (process_commands_returns execute_command c srv) as [[[ok c'] srv'] Hr].
  exists ok, c', srv'. split; [done|].
  by apply (process_loop_frame execute_command _ _ _ _ _ _ _ Hr).
Qed.

(** X19.  [handle_read] returns for every answer of [recv], and:
    - on a connection that is not connected it returns [false] and changes
      nothing;
    - when [recv] gives data that would take the input buffer over
      [MAX_INPUT_BUFFER_SIZE], it returns [false], appends nothing and leaves
      the connection and the server as they were, but for the activity time,
      which is the clock reading;
    - when [recv] gives data that fits, the data is appended and the result,
      the connection and the server are those of [process_commands] on the
      longer buffer; the activity time is the clock reading and the buffer
      is within the limit afterwards;
    - when the peer has closed, it returns [false], the state is [CLOSING]
      and nothing else changes;
    - when [recv] would block it returns [true], on another error [false],
      and changes nothing.
    So the input buffer stays within the limit if it was, the output queue
    only gets responses added at its end, and the state changes only when the
    peer has closed. *)
Theorem handle_read_effect {ServerState : Type}
    (execute_command : std_string -> list std_string -> ServerState ->
                       std_string * ServerState)
    (received : Connection.recv_result) (now : Z) (c : Connection.timed)
    (srv : ServerState) :
  let buffer := Connection.input_buffer_ (Connection.conn c) in
  let queue := Connection.output_queue_ (Connection.conn c) in
  let connected := Connection.state_ (Connection.conn c) = Connection.CONNECTED in
  exists ok c' srv',
    Connection.handle_read execute_command received now c srv = Some (ok, c', srv') /\
    (~ connected -> ok = false /\ c' = c /\ srv' = srv) /\
    (connected -> forall data, received = Connection.Received data -> data <> [] ->
     Connection.MAX_INPUT_BUFFER_SIZE < string_size buffer + string_size data ->
     ok = false /\ Connection.conn c' = Connection.conn c /\
     Connection.last_activity_ c' = now /\ srv' = srv) /\
    (connected -> forall data, received = Connection.Received data -> data <> [] ->
     string_size buffer + string_size data <= Connection.MAX_INPUT_BUFFER_SIZE ->
     Connection.process_commands execute_command
       {| Connection.state_ := Connection.CONNECTED;
          Connection.input_buffer_ := buffer ++ data;
          Connection.output_queue_ := queue |} srv =
     Some (ok, Connection.conn c', srv') /\
     Connection.last_activity_ c' = now /\
     string_size (Connection.input_buffer_ (Connection.conn c')) <=
       Connection.MAX_INPUT_BUFFER_SIZE) /\
    (connected -> received = Connection.Received [] ->
     ok = false /\
     Connection.conn c' =
       {| Connection.state_ := Connection.CLOSING;
          Connection.input_buffer_ := buffer;
          Connection.output_queue_ := queue |} /\
     Connection.last_activity_ c' = Connection.last_activity_ c /\ srv' = srv) /\
    (connected -> received = Connection.RecvWouldBlock ->
     ok = true /\ c' = c /\ srv' = srv) /\
    (connected -> received = Connection.RecvError ->
     ok = false /\ c' = c /\ srv' = srv) /\
    (string_size buffer <= Connection.MAX_INPUT_BUFFER_SIZE ->
     string_size (Connection.input_buffer_ (Connection.conn c')) <=
       Connection.MAX_INPUT_BUFFER_SIZE) /\
    (exists responses,
       Connection.output_queue_ (Connection.conn c') = queue ++ responses) /\
    (Connection.state_ (Connection.conn c') = Connection.state_ (Connection.conn c) \/
     received = Connection.Received [] /\
     Connection.state_ (Connection.conn c') = Connection.CLOSING).
Proof.
  cbn zeta.
  assert (Hnil : forall q : list std_string, exists rs, q = q ++ rs).
  { intros q. exists []. by rewrite app_nil_r. }
  unfold Connection.handle_read.
  destruct (Connection.state_ (Connection.conn c)) eqn:Hst.
  2,3: exists false, c, srv; split_and!;
    first [done | apply Hnil | by left].
  destruct received as [[|b data']| |].
  - eexists _, _, _. split; [done|]. cbn [Connection.conn Connection.last_activity_
      Connection.state_ Connection.input_buffer_ Connection.output_queue_].
    split_and!;
      first [done | apply Hnil | by right
            | intros _ data [= <-] Hne; by destruct Hne].
  - set (data := b :: data').
    destruct (Z.ltb_spec Connection.MAX_INPUT_BUFFER_SIZE
                (string_size (Connection.input_buffer_ (Connection.conn c)) +
                 string_size data)) as [Hover|Hfit].
    + eexists _, _, _. split; [done|]. cbn [Connection.conn Connection.last_activity_].
      split_and!;
        first [done | apply Hnil | by left
              | intros _ data0 [= <-] _ Hfit; fold data in Hfit; lia].
    + match goal with |- context [Connection.process_commands _ ?c0 _] =>
        destruct (process_commands_returns execute_command c0 srv)
          as [[[ok c'] srv'] Hr];
        pose proof (process_loop_frame execute_command _ _ _ _ _ _ _ Hr)
          as (Hs & [k Hk] & Hq & _) end.
      rewrite Hr. exists ok, {| Connection.conn := c'; Connection.last_activity_ := now |}, srv'.
      cbn [Connection.conn Connection.last_activity_ Connection.state_
           Connection.input_buffer_ Connection.output_queue_] in *.
      assert (Hsize : string_size (Connection.input_buffer_ c') <=
                      Connection.MAX_INPUT_BUFFER_SIZE).
      { rewrite Hk. unfold string_size in *. rewrite length_drop, length_app. lia. }
      split_and!;
        first [done | left; congruence
              | intros _ data0 [= <-] _ Hover; fold data in Hover; lia
              | intros _ data0 [= <-] _ _; done].
  - exists true, c, srv. split_and!; first [done | apply Hnil | by left].
  - exists false, c, srv. split_and!; first [done | apply Hnil | by left].
Qed.

(** X20.  [handle_write] when [send] takes [n] bytes of the message at the
    front of the queue, [0 < n <= len(message)]: it returns [true]; the
    bytes still queued are the bytes that were queued less the first [n]; a
    message that is sent whole leaves the queue; the input buffer and the
    state stay and the activity time is the clock reading.  When [send] takes
    nothing, would block or fails, the connection is left as it is. *)
Theorem handle_write_sends_front (n : nat) (now : Z) (c : Connection.timed)
    (message : std_string) (rest : list std_string) :
  Connection.state_ (Connection.conn c) = Connection.CONNECTED ->
  Connection.output_queue_ (Connection.conn c) = message :: rest ->
  (0 < n <= length message)%nat ->
  let r := Connection.handle_write (Connection.Sent n) now c in
  r.1 = true /\
  concat (Connection.output_queue_ (Connection.conn r.2)) =
    drop n (concat (Connection.output_queue_ (Connection.conn c))) /\
  (n = length message -> Connection.output_queue_ (Connection.conn r.2) = rest) /\
  Connection.input_buffer_ (Connection.conn r.2) =
    Connection.input_buffer_ (Connection.conn c) /\
  Connection.state_ (Connection.conn r.2) = Connection.CONNECTED /\
  Connection.last_activity_ r.2 = now /\
  (Connection.handle_write (Connection.Sent 0) now c).2 = c /\
  (Connection.handle_write Connection.SendWouldBlock now c).2 = c /\
  (Connection.handle_write Connection.SendError now c).2 = c.
Proof.
  intros Hst Hq Hn. cbn zeta. unfold Connection.handle_write. rewrite Hst, Hq.
  destruct n as [|n]; [lia|]. cbn [fst snd Connection.conn Connection.output_queue_
    Connection.input_buffer_ Connection.state_ Connection.last_activity_].
  split; [done|]. split; [|split; [|done]].
  - destruct (Nat.eqb_spec (S n) (length message)) as [Heq|Hne]; cbn [concat].
    + rewrite drop_app_ge by lia. rewrite Heq, Nat.sub_diag. done.
    + rewrite drop_app_le by lia. done.
  - intros Heq. by rewrite <- Heq, Nat.eqb_refl.
Qed.

Lemma handle_write_sends_front_witness :
  let c := Connection.mk_timed
             (Connection.mk Connection.CONNECTED []
                [str "+OK" ++ CRLF; str ":1" ++ CRLF]) 0 in
  let r := Connection.handle_write (Connection.Sent 2) 9 c in
  Connection.state_ (Connection.conn c) = Connection.CONNECTED /\
  Connection.output_queue_ (Connection.conn c) = [str "+OK" ++ CRLF; str ":1" ++ CRLF] /\
  (0 < 2 <= length (str "+OK" ++ CRLF))%nat /\
  Connection.output_queue_ (Connection.conn r.2) = [str "K" ++ CRLF; str ":1" ++ CRLF] /\
  concat (Connection.output_queue_ (Connection.conn r.2)) =
    drop 2 (concat (Connection.output_queue_ (Connection.conn c))) /\
  Connection.last_activity_ r.2 = 9.
Proof.
  cbn zeta.
  assert (Hn : (0 < 2 <= length (str "+OK" ++ CRLF))%nat) by (vm_compute; lia).
  split; [reflexivity|]. split; [reflexivity|]. split; [exact Hn|].
  split; [vm_compute; reflexivity|].
  destruct (handle_write_sends_front 2 9
              (Connection.mk_timed
                 (Connection.mk Connection.CONNECTED []
                    [str "+OK" ++ CRLF; str ":1" ++ CRLF]) 0)
              (str "+OK" ++ CRLF) [str ":1" ++ CRLF] eq_refl eq_refl Hn)
    as (_ & Hbytes & _ & _ & _ & Hact & _).
  split; [exact Hbytes|exact Hact].
Defined.

(** ** Server and client: replies on the wire *)

Lemma find_crlf_snoc (s : std_string) (ch : ascii) :
  find_crlf s = None -> ascii_eqb ch LF = false -> find_crlf (s ++ [ch]) = None.
Proof.
  intros Hs Hch. induction s as [|c1 [|c2 tl] IH].
  - done.
  - cbn [app]. rewrite find_crlf_cons, Hch, andb_false_r. done.
  - apply find_crlf_cons_None in Hs as [Hc Hs].
    change ((c1 :: c2 :: tl) ++ [ch]) with (c1 :: c2 :: (tl ++ [ch])).
    rewrite find_crlf_cons, Hc.
    change (c2 :: tl ++ [ch]) with ((c2 :: tl) ++ [ch]). by rewrite IH.
Qed.

Lemma storage_get_value (std_hash : std_string -> nat) (key : std_string)
    (now1 now2 : Z) (se : StorageEngine.t) :
  (StorageEngine.get std_hash key now1 now2 se).1 = [] \/
  exists e, HashTable.get std_hash key (StorageEngine.store se) = Some e /\
            (StorageEngine.get std_hash key now1 now2 se).1 = StorageEngine.value e.
Proof.
  unfold StorageEngine.get.
  destruct (HashTable.get std_hash key (StorageEngine.store se)) as [e|]; [|by left].
  destruct (StorageEngine.expired now2 _); [by left|]. right. by exists e.
Qed.

(** X21.  Every reply of [execute_command] over the SET, GET and DEL
    handlers is the encoding of a RESP value that the wire format can
    carry, so [RespProtocol::parse] reads the whole reply back as that
    value, when the name of the command holds no CRLF (the reply to an
    unknown command quotes the name) and no stored value is longer than
    [INT_MAX]. *)
Theorem execute_command_reply_is_resp (std_hash : std_string -> nat)
    (command : std_string) (args : list std_string) (now1 now2 : Z)
    (se : StorageEngine.t) :
  find_crlf command = None ->
  (forall k e, HashTable.get std_hash k (StorageEngine.store se) = Some e ->
               string_size (StorageEngine.value e) <= INT_MAX) ->
  let reply := (Server.execute_command std_hash command args now1 now2 se).1 in
  exists v, RespProtocol.well_formed v = true /\
            reply = RespProtocol.encode v /\
            RespProtocol.parse reply = RespProtocol.Parsed v (length reply).
Proof.
  intros Hcmd Hvals. cbn zeta.
  assert (Hv : forall v reply, RespProtocol.well_formed v = true ->
            reply = RespProtocol.encode v ->
            exists v, RespProtocol.well_formed v = true /\
                      reply = RespProtocol.encode v /\
                      RespProtocol.parse reply = RespProtocol.Parsed v (length reply)).
  { intros v reply Hwf ->. exists v. split; [done|]. split; [done|].
    unfold RespProtocol.parse.
    rewrite <- (app_nil_r (RespProtocol.encode v)) at 2.
    rewrite parse_n_encode; [done|done|]. by rewrite app_nil_r. }
  unfold Server.execute_command.
  destruct (bool_decide (command = str "SET")).
  { unfold Server.set_handler.
    destruct (length args <? 2)%nat.
    - by apply (Hv (RespProtocol.Error
                      (str "ERR wrong number of arguments for 'set' command"))).
    - destruct (if _ && _ then _ else _) as [ttl|].
      + by apply (Hv (RespProtocol.SimpleString (str "OK"))).
      + by apply (Hv (RespProtocol.Error (str "ERR invalid expire time in 'set' command"))). }
  destruct (bool_decide (command = str "GET")).
  { unfold Server.get_handler.
    destruct (negb (length args =? 1)%nat).
    - by apply (Hv (RespProtocol.Error
                      (str "ERR wrong number of arguments for 'get' command"))).
    - pose proof (storage_get_value std_hash (default [] (args !! 0%nat)) now1 now2 se)
        as Hval.
      destruct (StorageEngine.get std_hash _ now1 now2 se) as [value se'].
      cbn [fst] in Hval.
      destruct (string_empty value) eqn:Hempty; cbn [fst].
      + by apply (Hv RespProtocol.NullBulkString).
      + apply (Hv (RespProtocol.BulkString value)); [|done].
        destruct Hval as [->|(e & He & ->)]; [done|].
        cbn. apply Z.leb_le. by apply (Hvals _ _ He). }
  destruct (bool_decide (command = str "DEL")).
  { unfold Server.del_handler.
    destruct (negb (length args =? 1)%nat).
    - by apply (Hv (RespProtocol.Error
                      (str "ERR wrong number of arguments for 'del' command"))).
    - destruct (StorageEngine.del std_hash _ se) as [[] se']; cbn [fst].
      + by apply (Hv (RespProtocol.Integer 1)).
      + by apply (Hv (RespProtocol.Integer 0)). }
  cbn [fst].
  apply (Hv (RespProtocol.Error (str "ERR unknown command '" ++ command ++ str "'"))).
  - cbn [RespProtocol.well_formed]. apply bool_decide_eq_true.
    cbn [str list_ascii_of_string app].
    repeat (apply find_crlf_tag; [reflexivity|]).
    by apply find_crlf_snoc.
  - cbn [RespProtocol.encode]. unfold RespProtocol.encodeError.
    cbn [str list_ascii_of_string app]. by rewrite <- !(assoc_L (++)).
Qed.

Lemma execute_command_reply_is_resp_witness :
  let reply := (Server.execute_command sample_hash (str "GET") [str "b"] 1 1
                  sample_store).1 in
  find_crlf (str "GET") = None /\
  reply = str "$2" ++ CRLF ++ str "22" ++ CRLF /\
  exists v, RespProtocol.well_formed v = true /\
            reply = RespProtocol.encode v /\
            RespProtocol.parse reply = RespProtocol.Parsed v (length reply).
Proof.
  cbn zeta. split; [reflexivity|]. split; [vm_compute; reflexivity|].
  apply (execute_command_reply_is_resp sample_hash (str "GET") [str "b"] 1 1 sample_store).
  - reflexivity.
  - intros k e He.
    assert (Hin : (k, e) ∈ HashTable.nodes (StorageEngine.store sample_store)).
    { apply (get_Some sample_hash); [exact sample_store_wf|exact He]. }
    vm_compute in Hin.
    repeat (apply elem_of_cons in Hin as [Hin|Hin];
            [injection Hin as -> ->; vm_compute; discriminate|]).
    by apply elem_of_nil in Hin.
Defined.

Lemma decode_response_encode (v : RespProtocol.RespValue) :
  RespProtocol.well_formed v = true ->
  Client.decode_response (RespProtocol.encode v) = Some (Client.shown v).
Proof.
  assert (Hline : forall (s rest : std_string), find_crlf s = None ->
            string_find_crlf (s ++ CRLF ++ rest) 0 = Some (length s) /\
            substr (s ++ CRLF ++ rest) 0 (length s) = s).
  { intros s rest Hs. unfold string_find_crlf, substr. rewrite drop_0.
    rewrite find_crlf_app_crlf by done. split; [done|].
    by rewrite take_app_length. }
  intros Hwf. destruct v as [s|s|n|s| |vs| ]; cbn [RespProtocol.encode Client.shown].
  - cbn in Hwf. apply bool_decide_eq_true in Hwf.
    unfold RespProtocol.encodeSimpleString, Client.decode_response.
    cbn [str list_ascii_of_string app].
    destruct (Hline s [] Hwf) as [H1 H2]. rewrite app_nil_r in H1, H2.
    by rewrite H1, H2.
  - cbn in Hwf. apply bool_decide_eq_true in Hwf.
    unfold RespProtocol.encodeError, Client.decode_response.
    cbn [str list_ascii_of_string app].
    destruct (Hline s [] Hwf) as [H1 H2]. rewrite app_nil_r in H1, H2.
    by rewrite H1, H2.
  - unfold RespProtocol.encodeInteger, Client.decode_response.
    cbn [str list_ascii_of_string app].
    destruct (Hline (to_string n) [] (find_crlf_to_string n)) as [H1 H2].
    rewrite app_nil_r in H1, H2. by rewrite H1, H2.
  - cbn in Hwf. apply Z.leb_le in Hwf.
    unfold RespProtocol.encodeBulkString, Client.decode_response.
    cbn [str list_ascii_of_string app].
    set (ds := to_string (string_size s)).
    destruct (Hline ds (s ++ CRLF) (find_crlf_to_string _)) as [H1 H2].
    rewrite H1, H2. cbn match. unfold stoi. subst ds.
    rewrite sto_to_string by (unfold string_size, INT_MIN, INT_MAX in *; lia).
    destruct (Z.eqb_spec (string_size s) (-1)); [unfold string_size in *; lia|].
    destruct (Z.ltb_spec (string_size s) 0); [unfold string_size in *; lia|].
    replace (Z.to_nat (string_size s)) with (length s) by (unfold string_size; lia).
    set (ds := to_string (string_size s)).
    rewrite (assoc_L (++) ds CRLF).
    replace (length ds + 2)%nat with (length (ds ++ CRLF))
      by (rewrite length_app; done).
    by rewrite substr_middle.
  - done.
  - cbn in Hwf. apply andb_true_iff in Hwf as [Hlen _]. apply Z.leb_le in Hlen.
    unfold RespProtocol.encodeArray_with, Client.decode_response.
    cbn [str list_ascii_of_string app].
    set (ds := to_string (Z.of_nat (length vs))).
    destruct (Hline ds (flat_map RespProtocol.encode vs) (find_crlf_to_string _))
      as [H1 H2].
    rewrite H1, H2. cbn match. unfold stoi. subst ds.
    rewrite sto_to_string by (unfold INT_MIN, INT_MAX in *; lia).
    destruct (Z.eqb_spec (Z.of_nat (length vs)) (-1)); [lia|]. done.
  - done.
Qed.


(** X22.  [Client::decode_response] on the encoding of a RESP value that the
    wire format can carry: it throws nothing and shows the text of a simple
    string, the text of an error after ["Error: "], the digits of an
    integer, the bytes of a bulk string, ["NULL"] for the null bulk string
    and the null array, and the number of elements of an array. *)
Theorem decode_response_of_encode (v : RespProtocol.RespValue) :
  RespProtocol.well_formed v = true ->
  Client.decode_response (RespProtocol.encode v) = Some (Client.shown v).
Proof. apply decode_response_encode. Qed.

Lemma decode_response_of_encode_witness :
  let v := RespProtocol.BulkString (str "a" ++ CRLF ++ str "b") in
  RespProtocol.well_formed v = true /\
  Client.decode_response (RespProtocol.encode v) = Some (str "a" ++ CRLF ++ str "b").
Proof.
  cbn zeta. split; [reflexivity|].
  apply (decode_response_of_encode (RespProtocol.BulkString (str "a" ++ CRLF ++ str "b"))).
  reflexivity.
Defined.

(** ** Client: the words of a command line *)

Section CommandLine.

Lemma span_word_end (w : std_string) :
  Forall (λ ch, is_space ch = false) w -> Client.span_word w = (w, []).
Proof.
  induction 1 as [|ch w Hch _ IH]; [done|]. cbn [Client.span_word].
  by rewrite Hch, IH.
Qed.

Lemma span_word_space (w rest : std_string) (sp : ascii) :
  Forall (λ ch, is_space ch = false) w -> is_space sp = true ->
  Client.span_word (w ++ sp :: rest) = (w, sp :: rest).
Proof.
  intros Hw Hsp. induction Hw as [|ch w Hch _ IH]; cbn [app Client.span_word].
  - by rewrite Hsp.
  - by rewrite Hch, IH.
Qed.

Lemma skip_spaces_word (w rest : std_string) :
  w <> [] -> Forall (λ ch, is_space ch = false) w ->
  skip_spaces (w ++ rest) = w ++ rest.
Proof.
  intros Hne Hw. destruct Hw as [|ch w Hch _]; [done|].
  cbn [app skip_spaces]. by rewrite Hch.
Qed.

Abbreviation spaced :=
  (flat_map (λ arg : std_string, " "%char :: arg)).

Lemma read_word_first (w : std_string) (args : list std_string) :
  w <> [] -> Forall (λ ch, is_space ch = false) w ->
  Client.read_word (w ++ spaced args) = (w, spaced args).
Proof.
  intros Hne Hw. unfold Client.read_word. rewrite skip_spaces_word by done.
  destruct args as [|a args]; cbn [flat_map].
  - rewrite app_nil_r. by apply span_word_end.
  - cbn [app]. by apply span_word_space.
Qed.

Lemma read_args_spaced (args : list std_string) :
  forall fuel : nat,
  Forall (λ arg, arg <> [] /\ Forall (λ ch, is_space ch = false) arg) args ->
  (length args <= fuel)%nat ->
  Client.read_args fuel (spaced args) = map Client.unquote args.
Proof.
  induction args as [|a args IH]; intros fuel Hall Hfuel.
  - destruct fuel; done.
  - destruct fuel as [|fuel]; [cbn in Hfuel; lia|].
    inversion_clear Hall as [|? ? [Hne Ha] Hall'].
    cbn [flat_map Client.read_args map].
    assert (Hword : Client.read_word ((" "%char :: a) ++ spaced args) = (a, spaced args)).
    { unfold Client.read_word. cbn [app skip_spaces].
      change (is_space " ") with true. cbn match.
      by apply read_word_first. }
    rewrite Hword. destruct a as [|ch a]; [done|]. cbn [string_empty].
    rewrite IH; [done|done|]. cbn in Hfuel. lia.
Qed.

End CommandLine.

(** X23.  [Client::parse_command_line] on a line made of a command word and
    argument words, none empty and none with white space inside, with one
    space between them: the result is the command in upper case and the
    arguments in their order, each without its double quotes when it starts
    and ends with one. *)
Theorem parse_command_line_words (command : std_string) (args : list std_string) :
  Forall (λ word, word <> [] /\ Forall (λ ch, is_space ch = false) word)
         (command :: args) ->
  Client.parse_command_line (command ++ flat_map (λ arg, " "%char :: arg) args) =
  Some (to_upper command, map Client.unquote args).
Proof.
  intros Hall. inversion_clear Hall as [|? ? [Hne Hc] Hargs].
  unfold Client.parse_command_line. rewrite read_word_first by done.
  destruct command as [|ch command]; [done|]. cbn [string_empty].
  rewrite read_args_spaced; [done|done|].
  clear. induction args as [|a args IH]; cbn [flat_map length]; [lia|].
  rewrite length_app. cbn [length]. lia.
Qed.

Lemma parse_command_line_words_witness :
  let quoted := Client.DQUOTE :: str "v" ++ [Client.DQUOTE] in
  Forall (λ word, word <> [] /\ Forall (λ ch, is_space ch = false) word)
         [str "set"; str "key"; quoted] /\
  Client.parse_command_line (str "set key " ++ quoted) =
  Some (str "SET", [str "key"; str "v"]).
Proof.
  cbn zeta.
  assert (H : Forall (λ word, word <> [] /\ Forall (λ ch, is_space ch = false) word)
                [str "set"; str "key"; Client.DQUOTE :: str "v" ++ [Client.DQUOTE]]).
  { repeat (apply Forall_cons; split;
            [split; [discriminate|
                     repeat (apply Forall_cons; split; [reflexivity|]); constructor]|]).
    constructor. }
  split; [exact H|].
  exact (parse_command_line_words (str "set")
           [str "key"; Client.DQUOTE :: str "v" ++ [Client.DQUOTE]] H).
Defined.

(** ** Client, connection, server and engine together *)

(** X24.  SET then GET over the wire.  The client encodes [set key value]
    and [get key]; the connection finds both commands in its input buffer
    and gives them to the server; the replies that it queues, decoded by the
    client, are ["OK"] and the value that was set.  This holds when the
    value is not empty, key and value are no longer than [INT_MAX], and the
    engine has room for the entry within its budget (so that the budget loop
    evicts nothing), whatever the clock reads. *)
Theorem set_then_get_over_the_wire (std_hash : std_string -> nat)
    (se : StorageEngine.t) (key value : std_string) (now1 now2 : Z)
    (c : Connection.t) :
  HashTable.wf std_hash (StorageEngine.store se) ->
  StorageEngine.live_bytes se <= StorageEngine.current_memory se ->
  StorageEngine.current_memory se + (string_size key + string_size value) <=
    StorageEngine.max_memory se ->
  StorageEngine.max_memory se < 2 ^ 64 ->
  value <> [] -> string_size key <= INT_MAX -> string_size value <= INT_MAX ->
  Connection.state_ c = Connection.CONNECTED ->
  Connection.input_buffer_ c =
    Client.encode_command (str "set") [key; value] ++
    Client.encode_command (str "get") [key] ->
  exists c' se' ok_reply value_reply,
    Connection.process_commands
      (λ command args se, Server.execute_command std_hash command args now1 now2 se)
      c se = Some (true, c', se') /\
    Connection.input_buffer_ c' = [] /\
    Connection.output_queue_ c' = Connection.output_queue_ c ++ [ok_reply; value_reply] /\
    Client.decode_response ok_reply = Some (str "OK") /\
    Client.decode_response value_reply = Some value.
Proof.
  intros Hwf Hlive Hfit Hmax Hval Hk Hv Hst Hbuf.
  set (execute := λ command args se,
         Server.execute_command std_hash command args now1 now2 se).
  assert (Hsize0 : forall w : std_string, (length w <= 3)%nat -> string_size w <= INT_MAX).
  { intros w Hw. unfold string_size, INT_MAX. lia. }
  assert (Hcmds : Forall Connection.sized
                    [(str "set", [key; value]); (str "get", [key])]).
  { repeat (apply Forall_cons; split); [| |constructor].
    - split; [apply Hsize0; cbn; lia|]. cbn [snd]. split; [by repeat constructor|].
      cbn. unfold INT_MAX. lia.
    - split; [apply Hsize0; cbn; lia|]. cbn [snd]. split; [by repeat constructor|].
      cbn. unfold INT_MAX. lia. }
  assert (Hnone : Connection.sized ([], [])).
  { split; [apply Hsize0; cbn; lia|]. cbn [snd]. split; [constructor|].
    cbn. unfold INT_MAX. lia. }
  pose proof (process_commands_complete execute
                [(str "set", [key; value]); (str "get", [key])] c se [] [] 0
                Hst Hcmds Hnone) as Hrun.
  cbn [take flat_map fst snd] in Hrun. rewrite !app_nil_r in Hrun.
  specialize (Hrun ltac:(vm_compute; lia) Hbuf).
  rewrite Hrun. clear Hrun.
  set (e := {| StorageEngine.value := value; StorageEngine.ttl := StorageEngine.seconds_max;
               StorageEngine.last_accessed := now1 |}).
  set (se1 := StorageEngine.set std_hash key value StorageEngine.seconds_max now1 se).
  assert (Hset : execute (to_upper (str "set")) [key; value] se = (str "+OK" ++ CRLF, se1)).
  { done. }
  assert (Hstored : HashTable.get std_hash key (StorageEngine.store se1) = Some e).
  { subst se1. rewrite (set_store_room std_hash se key value _ now1 Hwf Hlive Hfit Hmax).
    rewrite get_insert by done. by rewrite decide_True. }
  assert (Hget : (execute (to_upper (str "get")) [key] se1).1 =
                 RespProtocol.encode (RespProtocol.BulkString value)).
  { subst execute. cbn beta.
    change (to_upper (str "get")) with (str "GET").
    unfold Server.execute_command.
    rewrite bool_decide_eq_false_2 by discriminate.
    rewrite bool_decide_eq_true_2 by done.
    unfold Server.get_handler. cbn [length Nat.eqb negb].
    change (default [] ([key] !! 0%nat)) with key.
    unfold StorageEngine.get. rewrite Hstored.
    cbn [StorageEngine.value StorageEngine.ttl e].
    assert (Hex : StorageEngine.expired now2
                    {| StorageEngine.value := value;
                       StorageEngine.ttl := StorageEngine.seconds_max;
                       StorageEngine.last_accessed := now1 |} = false).
    { unfold StorageEngine.expired. cbn [StorageEngine.ttl].
      by rewrite Z.eqb_refl. }
    rewrite Hex. destruct value as [|ch value']; [done|]. done. }
  cbn [Connection.run_commands]. rewrite Hset.
  destruct (execute (to_upper (str "get")) [key] se1) as [reply se2].
  cbn [fst snd] in *. subst reply.
  eexists _, se2, (str "+OK" ++ CRLF), _. split; [reflexivity|].
  cbn [Connection.input_buffer_ Connection.output_queue_].
  split; [done|]. split; [done|]. split; [done|].
  rewrite decode_response_encode; [done|].
  cbn. by apply Z.leb_le.
Qed.

Lemma set_then_get_over_the_wire_witness :
  let c := Connection.mk Connection.CONNECTED
             (Client.encode_command (str "set") [str "k"; str "hello"] ++
              Client.encode_command (str "get") [str "k"]) [] in
  HashTable.wf sample_hash (StorageEngine.store sample_store) /\
  StorageEngine.live_bytes sample_store <= StorageEngine.current_memory sample_store /\
  StorageEngine.current_memory sample_store +
    (string_size (str "k") + string_size (str "hello")) <=
    StorageEngine.max_memory sample_store /\
  StorageEngine.max_memory sample_store < 2 ^ 64 /\
  str "hello" <> [] /\
  string_size (str "k") <= INT_MAX /\ string_size (str "hello") <= INT_MAX /\
  exists c' se' ok_reply value_reply,
    Connection.process_commands
      (λ command args se, Server.execute_command sample_hash command args 3 4 se)
      c sample_store = Some (true, c', se') /\
    Connection.input_buffer_ c' = [] /\
    Connection.output_queue_ c' = Connection.output_queue_ c ++ [ok_reply; value_reply] /\
    Client.decode_response ok_reply = Some (str "OK") /\
    Client.decode_response value_reply = Some (str "hello").
Proof.
  cbn zeta.
  assert (H1 : StorageEngine.live_bytes sample_store <=
               StorageEngine.current_memory sample_store)
    by (vm_compute; discriminate).
  assert (H2 : StorageEngine.current_memory sample_store +
               (string_size (str "k") + string_size (str "hello")) <=
               StorageEngine.max_memory sample_store)
    by (vm_compute; discriminate).
  assert (H3 : StorageEngine.max_memory sample_store < 2 ^ 64)
    by (vm_compute; reflexivity).
  assert (H4 : str "hello" <> []) by discriminate.
  assert (H5 : string_size (str "k") <= INT_MAX) by (vm_compute; discriminate).
  assert (H6 : string_size (str "hello") <= INT_MAX) by (vm_compute; discriminate).
  split; [exact sample_store_wf|]. split; [exact H1|]. split; [exact H2|].
  split; [exact H3|]. split; [exact H4|]. split; [exact H5|]. split; [exact H6|].
  exact (set_then_get_over_the_wire sample_hash sample_store (str "k") (str "hello") 3 4
           (Connection.mk Connection.CONNECTED
              (Client.encode_command (str "set") [str "k"; str "hello"] ++
               Client.encode_command (str "get") [str "k"]) [])
           sample_store_wf H1 H2 H3 H4 H5 H6 eq_refl eq_refl).
Defined.
